(** * flagx: extended flag sets and command routing

    A shallow embedding of the argument scanner of [FlagSet]
    (flag-set source file) and of the command tree of [App] (app.go),
    followed by the properties established about them.

    Conventions.
    - Go strings are byte strings: [string] with [ascii] bytes.
    - Go [int] values that are only compared (positional indices, error
      handling policies) are [Z].
    - Go maps are [gmap]s.
    - Storage cells bound to flags (the fields of option structs) live in
      a heap of text cells; a flag value is a pointer into it.
    - Code that may panic, call [os.Exit] or spin is written in the
      monad [M]. *)

From Stdlib Require Import String Ascii ZArith List Lia DecimalString DecimalZ.
From stdpp Require Import base gmap strings list.
From Equations Require Import Equations.

Local Open Scope string_scope.
Local Open Scope list_scope.

(* ===================================================================== *)
(** * Byte strings, the way Go indexes and slices them *)
(* ===================================================================== *)

Module GoString.

(** [len(s)] *)
Definition len (s : string) : nat := String.length s.

(** [s[i] == c]; an index out of range never equals a byte. *)
Definition byte_is (s : string) (i : nat) (c : ascii) : bool :=
  match String.get i s with
  | Some b => Ascii.eqb b c
  | None => false
  end.

(** [s[i:]] *)
Definition from (i : nat) (s : string) : string :=
  String.substring i (String.length s - i) s.

(** [s[0:i]] *)
Definition upto (i : nat) (s : string) : string :=
  String.substring 0 i s.

(** The scan [for i := k; i < len(s); i++ { if s[i] == c ... }] over
    the bytes of [s] that remain from position [k] on: the first
    position holding [c]. *)
Fixpoint index_from (c : ascii) (k : nat) (rest : string) : option nat :=
  match rest with
  | EmptyString => None
  | String b rest' => if Ascii.eqb b c then Some k else index_from c (S k) rest'
  end.

End GoString.

(* ===================================================================== *)
(** * Errors *)
(* ===================================================================== *)

(** The errors built with [fmt.Errorf] / [failf], one constructor per
    format string, carrying the formatted operands. *)
Inductive Error : Type :=
| ErrHelp                                         (* flag.ErrHelp *)
| ErrBadSyntax (s : string)                       (* "bad flag syntax: %s" *)
| ErrNotDefined (name : string)                   (* "flag provided but not defined: -%s" *)
| ErrInvalidBool (value name : string)            (* "invalid boolean value %q for -%s: %v" *)
| ErrInvalidBoolFlag (name : string)              (* "invalid boolean flag %s: %v" *)
| ErrNeedsArg (name : string)                     (* "flag needs an argument: -%s" *)
| ErrInvalidValue (value name : string)           (* "invalid value %q for flag -%s: %v" *)
| ErrNonFlagNotProvided (index : Z)               (* "non-flag defined but not provided: %d" *)
| ErrInvalidNonFlag (value : string) (index : Z)  (* "invalid value %q for non-flag %d: %v" *)
| ErrValidate (msg : string).                     (* an error of the validator hook *)

(* ===================================================================== *)
(** * The token scanner: tidyOneArg, filterArgs, tidyArgs *)
(* ===================================================================== *)

(** The six named results of [tidyOneArg]. *)
Module OneArg.
Record t : Type := mk {
  lastArgs : list string;
  terminated : bool;
  name : string;
  valuePtr : option string;
  seen : bool;
  err : option Error
}.
End OneArg.

(** The loop [for i := 1; i < len(name); i++ { if name[i] == '=' ... }]. *)
Definition equalsAt (name : string) : option nat :=
  GoString.index_from "="%char 1 (GoString.from 1 name).

(** tidyOneArg tidies one flag. It reports whether a flag was seen. *)
Definition tidyOneArg (args : list string) : OneArg.t :=
  match args with
  | [] => OneArg.mk args false "" None false None
  | s :: args' =>
    if (GoString.len s <? 2)%nat || negb (GoString.byte_is s 0 "-"%char) then
      OneArg.mk args false "" None false None
    else
      let numMinuses := if GoString.byte_is s 1 "-"%char then 2 else 1 in
      if GoString.byte_is s 1 "-"%char && (GoString.len s =? 2)%nat then
        (* "--" terminates the flags *)
        OneArg.mk args' true "" None false None
      else
        let name := GoString.from numMinuses s in
        if (GoString.len name =? 0)%nat
           || GoString.byte_is name 0 "-"%char
           || GoString.byte_is name 0 "="%char then
          OneArg.mk args false name None false (Some (ErrBadSyntax s))
        else
          (* it's a flag. does it have an argument? *)
          match equalsAt name with
          | Some i =>
            OneArg.mk args' false (GoString.upto i name)
                     (Some (GoString.from (S i) name)) true None
          | None =>
            match args' with
            | [] => OneArg.mk args' false name None true None
            | maybeValue :: args'' =>
              if (GoString.len maybeValue =? 0)%nat
                 || negb (GoString.byte_is maybeValue 0 "-"%char) then
                (* value is the next arg *)
                OneArg.mk args'' false name (Some maybeValue) true None
              else
                OneArg.mk args' false name None true None
            end
          end
  end.

(** A flag that was seen took at least its own token off the list. *)
Lemma tidyOneArg_shrinks args :
  OneArg.seen (tidyOneArg args) = true →
  length (OneArg.lastArgs (tidyOneArg args)) < length args.
Proof.
  unfold tidyOneArg. destruct args as [|s args']; [discriminate|].
  repeat (case_match; simpl; try discriminate; try lia).
Qed.

(** Matching on a value while remembering which call produced it. *)
Definition inspect {A : Type} (x : A) : {y : A | x = y} := exist _ x eq_refl.

(** [filterArgs]: the callback is a closure over mutable state of the
    caller; here it threads a state of type [St]. *)
Equations? filterArgs {St : Type} (args : list string)
    (filter : string → option string → St → St * bool) (st : St)
    : St * (list string * bool * option Error) by wf (length args) lt :=
  filterArgs args filter st with inspect (tidyOneArg args) := {
    | exist _ r Hr with inspect (OneArg.seen r) := {
      | exist _ false Hs :=
          (st, (OneArg.lastArgs r, OneArg.terminated r, OneArg.err r));
      | exist _ true Hs with filter (OneArg.name r) (OneArg.valuePtr r) st := {
        | (st', false) :=
            (st', (OneArg.lastArgs r, OneArg.terminated r, OneArg.err r));
        | (st', true) := filterArgs (OneArg.lastArgs r) filter st' } } }.
Proof. by apply tidyOneArg_shrinks. Qed.

(** The closure [tidyArgs] passes to [filterArgs]; the variable it
    captures and appends to, [tidiedArgs], is the state. *)
Definition tidyArgs_closure (filter : string → bool * bool)
    (name : string) (valuePtr : option string) (tidiedArgs : list string)
    : list string * bool :=
  let '(want, next) := filter name in
  let tidiedArgs :=
    if want then
      let kv := match valuePtr with
                | None => ["-" +:+ name]
                | Some value => ["-" +:+ name; value]
                end in
      tidiedArgs ++ kv
    else tidiedArgs in
  (tidiedArgs, next).

Definition tidyArgs (args : list string) (filter : string → bool * bool)
    : list string * list string * bool * option Error :=
  let '(tidiedArgs, (lastArgs, terminated, err)) :=
    filterArgs args (tidyArgs_closure filter) [] in
  (tidiedArgs, lastArgs, terminated, err).


(* ===================================================================== *)
(** * Statuses, panics and the monad of effects *)
(* ===================================================================== *)

(** Status codes (app.go). *)
Definition StatusBadArgs : Z := 1.
Definition StatusNotFound : Z := 2.
Definition StatusParseFailed : Z := 3.
Definition StatusValidateFailed : Z := 4.

(** What a status was made from: its cause.  The message and the
    captured stack are presentation and are left out. *)
Inductive Cause : Type :=
| CauseError (e : Error)                 (* an [error] value *)
| CauseNotFound (cmdPath : list string)  (* "not found command action: %q" *)
| CauseValue (msg : string).             (* any other recovered value *)

(** [status.Status]: a code and a cause.  A nil [*Status] is [None]. *)
Record Status : Type := NewStatus { Code : Z; cause : Cause }.

(** The code of a possibly nil [*Status]; nil means no error. *)
Definition StatusCode (stat : option Status) : Z :=
  match stat with
  | Some s => Code s
  | None => 0%Z
  end.

(** The values the code panics with. *)
Inductive PanicValue : Type :=
| PanicStatus (s : Status)   (* ThrowStatus, CheckStatus *)
| PanicError (e : Error)     (* panic(err) *)
| PanicMsg (msg : string)    (* panic("...") *)
| PanicNil                   (* nil dereference, raised by the runtime *)
| PanicIndex.                (* index out of range, raised by the runtime *)

(** The ways a call can end: it returns, it panics, the process exits,
    or it never ends.  The state reached is kept in the first three. *)
Inductive Res (St A : Type) : Type :=
| Ret (a : A) (st : St)
| Panic (v : PanicValue) (st : St)
| Exit (code : Z) (st : St)
| Diverge.
Arguments Ret {St A} a st.
Arguments Panic {St A} v st.
Arguments Exit {St A} code st.
Arguments Diverge {St A}.

Definition M (St A : Type) : Type := St → Res St A.

Definition ret {St A} (a : A) : M St A := λ st, Ret a st.

Definition bind {St A B} (m : M St A) (k : A → M St B) : M St B :=
  λ st, match m st with
        | Ret a st' => k a st'
        | Panic v st' => Panic v st'
        | Exit c st' => Exit c st'
        | Diverge => Diverge
        end.

Definition panic {St A} (v : PanicValue) : M St A := λ st, Panic v st.

Declare Scope go_scope.
Delimit Scope go_scope with go.
Notation "x <- m ;; k" := (bind m (λ x, k))
  (at level 100, m at next level, right associativity) : go_scope.
Notation "m ;; k" := (bind m (λ _, k))
  (at level 100, right associativity) : go_scope.

(* ===================================================================== *)
(** * Values and flags *)
(* ===================================================================== *)

(** Addresses of storage cells, and the heap of cells.  A cell holds the
    text its [String] method renders. *)
Definition loc : Type := positive.
Abbreviation Heap := (gmap loc string).

(** Modelled from the spec: the typed value adapters are declared outside
    the available sources.  Each "wraps a single addressable storage
    cell" and its [Set] "parses and stores, failing with a type-specific
    parse error on malformed text".  [conv] is that parse ([None]: the
    text is rejected); [IsBoolFlag] tells whether the type has an
    [IsBoolFlag] method returning true. *)
Record Value : Type := mkValue {
  cell : loc;
  conv : string → option string;
  IsBoolFlag : bool
}.

(** [value.Set(s)]: [None] is an error, the cell is then unchanged. *)
Definition Set_ (v : Value) (s : string) (h : Heap) : option Heap :=
  match conv v s with
  | Some c => Some (<[cell v := c]> h)
  | None => None
  end.

(** [value.String()]; an unset cell renders as the empty text. *)
Definition String_ (v : Value) (h : Heap) : string :=
  default "" (h !! cell v).

(** A Flag represents the state of a flag. *)
Record Flag : Type := mkFlag {
  Name : string;
  Usage : string;
  Value_ : Value;
  DefValue : string
}.

(** These constants cause FlagSet.Parse to behave as described if the
    parse fails. *)
Definition ContinueOnError : Z := 0.
Definition ExitOnError : Z := 1.
Definition PanicOnError : Z := 2.
Definition ContinueOnUndefined : Z := Z.shiftl 1 30.

(* ===================================================================== *)
(** * Package flag of the Go standard library *)
(* ===================================================================== *)

(** [FlagSet] embeds a [*flag.FlagSet] and delegates the scan of named
    flags to it.  The part of that package the code relies on is
    reproduced here: the flag table, [Var], [Lookup], [Args] and the
    scanner [Parse] / [parseOne].  The usage text it prints on an error
    goes to the output sink and is not modelled. *)
Module flag.

Record FlagSet : Type := mkFlagSet {
  name : string;
  parsed : bool;
  actual : gmap string Flag;
  formal : gmap string Flag;
  args : list string;
  errorHandling : Z
}.

Definition NewFlagSet (name : string) (errorHandling : Z) : FlagSet :=
  mkFlagSet name false ∅ ∅ [] errorHandling.

Definition Name (f : FlagSet) : string := name f.
Definition ErrorHandling (f : FlagSet) : Z := errorHandling f.
Definition Args (f : FlagSet) : list string := args f.
Definition Lookup (f : FlagSet) (name : string) : option Flag := formal f !! name.

Definition set_args (f : FlagSet) (a : list string) : FlagSet :=
  mkFlagSet (name f) (parsed f) (actual f) (formal f) a (errorHandling f).
Definition set_actual (f : FlagSet) (m : gmap string Flag) : FlagSet :=
  mkFlagSet (name f) (parsed f) m (formal f) (args f) (errorHandling f).
Definition set_formal (f : FlagSet) (m : gmap string Flag) : FlagSet :=
  mkFlagSet (name f) (parsed f) (actual f) m (args f) (errorHandling f).
Definition set_parsed (f : FlagSet) (b : bool) : FlagSet :=
  mkFlagSet (name f) b (actual f) (formal f) (args f) (errorHandling f).

(** [Var] defines a flag with the specified name and usage string; it
    panics when the name is taken. *)
Definition Var (f : FlagSet) (value : Value) (name : string) (usage : string)
    : M Heap FlagSet :=
  λ h,
  let flag := mkFlag name usage value (String_ value h) in
  match formal f !! name with
  | Some _ =>
    Panic (PanicMsg (if String.eqb (Name f) "" then "flag redefined: " +:+ name
                     else Name f +:+ " flag redefined: " +:+ name)) h
  | None => Ret (set_formal f (<[name := flag]> (formal f))) h
  end.

(** [parseOne] parses one flag. It reports whether a flag was seen. *)
Definition parseOne (f : FlagSet) (h : Heap) : bool * option Error * FlagSet * Heap :=
  match args f with
  | [] => (false, None, f, h)
  | s :: args' =>
    if (GoString.len s <? 2)%nat || negb (GoString.byte_is s 0 "-"%char) then
      (false, None, f, h)
    else
      let numMinuses := if GoString.byte_is s 1 "-"%char then 2 else 1 in
      if GoString.byte_is s 1 "-"%char && (GoString.len s =? 2)%nat then
        (* "--" terminates the flags *)
        (false, None, set_args f args', h)
      else
        let name := GoString.from numMinuses s in
        if (GoString.len name =? 0)%nat
           || GoString.byte_is name 0 "-"%char
           || GoString.byte_is name 0 "="%char then
          (false, Some (ErrBadSyntax s), f, h)
        else
          (* it's a flag. does it have an argument? *)
          let f := set_args f args' in
          let '(name, hasValue, value) :=
            match equalsAt name with
            | Some i => (GoString.upto i name, true, GoString.from (S i) name)
            | None => (name, false, "")
            end in
          match formal f !! name with
          | None =>
            if String.eqb name "help" || String.eqb name "h" then
              (false, Some ErrHelp, f, h)
            else (false, Some (ErrNotDefined name), f, h)
          | Some flag =>
            let bound h' := (true, None, set_actual f (<[name := flag]> (actual f)), h') in
            if IsBoolFlag (Value_ flag) then
              (* special case: doesn't need an arg *)
              if hasValue then
                match Set_ (Value_ flag) value h with
                | None => (false, Some (ErrInvalidBool value name), f, h)
                | Some h' => bound h'
                end
              else
                match Set_ (Value_ flag) "true" h with
                | None => (false, Some (ErrInvalidBoolFlag name), f, h)
                | Some h' => bound h'
                end
            else
              (* It must have a value, which might be the next argument. *)
              let '(hasValue, value, f) :=
                match hasValue, args f with
                | false, v :: args'' => (true, v, set_args f args'')
                | _, _ => (hasValue, value, f)
                end in
              if negb hasValue then (false, Some (ErrNeedsArg name), f, h)
              else
                match Set_ (Value_ flag) value h with
                | None => (false, Some (ErrInvalidValue value name), f, h)
                | Some h' =>
                  (true, None, set_actual f (<[name := flag]> (actual f)), h')
                end
          end
  end.

(** A flag that was seen was taken off the arguments. *)
Lemma parseOne_shrinks f h :
  (parseOne f h).1.1.1 = true →
  length (args (parseOne f h).1.2) < length (args f).
Proof.
  unfold parseOne. destruct f as [n p a fm ar eh]; simpl.
  destruct ar as [|s ar']; [discriminate|].
  repeat (case_match; simplify_eq/=; try discriminate; try lia).
Qed.

(** The [switch] on the error handling policy, run when a flag failed
    with [e]; [again] is what happens when no case applies and the
    loop goes round again.  The process exits with status 2, as in the
    loop of the same shape in FlagSet.Parse. *)
Definition failed {A} (errorHandling : Z) (e : Error) (f : A) (h : Heap)
    (again : Res Heap (A * option Error)) : Res Heap (A * option Error) :=
  if (errorHandling =? ContinueOnError)%Z then Ret (f, Some e) h
  else if (errorHandling =? ExitOnError)%Z then Exit 2 h
  else if (errorHandling =? PanicOnError)%Z then Panic (PanicError e) h
  else again.

(** The loop of [Parse].  Under a policy that is none of the three
    constants the loop goes round again: it goes on if the failed flag
    was taken off the arguments, and spins on the same token
    otherwise. *)
Equations? parseLoop (f : FlagSet) (h : Heap)
    : Res Heap (FlagSet * option Error) by wf (length (args f)) lt :=
  parseLoop f h with inspect (parseOne f h) := {
    | exist _ (true, _, f', h') Hp := parseLoop f' h';
    | exist _ (false, None, f', h') Hp := Ret (f', None) h';
    | exist _ (false, Some e, f', h') Hp
        with inspect (length (args f') <? length (args f))%nat := {
      | exist _ true Hs := failed (errorHandling f) e f' h' (parseLoop f' h');
      | exist _ false Hs := failed (errorHandling f) e f' h' Diverge } }.
Proof.
  - pose proof (parseOne_shrinks f h) as H. rewrite Hp in H. by apply H.
  - by apply Nat.ltb_lt.
Qed.

(** [Parse] parses flag definitions from the argument list. *)
Definition Parse (f : FlagSet) (arguments : list string)
    : M Heap (FlagSet * option Error) :=
  parseLoop (set_args (set_parsed f true) arguments).

End flag.

(* ===================================================================== *)
(** * FlagSet: named flags plus positional (non-flag) entries *)
(* ===================================================================== *)

(** A FlagSet represents a set of defined flags. *)
Record FlagSet : Type := mkFlagSet {
  base : flag.FlagSet;                 (* the embedded *flag.FlagSet *)
  errorHandling : Z;
  isContinueOnUndefined : bool;
  terminated : bool;
  nonActual : gmap Z Flag;
  nonFormal : gmap Z Flag
}.

Definition set_base (f : FlagSet) (b : flag.FlagSet) : FlagSet :=
  mkFlagSet b (errorHandling f) (isContinueOnUndefined f) (terminated f)
            (nonActual f) (nonFormal f).
Definition set_terminated (f : FlagSet) (t : bool) : FlagSet :=
  mkFlagSet (base f) (errorHandling f) (isContinueOnUndefined f) t
            (nonActual f) (nonFormal f).
Definition set_nonActual (f : FlagSet) (m : gmap Z Flag) : FlagSet :=
  mkFlagSet (base f) (errorHandling f) (isContinueOnUndefined f) (terminated f)
            m (nonFormal f).
Definition set_nonFormal (f : FlagSet) (m : gmap Z Flag) : FlagSet :=
  mkFlagSet (base f) (errorHandling f) (isContinueOnUndefined f) (terminated f)
            (nonActual f) m.

(** [eh &^ bit], and whether that changed [eh]. *)
Definition cleanBit (eh bit : Z) : Z * bool :=
  let eh2 := Z.ldiff eh bit in
  (eh2, negb (eh2 =? eh)%Z).

(** NewFlagSet returns a new, empty flag set with the specified name and
    error handling property ([Init] on a zero FlagSet). *)
Definition NewFlagSet (name : string) (errorHandling : Z) : FlagSet :=
  let '(eh, isContinueOnUndefined) := cleanBit errorHandling ContinueOnUndefined in
  mkFlagSet (flag.NewFlagSet name eh) errorHandling isContinueOnUndefined false ∅ ∅.

(** ErrorHandling returns the error handling behavior of the flag set. *)
Definition ErrorHandling (f : FlagSet) : Z := errorHandling f.

(** [ameda.NewStringSlice(args).IndexOf(s)], as the position of the first
    occurrence, if any. *)
Fixpoint IndexOf (args : list string) (s : string) : option nat :=
  match args with
  | [] => None
  | a :: args' => if String.eqb a s then Some 0
                  else S <$> IndexOf args' s
  end.

(** SubArgs returns arguments of the next subcommand. *)
Definition SubArgs (f : FlagSet) : list string :=
  if terminated f then flag.Args (base f)
  else
    let args := flag.Args (base f) in
    match IndexOf args "--" with
    | Some idx => drop (S idx) args
    | None => []
    end.

(** Modelled from the spec: SplitArgs is called by Parse and by the
    router but its body is not part of the available sources.  The spec
    has Parse "strip a leading program-name token if present" and the
    router "consume the next bare token ... as a subcommand name", where
    "bare tokens" are those "not starting with [-]": the first token is
    split off when it is a bare, non-empty token, and nothing is split
    off otherwise. *)
Definition SplitArgs (arguments : list string) : string * list string :=
  match arguments with
  | s :: rest =>
    if (0 <? GoString.len s)%nat && negb (GoString.byte_is s 0 "-"%char)
    then (s, rest)
    else ("", arguments)
  | [] => ("", arguments)
  end.

(** The pre-scan of Parse under [isContinueOnUndefined]: the arguments
    are tidied with the named flags that are defined as the wanted ones,
    and reassembled.  An error of the scan ends Parse. *)
Definition Parse_tidy (f : FlagSet) (arguments : list string)
    : Error + (list string * FlagSet) :=
  if isContinueOnUndefined f then
    let '(flagArgs, nonFlagArgs, terminated, err) :=
      tidyArgs arguments
        (λ name, (bool_decide (is_Some (flag.Lookup (base f) name)), true)) in
    match err with
    | Some e => inl e
    | None =>
      let arguments := flagArgs ++ (if terminated then ["--"] else []) ++ nonFlagArgs in
      inr (arguments, set_terminated f terminated)
    end
  else inr (arguments, f).

(** parseOneNonFlag parses one non-flag. It reports whether a non-flag
    was seen. *)
Definition parseOneNonFlag (f : FlagSet) (index : Z) (value : string) (h : Heap)
    : bool * option Error * FlagSet * Heap :=
  if String.eqb value "--" then
    (false, Some (ErrNonFlagNotProvided index), f, h)
  else
    match nonFormal f !! index with
    | None => (false, None, f, h)
    | Some flag =>
      match Set_ (Value_ flag) value h with
      | None => (false, Some (ErrInvalidNonFlag value index), f, h)
      | Some h' => (true, None, set_nonActual f (<[index := flag]> (nonActual f)), h')
      end
    end.

(** The loop [for k, v := range args] of Parse, from index [k] on. *)
Fixpoint parseNonFlags (f : FlagSet) (k : Z) (args : list string)
    : M Heap (FlagSet * option Error) :=
  match args with
  | [] => ret (f, None)
  | v :: args' => λ h,
    match parseOneNonFlag f k v h with
    | (true, _, f', h') => parseNonFlags f' (k + 1) args' h'
    | (false, None, f', h') => Ret (f', None) h'
    | (false, Some e, f', h') =>
      flag.failed (flag.ErrorHandling (base f')) e f' h'
                  (parseNonFlags f' (k + 1) args' h')
    end
  end.

(** Parse parses flag definitions from the argument list. *)
Definition Parse (f : FlagSet) (arguments : list string)
    : M Heap (FlagSet * option Error) :=
  let '(_, arguments) := SplitArgs arguments in
  match Parse_tidy f arguments with
  | inl e => ret (f, Some e)
  | inr (arguments, f) =>
    (r <- flag.Parse (base f) arguments ;;
     let '(b, err) := r in
     let f := set_base f b in
     match err with
     | Some e => ret (f, Some e)
     | None =>
       if terminated f then ret (f, None)
       else
         let args := flag.Args (base f) in
         let positional := parseNonFlags f 0 args in
         if isContinueOnUndefined f then positional
         else if (length args =? 0)%nat then ret (f, None)
         else
           let i := (Z.of_nat (length arguments) - Z.of_nat (length args))%Z in
           let i := if (0 <? i)%Z then (i - 1)%Z else i in
           match (if (i <? 0)%Z then None else arguments !! Z.to_nat i) with
           | None => panic PanicIndex
           | Some a =>
             if String.eqb a "--" then ret (set_terminated f true, None)
             else positional
           end
     end)%go
  end.

(** [strconv.Itoa] *)
Definition Itoa (i : Z) : string := NilZero.string_of_int (Z.to_int i).

Section NonFlags.

(** The prefix of the names given to non-flags; a constant of the
    package declared outside the available sources. *)
Variable tagKeyNonFlag : string.

Definition getNonFlagName (index : Z) : string :=
  tagKeyNonFlag +:+ Itoa index.

(** NonVar defines a non-flag with the specified index and usage
    string. *)
Definition NonVar (f : FlagSet) (value : Value) (index : Z) (usage : string)
    : M Heap FlagSet :=
  λ h,
  if (index <? 0)%Z then Panic (PanicMsg "@index is not a valid slice index") h
  else
    let name := getNonFlagName index in
    (* Remember the default value as a string; it won't change. *)
    let flag := mkFlag name usage value (String_ value h) in
    match nonFormal f !! index with
    | Some _ =>
      let msg :=
        if String.eqb (flag.Name (base f)) "" then "flag redefined: " +:+ name
        else flag.Name (base f) +:+ " flag redefined: " +:+ name in
      Panic (PanicMsg msg) h
    | None => Ret (set_nonFormal f (<[index := flag]> (nonFormal f))) h
    end.

End NonFlags.

(* ===================================================================== *)
(** * Option structs and their binding to a flag set *)
(* ===================================================================== *)

(** The tag of a struct field: a flag name, or the index of a
    non-flag. *)
Inductive Tag : Type :=
| TagFlag (name : string)
| TagNonFlag (index : Z).

(** A tagged field of an option struct: its tag and usage, the parse of
    its type, whether the type is boolean, the default read from the
    tag, and the text of the zero value of the type. *)
Record Field : Type := mkField {
  fieldTag : Tag;
  fieldUsage : string;
  fieldConv : string → option string;
  fieldBool : bool;
  fieldDef : string;
  fieldZero : string
}.

(** A pointer to an option struct: its tagged fields, each with the
    address of its cell. *)
Definition Object : Type := list (Field * loc).

(** [reflect.New(elemType)]: a new struct, every field in a cell that
    was not in use, holding the zero value. *)
Fixpoint New (elemType : list Field) (h : Heap) : Object * Heap :=
  match elemType with
  | [] => ([], h)
  | fd :: elemType' =>
    let l := fresh (dom h) in
    let '(p, h') := New elemType' (<[l := fieldZero fd]> h) in
    ((fd, l) :: p, h')
  end.

Definition store (l : loc) (s : string) : M Heap unit :=
  λ h, Ret () (<[l := s]> h).

Section StructVars.

Variable tagKeyNonFlag : string.

(** Modelled from the spec: varFromStruct, the struct-tag binder that
    StructVars calls on the struct its argument points to, is not part
    of the available sources.  The binder "walks struct fields once
    ... and calls the named/positional registration primitive for each
    tagged field"; the flag is bound to the field, which takes the
    default of the tag.  The error StructVars returns for an argument
    that is not a pointer to a struct cannot arise on an [Object]. *)
Fixpoint StructVars (f : FlagSet) (p : Object) : M Heap FlagSet :=
  match p with
  | [] => ret f
  | (fd, l) :: p' =>
    let value := mkValue l (fieldConv fd) (fieldBool fd) in
    (store l (fieldDef fd) ;;
     f <- match fieldTag fd with
          | TagFlag name =>
            (b <- flag.Var (base f) value name (fieldUsage fd) ;;
             ret (set_base f b))
          | TagNonFlag index =>
            NonVar tagKeyNonFlag f value index (fieldUsage fd)
          end ;;
     StructVars f p')%go
  end.

End StructVars.

(* ===================================================================== *)
(** * App, Command and their handlers *)
(* ===================================================================== *)

(** What a handler can touch: the heap of cells, and the text printed so
    far. *)
Record World : Type := mkWorld { heap : Heap; out : list string }.

(** Code on the heap, run in the world. *)
Definition liftHeap {A} (m : M Heap A) : M World A :=
  λ w, match m (heap w) with
       | Ret a h => Ret a (mkWorld h (out w))
       | Panic v h => Panic v (mkWorld h (out w))
       | Exit c h => Exit c (mkWorld h (out w))
       | Diverge => Diverge
       end.

(** Context context of an action execution (the embedded
    [context.Context] is carried along untouched and left out). *)
Record Context : Type := mkContext { args : list string; cmdPath : list string }.

(** ActionFunc action function *)
Definition ActionFunc : Type := Context → M World unit.

(** FilterFunc filter function *)
Definition FilterFunc : Type := Context → ActionFunc → M World unit.

(** ValidateFunc validator for struct flag; it reads the struct. *)
Definition ValidateFunc : Type := Object → Heap → option Error.

(** The values of interface type [Filter], by the kind of their type:
    a function, a struct (or a pointer to one) with its [Filter] method,
    or a value of any other kind with its method. *)
Inductive Filter : Type :=
| FilterOfFunc (fn : FilterFunc)
| FilterOfStruct (elemType : list Field) (method : Object → FilterFunc)
| FilterOfOther (method : FilterFunc).

(** The values of interface type [Action], likewise. *)
Inductive Action : Type :=
| ActionOfFunc (fn : ActionFunc)
| ActionOfStruct (elemType : list Field) (method : Object → ActionFunc)
| ActionOfOther (method : ActionFunc).

(** The factories: the type of the struct and its method.  [DeepCopy]
    hands out a new object of the type; a copier of the user that hands
    out an object shared between calls is not represented. *)
Record FilterCopier : Type := mkFilterCopier {
  filterElemType : list Field;
  filterMethod : Object → FilterFunc
}.

Record ActionCopier : Type := mkActionCopier {
  actionElemType : list Field;
  actionMethod : Object → ActionFunc
}.

Definition DeepCopy (elemType : list Field) : M Heap Object :=
  λ h, let '(p, h') := New elemType h in Ret p h'.

Module filterObject.
Record t : Type := mk {
  flagSet : FlagSet;
  options : gmap string Flag;
  factory : option FilterCopier;
  filterFunc : option FilterFunc
}.
End filterObject.

Module actionObject.
Record t : Type := mk {
  flagSet : FlagSet;
  options : gmap string Flag;
  actionFactory : option ActionCopier;
  actionFunc : option ActionFunc
}.
End actionObject.

(** Command a command object.  [parent] is the back-reference; only the
    name of the parent is ever read through it.  The usage texts are
    left out. *)
#[warnings="-register-all"]
Inductive Command : Type := mkCommand {
  parent : option string;
  cmdName : string;
  description : string;
  filters : list filterObject.t;
  action : option actionObject.t;
  subcommands : gmap string Command
}.

Definition set_filters (c : Command) (fs : list filterObject.t) : Command :=
  mkCommand (parent c) (cmdName c) (description c) fs (action c) (subcommands c).
Definition set_action (c : Command) (a : option actionObject.t) : Command :=
  mkCommand (parent c) (cmdName c) (description c) (filters c) a (subcommands c).
Definition set_subcommands (c : Command) (m : gmap string Command) : Command :=
  mkCommand (parent c) (cmdName c) (description c) (filters c) (action c) m.
Definition set_cmdName (c : Command) (n : string) : Command :=
  mkCommand (parent c) n (description c) (filters c) (action c) (subcommands c).

(** App is a application structure: the root command, the handler for
    commands that are not found and the validator.  Title, version,
    authors and the like only feed the usage text and are left out. *)
Record App : Type := mkApp {
  Command_ : Command;
  notFound : option ActionFunc;
  validator : option ValidateFunc
}.

(** CmdName returns the command name of the command. *)
Definition CmdName (c : Command) : string := cmdName c.

Definition newCommand (parent : option string) (cmdName description : string) : Command :=
  mkCommand parent cmdName description [] None ∅.

(** [strings.TrimLeft(s, "-")] *)
Fixpoint TrimLeftDash (s : string) : string :=
  match s with
  | String c s' => if Ascii.eqb c "-"%char then TrimLeftDash s' else s
  | EmptyString => s
  end.

(** NewApp creates a new application; [prog] is [filepath.Base(os.Args[0])],
    the command name [init] sets. *)
Definition NewApp (prog : string) : App :=
  mkApp (set_cmdName (newCommand None "" "") (TrimLeftDash prog)) None None.

(** SetNotFound sets the action when the correct command cannot be
    found. *)
Definition SetNotFound (a : App) (fn : option ActionFunc) : App :=
  mkApp (Command_ a) fn (validator a).

(** SetValidator sets the validation function. *)
Definition SetValidator (a : App) (v : option ValidateFunc) : App :=
  mkApp (Command_ a) (notFound a) v.

(** [path]: the loop appends names until it stands on a command without
    parent, and never moves to the parent: on a command that has a
    parent it does not end. *)
Definition path (c : Command) : M World (list string) :=
  match parent c with
  | None => ret (reverse [cmdName c])
  | Some _ => λ _, Diverge
  end.

(** [strings.Join(elems, " ")] *)
Fixpoint Join (elems : list string) : string :=
  match elems with
  | [] => ""
  | [s] => s
  | s :: elems' => s +:+ " " +:+ Join elems'
  end.

Definition pathString (c : Command) : M World string :=
  (p <- path c ;; ret (Join p))%go.

(** ThrowStatus creates a status with stack, and panic. *)
Definition ThrowStatus {A} (code : Z) (cause : Cause) : M World A :=
  panic (PanicStatus (NewStatus code cause)).

(** CheckStatus if err!=nil, create a status with stack, and panic. *)
Definition CheckStatus (err : option Error) (code : Z) : M World unit :=
  match err with
  | None => ret ()
  | Some e => panic (PanicStatus (NewStatus code (CauseError e)))
  end.

(* ===================================================================== *)
(** * Routing and execution *)
(* ===================================================================== *)

(** [status.Catch]: recover, and turn what was recovered into a status.
    A recovered [Status] is the result as it is; any other value is
    wrapped in a status with the code [UnknownError] of the status
    package.  Exiting and spinning are not panics and are not caught. *)
Definition recovered (UnknownError : Z) (v : PanicValue) : Status :=
  match v with
  | PanicStatus s => s
  | PanicError e => NewStatus UnknownError (CauseError e)
  | PanicMsg msg => NewStatus UnknownError (CauseValue msg)
  | PanicNil => NewStatus UnknownError (CauseValue "nil pointer dereference")
  | PanicIndex => NewStatus UnknownError (CauseValue "index out of range")
  end.

Definition Catch {St} (UnknownError : Z) (body : M St (option Status))
    : M St (option Status) :=
  λ st, match body st with
        | Ret stat st' => Ret stat st'
        | Panic v st' => Ret (Some (recovered UnknownError v)) st'
        | Exit c st' => Exit c st'
        | Diverge => Diverge
        end.

Section Routing.

(** Declared outside the available sources: the prefix of non-flag
    names, the code [status.Catch] gives to a recovered value that is
    not a status, and the method [NextArgs] of FlagSet. *)
Variable tagKeyNonFlag : string.
Variable UnknownError : Z.
Variable NextArgs : FlagSet → list string.

(** The loop of [newFilters] over [c.filters], with [args] as it
    stands; [arguments] is what every struct filter parses. *)
Fixpoint newFilters_range (a : App) (cmdName : string) (arguments : list string)
    (filters : list filterObject.t) (args : list string)
    : M World (list FilterFunc * list string) :=
  match filters with
  | [] => ret ([], args)
  | filter :: filters' =>
    match filterObject.filterFunc filter with
    | Some fn =>
      (r <- newFilters_range a cmdName arguments filters' args ;;
       ret (fn :: r.1, r.2))%go
    | None =>
      match filterObject.factory filter with
      | None => panic PanicNil
      | Some factory =>
        (let flagSet :=
           NewFlagSet cmdName (ErrorHandling (filterObject.flagSet filter)) in
         newObj <- liftHeap (DeepCopy (filterElemType factory)) ;;
         flagSet <- liftHeap (StructVars tagKeyNonFlag flagSet newObj) ;;
         parsed <- liftHeap (Parse flagSet arguments) ;;
         let flagSet := parsed.1 in
         CheckStatus parsed.2 StatusParseFailed ;;
         err <- (λ w, Ret (match validator a with
                           | Some validate => validate newObj (heap w)
                           | None => None
                           end) w) ;;
         CheckStatus err StatusValidateFailed ;;
         let nargs := NextArgs flagSet in
         let args := if (length nargs <? length args)%nat then nargs else args in
         r <- newFilters_range a cmdName arguments filters' args ;;
         ret (filterMethod factory newObj :: r.1, r.2))%go
      end
    end
  end.

Definition newFilters (a : App) (c : Command) (arguments : list string)
    : M World (list FilterFunc * list string) :=
  newFilters_range a (cmdName c) arguments (filters c) arguments.

Definition newAction (a : App) (c : Command) (cmdline : list string)
    : M World (option ActionFunc * list string * bool) :=
  match action c with
  | None => ret (None, cmdline, false)
  | Some act =>
    let cmdName := flag.Name (base (actionObject.flagSet act)) in
    match actionObject.actionFunc act with
    | Some fn => ret (Some fn, (SplitArgs cmdline).2, true)
    | None =>
      match actionObject.actionFactory act with
      | None => panic PanicNil
      | Some factory =>
        (let flagSet :=
           NewFlagSet cmdName (ErrorHandling (actionObject.flagSet act)) in
         newObj <- liftHeap (DeepCopy (actionElemType factory)) ;;
         flagSet <- liftHeap (StructVars tagKeyNonFlag flagSet newObj) ;;
         parsed <- liftHeap (Parse flagSet cmdline) ;;
         let flagSet := parsed.1 in
         CheckStatus parsed.2 StatusParseFailed ;;
         err <- (λ w, Ret (match validator a with
                           | Some validate => validate newObj (heap w)
                           | None => None
                           end) w) ;;
         CheckStatus err StatusValidateFailed ;;
         ret (Some (actionMethod factory newObj), NextArgs flagSet, true))%go
      end
    end
  end.

(** The four results of [findFiltersAndAction]. *)
Definition Found : Type :=
  list FilterFunc * option ActionFunc * list string * bool.

(** [findFiltersAndAction]; the app [a] is [c.app].  A nil [Action] is
    [None].  The calls on the subcommands are set up as a map before
    the name is looked up, so that the recursion is on the children of
    [c]; [findFiltersAndAction_eq] below states the body with the
    lookup in [c.subcommands] as the source has it. *)
Fixpoint findFiltersAndAction (a : App) (c : Command) (cmdPath arguments : list string)
    {struct c} : M World Found :=
  let onSubcommand : gmap string (list string → list string → M World Found) :=
    (λ subCmd, findFiltersAndAction a subCmd) <$> subcommands c in
  (fa <- newFilters a c arguments ;;
   let '(filters, arguments) := fa in
   r <- newAction a c arguments ;;
   let '(action, arguments, found) := r in
   if found then ret (filters, action, cmdPath, true)
   else
     let '(subCmdName, arguments) := SplitArgs arguments in
     let cmdPath :=
       if negb (String.eqb subCmdName "") then cmdPath ++ [subCmdName] else cmdPath in
     match onSubcommand !! subCmdName with
     | None =>
       match notFound a with
       | Some fn => ret ([], Some fn, cmdPath, false)
       | None => ThrowStatus StatusNotFound (CauseNotFound cmdPath)
       end
     | Some findInSubCmd =>
       r <- (findInSubCmd cmdPath arguments : M World Found) ;;
       let '(subFilters, action, cmdPath, found) := r in
       if found then ret (filters ++ subFilters, action, cmdPath, true)
       else ret ([], action, cmdPath, false)
     end)%go.

(** The loop of [route]: [for i := len(filters) - 1; i >= 0; i--],
    with [i + 1] in [n]. *)
Fixpoint wrap (n : nat) (filters : list FilterFunc) (actionFunc : ActionFunc)
    : M World ActionFunc :=
  match n with
  | O => ret actionFunc
  | S i =>
    match filters !! i with
    | None => panic PanicIndex
    | Some filter =>
      let nextHandle := actionFunc in
      wrap i filters (λ c, filter c nextHandle)
    end
  end.

Definition route (a : App) (arguments : list string)
    : M World (ActionFunc * Context) :=
  (r <- findFiltersAndAction a (Command_ a) [cmdName (Command_ a)] arguments ;;
   let '(filters, action, cmdPath, found) := r in
   match action with
   | None => panic PanicNil
   | Some actionFunc =>
     actionFunc <- (if found then wrap (length filters) filters actionFunc
                    else ret actionFunc) ;;
     ret (actionFunc, mkContext arguments cmdPath)
   end)%go.

(** Exec executes application based on the arguments. *)
Definition Exec (a : App) (arguments : list string) : M World (option Status) :=
  Catch UnknownError
    (r <- route a arguments ;;
     let '(handle, ctxObj) := r in
     handle ctxObj ;;
     ret None)%go.

(** ** Registration *)

(** [%q] of a text without characters to escape. *)
Definition quoted (s : string) : string :=
  String (Ascii.ascii_of_nat 34) s +:+ String (Ascii.ascii_of_nat 34) "".

(** AddFilter adds the filter action. *)
Definition AddFilter (c : Command) (filter : Filter) : M World Command :=
  (let flagSet := NewFlagSet (cmdName c) (Z.lor ContinueOnError ContinueOnUndefined) in
   obj <- match filter with
          | FilterOfStruct elemType method =>
            let factory := mkFilterCopier elemType method in
            p <- liftHeap (DeepCopy elemType) ;;
            flagSet <- liftHeap (StructVars tagKeyNonFlag flagSet p) ;;
            ret (filterObject.mk flagSet (flag.formal (base flagSet))
                                 (Some factory) None)
          | FilterOfFunc fn =>
            ret (filterObject.mk flagSet ∅ None (Some fn))
          | FilterOfOther _ =>
            ret (filterObject.mk flagSet ∅ None None)
          end ;;
   ret (set_filters c (filters c ++ [obj])))%go.

(** The loop [for _, filter := range filters { subCmd.AddFilter(filter) }]. *)
Fixpoint AddFilters (c : Command) (filters : list Filter) : M World Command :=
  match filters with
  | [] => ret c
  | filter :: filters' => (c <- AddFilter c filter ;; AddFilters c filters')%go
  end.

(** AddSubcommand adds a subcommand.  The result is [c] after the
    call; the pointer returned is the entry [cmdName] of its
    subcommands. *)
Definition AddSubcommand (c : Command) (cmdName description : string)
    (filters : list Filter) : M World Command :=
  match action c with
  | Some _ =>
    (p <- pathString c ;;
     panic (PanicMsg ("action has been set, no subcommand can be set: " +:+ quoted p)))%go
  | None =>
    if String.eqb cmdName "" then panic (PanicMsg "command name is empty")
    else
      match subcommands c !! cmdName with
      | Some _ => panic (PanicMsg ("action named " +:+ cmdName +:+ " already exists"))
      | None =>
        (let subCmd := newCommand (Some (CmdName c)) cmdName description in
         subCmd <- AddFilters subCmd filters ;;
         ret (set_subcommands c (<[cmdName := subCmd]> (subcommands c))))%go
      end
  end.

(** SetAction sets the action of the command. *)
Definition SetAction (c : Command) (action : Action) : M World Command :=
  if (0 <? size (subcommands c))%nat then
    (p <- pathString c ;;
     panic (PanicMsg ("some subcommands have been set, no action can be set: "
                      +:+ quoted p)))%go
  else
    (let flagSet := NewFlagSet (cmdName c) (Z.lor ContinueOnError ContinueOnUndefined) in
     obj <- match action with
            | ActionOfStruct elemType method =>
              let factory := mkActionCopier elemType method in
              p <- liftHeap (DeepCopy elemType) ;;
              flagSet <- liftHeap (StructVars tagKeyNonFlag flagSet p) ;;
              ret (actionObject.mk flagSet (flag.formal (base flagSet))
                                   (Some factory) None)
            | ActionOfFunc fn =>
              ret (actionObject.mk flagSet ∅ None (Some fn))
            | ActionOfOther _ =>
              ret (actionObject.mk flagSet ∅ None None)
            end ;;
     ret (set_action c (Some obj)))%go.

(** AddSubaction adds a subcommand and its action. *)
Definition AddSubaction (c : Command) (cmdName description : string)
    (action : Action) (filters : list Filter) : M World Command :=
  (c <- AddSubcommand c cmdName description filters ;;
   match subcommands c !! cmdName with
   | None => panic PanicNil
   | Some subCmd =>
     subCmd <- SetAction subCmd action ;;
     ret (set_subcommands c (<[cmdName := subCmd]> (subcommands c)))
   end)%go.

(** A [*Command] held by the caller is a place in the tree of the
    root: the names on the way down.  [at_place] runs a method on the
    command at that place and puts the result back. *)
Fixpoint at_place (place : list string) (method : Command → M World Command)
    (c : Command) : M World Command :=
  match place with
  | [] => method c
  | n :: place' =>
    match subcommands c !! n with
    | None => panic PanicNil
    | Some subCmd =>
      (subCmd <- at_place place' method subCmd ;;
       ret (set_subcommands c (<[n := subCmd]> (subcommands c))))%go
    end
  end.

End Routing.

(* ===================================================================== *)
(** * The vocabulary of the properties *)
(* ===================================================================== *)

(** ** Tokens *)

(** [s] holds the byte [c]. *)
Definition has_byte (c : ascii) (s : string) : Prop :=
  ∃ pre post, s = pre +:+ String c post.

(** The names of flags: not empty, no dash in front, no equals sign. *)
Definition validName (name : string) : Prop :=
  name ≠ "" ∧ (∀ t, name ≠ String "-" t) ∧ ¬ has_byte "=" name.

(** A token that does not start with a dash. *)
Definition dashless (v : string) : Prop := ∀ t, v ≠ String "-" t.

(** The tokens the scanner refuses: a dash, or two, followed by an
    equals sign or by one more dash. *)
Definition malformed (s : string) : Prop :=
  ∃ t, s = "-=" +:+ t ∨ s = "--=" +:+ t ∨ s = "---" +:+ t.

(** The first token, read the way the scanner reads it: a token that
    is no flag, the terminator, or dashes and a name that is not
    empty. *)
Inductive Shape : string → Type :=
| Shape_bare s :
    (GoString.len s <? 2)%nat || negb (GoString.byte_is s 0 "-"%char) = true →
    Shape s
| Shape_terminator : Shape "--"
| Shape_named (two : bool) c t :
    (two = false → c ≠ "-"%char) →
    Shape ((if two then "--" else "-") +:+ String c t).

(** The tokens a flag is written back as: [-name], then its value. *)
Definition rendered (nv : string * option string) : list string :=
  match nv.2 with
  | None => ["-" +:+ nv.1]
  | Some value => ["-" +:+ nv.1; value]
  end.

(** [Scanned tokens flags follow]: the tokens, which [follow] comes
    after, are a run of flags, each written after one dash or two.  A
    flag has the value written after its [=]; or else the next token
    as its value, when that token does not start with a dash; or else
    no value, and then no such token comes next. *)
Inductive Scanned
    : list string → list (string * option string) → list string → Prop :=
| Scanned_nil follow : Scanned [] [] follow
| Scanned_flag_equals (two : bool) name value tokens flags follow :
    validName name →
    Scanned tokens flags follow →
    Scanned ((((if two then "--" else "-") +:+ name) +:+ "=" +:+ value) :: tokens)
            ((name, Some value) :: flags) follow
| Scanned_flag_value (two : bool) name v tokens flags follow :
    validName name →
    dashless v →
    Scanned tokens flags follow →
    Scanned (((if two then "--" else "-") +:+ name) :: v :: tokens)
            ((name, Some v) :: flags) follow
| Scanned_flag_alone (two : bool) name tokens flags follow :
    validName name →
    (∀ v rest, tokens ++ follow = v :: rest → ¬ dashless v) →
    Scanned tokens flags follow →
    Scanned (((if two then "--" else "-") +:+ name) :: tokens)
            ((name, None) :: flags) follow.

(** A list the scan does not enter: it is empty, or starts with a token
    without leading dash or with a single dash. *)
Definition unflagged (follow : list string) : Prop :=
  match follow with
  | [] => True
  | s :: _ => dashless s ∨ s = "-"
  end.

(** The scanned flags whose name is defined in [f], written back. *)
Definition recognized (f : FlagSet) (flags : list (string * option string))
    : list string :=
  flat_map rendered
    (List.filter (λ nv, bool_decide (is_Some (flag.Lookup (base f) nv.1))) flags).

(** ** Walks of the router *)

(** The handler the filters and the action make when each filter is
    handed the rest as its [next]: the first filter is the outermost. *)
Definition onion (filters : list FilterFunc) (actionFunc : ActionFunc) : ActionFunc :=
  fold_right (λ filter next, λ c, filter c next) actionFunc filters.

(** The command path after a token was taken as a subcommand name. *)
Definition extended (cmdPath : list string) (subCmdName : string) : list string :=
  if negb (String.eqb subCmdName "") then cmdPath ++ [subCmdName] else cmdPath.

(** Where a walk down the tree of commands ends: on a command that has
    an action, with the filters made on the way, root first; or on a
    command without action that has no subcommand of the next name. *)
Inductive Outcome : Type :=
| Reached (filters : list FilterFunc) (action : ActionFunc) (cmdPath : list string)
| Missed (cmdPath : list string).

Definition under (filters : list FilterFunc) (o : Outcome) : Outcome :=
  match o with
  | Reached subFilters action cmdPath => Reached (filters ++ subFilters) action cmdPath
  | Missed cmdPath => Missed cmdPath
  end.

(** What [findFiltersAndAction] returns at the end of a walk. *)
Definition found_as (a : App) (o : Outcome) (w : World) : Res World Found :=
  match o with
  | Reached filters action cmdPath => Ret (filters, Some action, cmdPath, true) w
  | Missed cmdPath =>
    match notFound a with
    | Some fn => Ret ([], Some fn, cmdPath, false) w
    | None => Panic (PanicStatus (NewStatus StatusNotFound (CauseNotFound cmdPath))) w
    end
  end.

(** The command reached from [c] by the names of subcommands, one
    after the other. *)
Fixpoint descend (c : Command) (names : list string) : option Command :=
  match names with
  | [] => Some c
  | n :: names' =>
    match subcommands c !! n with
    | None => None
    | Some subCmd => descend subCmd names'
    end
  end.




Section Walks.

Variable tagKeyNonFlag : string.
Variable NextArgs : FlagSet → list string.

(** The walk of the router from command [c], world [w] and
    [arguments], to its outcome and the world it leaves. *)
Inductive Walk (a : App)
    : Command → list string → list string → World → Outcome → World → Prop :=
| Walk_action c cmdPath arguments w filters args1 w1 action args2 w2 :
    newFilters tagKeyNonFlag NextArgs a c arguments w = Ret (filters, args1) w1 →
    newAction tagKeyNonFlag NextArgs a c args1 w1 = Ret (Some action, args2, true) w2 →
    Walk a c cmdPath arguments w (Reached filters action cmdPath) w2
| Walk_missing c cmdPath arguments w filters args1 w1 action args2 w2 subCmdName rest :
    newFilters tagKeyNonFlag NextArgs a c arguments w = Ret (filters, args1) w1 →
    newAction tagKeyNonFlag NextArgs a c args1 w1 = Ret (action, args2, false) w2 →
    SplitArgs args2 = (subCmdName, rest) →
    subcommands c !! subCmdName = None →
    Walk a c cmdPath arguments w (Missed (extended cmdPath subCmdName)) w2
| Walk_down c cmdPath arguments w filters args1 w1 action args2 w2
            subCmdName rest subCmd o w3 :
    newFilters tagKeyNonFlag NextArgs a c arguments w = Ret (filters, args1) w1 →
    newAction tagKeyNonFlag NextArgs a c args1 w1 = Ret (action, args2, false) w2 →
    SplitArgs args2 = (subCmdName, rest) →
    subcommands c !! subCmdName = Some subCmd →
    Walk a subCmd (extended cmdPath subCmdName) rest w2 o w3 →
    Walk a c cmdPath arguments w (under filters o) w3.

End Walks.

(** ** Registration *)

(** A command does not have an action and subcommands at once. *)
Definition exclusive (c : Command) : Prop :=
  action c = None ∨ subcommands c = ∅.

(** ... and neither does any command below it. *)
Inductive Exclusive : Command → Prop :=
| Exclusive_intro c :
    exclusive c →
    (∀ n subCmd, subcommands c !! n = Some subCmd → Exclusive subCmd) →
    Exclusive c.

Section Registrations.

Variable tagKeyNonFlag : string.

(** The registration calls on the command at some place of the tree. *)
Inductive Registration : Type :=
| CallAddSubcommand (cmdName description : string) (filters : list Filter)
| CallAddFilter (filter : Filter)
| CallSetAction (action : Action)
| CallAddSubaction (cmdName description : string) (action : Action)
                   (filters : list Filter).

Definition call (r : Registration) (c : Command) : M World Command :=
  match r with
  | CallAddSubcommand cmdName description filters =>
    AddSubcommand tagKeyNonFlag c cmdName description filters
  | CallAddFilter filter => AddFilter tagKeyNonFlag c filter
  | CallSetAction action => SetAction tagKeyNonFlag c action
  | CallAddSubaction cmdName description action filters =>
    AddSubaction tagKeyNonFlag c cmdName description action filters
  end.

(** The trees of commands that registration calls which return can
    build from the root of a new app. *)
Inductive Reachable : Command → Prop :=
| Reachable_NewApp prog : Reachable (Command_ (NewApp prog))
| Reachable_call root place r w root' w' :
    Reachable root →
    at_place place (call r) root w = Ret root' w' →
    Reachable root'.

End Registrations.

(** ** Cells *)

(** The state a call ends in, when it ends. *)
Definition final {St A} (r : Res St A) : option St :=
  match r with
  | Ret _ st | Panic _ st | Exit _ st => Some st
  | Diverge => None
  end.

(** Every cell in use in [h] holds in [h'] what it held in [h]. *)
Definition preserved (h h' : Heap) : Prop :=
  ∀ l, is_Some (h !! l) → h' !! l = h !! l.

(** The cells the flags and non-flags of a flag set are bound to. *)
Definition bound (f : FlagSet) (l : loc) : Prop :=
  (∃ n fl, flag.formal (base f) !! n = Some fl ∧ cell (Value_ fl) = l)
  ∨ (∃ i fl, nonFormal f !! i = Some fl ∧ cell (Value_ fl) = l).

(** The cells of the fields of an object. *)
Definition cells (p : Object) : list loc := p.*2.

(** A scan that started on table [fm] and heap [h] kept the table and
    the cell [l]. *)
Definition scan_kept (l : loc) (fm : gmap string Flag) (h : Heap)
    (r : Res Heap (flag.FlagSet * option Error)) : Prop :=
  match r with
  | Ret (b', _) h' => flag.formal b' = fm ∧ h' !! l = h !! l
  | Panic _ h' | Exit _ h' => h' !! l = h !! l
  | Diverge => True
  end.

(** A parse that started on flag set [f] and heap [h] kept the tables of
    [f] and the cell [l]. *)
Definition walk_kept (l : loc) (f : FlagSet) (h : Heap)
    (r : Res Heap (FlagSet * option Error)) : Prop :=
  match r with
  | Ret (f', _) h' =>
    (flag.formal (base f') = flag.formal (base f) ∧ nonFormal f' = nonFormal f)
    ∧ h' !! l = h !! l
  | Panic _ h' | Exit _ h' => h' !! l = h !! l
  | Diverge => True
  end.

(** Binding the object [p] to the flag set [f] from heap [h] wrote only
    cells of [p], and bound the flag set to cells of [p] only. *)
Definition bind_kept (p : Object) (f : FlagSet) (h : Heap) (r : Res Heap FlagSet) : Prop :=
  match r with
  | Ret f' h' =>
    (∀ l, bound f' l → bound f l ∨ l ∈ cells p)
    ∧ (∀ l, l ∉ cells p → h' !! l = h !! l)
  | Panic _ h' | Exit _ h' => ∀ l, l ∉ cells p → h' !! l = h !! l
  | Diverge => True
  end.

(** The world a call ends in kept the cells in use and printed
    nothing. *)
Definition kept (w : World) {A} (r : Res World A) : Prop :=
  match final r with
  | Some w' => preserved (heap w) (heap w') ∧ out w' = out w
  | None => True
  end.

(** The height of a tree of commands. *)
Fixpoint height (c : Command) : nat :=
  S (map_fold (λ _ subCmd acc, Nat.max (height subCmd) acc) 0 (subcommands c)).

(* ===================================================================== *)
(** * Instances *)
(* ===================================================================== *)

(** ** Flag sets *)

(** The text adapter: [Set] stores the text as it is; it is not a
    boolean flag. *)
Definition stringValue (p : loc) : Value := mkValue p Some false.

(** A flag set with positional entries at indices 0 and 2 only. *)
Definition flagSet02 (errorHandling : Z) : FlagSet :=
  set_nonFormal (NewFlagSet "cmd" errorHandling)
    (<[0%Z := mkFlag "?0" "" (stringValue 1%positive) ""]>
       (<[2%Z := mkFlag "?2" "" (stringValue 2%positive) ""]> ∅)).

(** A flag set with the named flags [a] and [b]. *)
Definition flagSetAB (errorHandling : Z) : FlagSet :=
  let f := NewFlagSet "cmd" errorHandling in
  set_base f
    (flag.set_formal (base f)
       (<["a" := mkFlag "a" "" (stringValue 1%positive) ""]>
          (<["b" := mkFlag "b" "" (stringValue 2%positive) ""]> ∅))).

(** The adapter for bool, a boolean flag: [Set] parses the text the way
    [strconv.ParseBool] does. *)
Definition parseBool (s : string) : option string :=
  if existsb (String.eqb s) ["1"; "t"; "T"; "TRUE"; "true"; "True"] then Some "true"
  else if existsb (String.eqb s) ["0"; "f"; "F"; "FALSE"; "false"; "False"]
       then Some "false"
       else None.

Definition boolValue (p : loc) : Value := mkValue p parseBool true.

(** A flag set with the named flags [a], a boolean flag, and [b]. *)
Definition flagSetBoolA (errorHandling : Z) : FlagSet :=
  let f := NewFlagSet "cmd" errorHandling in
  set_base f
    (flag.set_formal (base f)
       (<["a" := mkFlag "a" "" (boolValue 1%positive) "false"]>
          (<["b" := mkFlag "b" "" (stringValue 2%positive) ""]> ∅))).

(** ** Handlers *)

(** A text sink for handlers, and the handlers of the examples: a filter
    that prints on its way in and on its way out, an action that
    prints. *)
Definition print (s : string) : M World unit :=
  λ w, Ret () (mkWorld (heap w) (out w ++ [s])).

Definition logFilter (n : string) : FilterFunc :=
  λ c next, (print (n +:+ "-entry") ;; next c ;; print (n +:+ "-exit"))%go.

Definition logAction (n : string) : ActionFunc := λ c, print n.

(** A handler that prints and then throws a status. *)
Definition throwing (code : Z) : ActionFunc :=
  λ c, (print "thrown" ;; ThrowStatus code (CauseValue "refused"))%go.

(** ** Apps *)

(** What AddFilter and SetAction store for a function. *)
Definition funcFilter (cmdName : string) (fn : FilterFunc) : filterObject.t :=
  filterObject.mk (NewFlagSet cmdName (Z.lor ContinueOnError ContinueOnUndefined))
                  ∅ None (Some fn).

Definition funcAction (cmdName : string) (fn : ActionFunc) : actionObject.t :=
  actionObject.mk (NewFlagSet cmdName (Z.lor ContinueOnError ContinueOnUndefined))
                  ∅ None (Some fn).

(** The app with the commands [a] and [a b]: a filter on each, and an
    action on [a b]. *)
Definition cmdB : Command :=
  mkCommand (Some "a") "b" "" [funcFilter "b" (logFilter "F2")]
            (Some (funcAction "b" (logAction "Act"))) ∅.

Definition cmdA : Command :=
  mkCommand (Some "app") "a" "" [funcFilter "a" (logFilter "F1")] None
            (<["b" := cmdB]> ∅).

Definition appAB : App :=
  mkApp (mkCommand None "app" "" [] None (<["a" := cmdA]> ∅)) None None.

(** The same commands under a root with a filter of its own, without and
    with a handler for commands that are not found. *)
Definition appF (notFound : option ActionFunc) : App :=
  mkApp (mkCommand None "app" "" [funcFilter "app" (logFilter "F0")] None
                   (<["a" := cmdA]> ∅))
        notFound None.

Definition world0 : World := mkWorld ∅ [].

(** The app the registration calls build from a filter on the root and
    the command [a] with two filters and an action. *)
Definition registerF : Res World Command :=
  (c <- AddFilter "?" (Command_ (NewApp "app")) (FilterOfFunc (logFilter "F0")) ;;
   AddSubaction "?" c "a" "" (ActionOfFunc (logAction "Act"))
                [FilterOfFunc (logFilter "F1"); FilterOfFunc (logFilter "F2")])%go
    world0.

Definition appF12 : App :=
  match registerF with
  | Ret c _ => mkApp c None None
  | _ => NewApp "app"
  end.

(** A text field bound to a flag, a filter and an action that print the
    first field of their struct, and the app they are registered on. *)
Definition textField (name : string) : Field :=
  mkField (TagFlag name) "" Some false "" "".

Definition firstField (p : Object) : M World string :=
  λ w, Ret (match p with
            | (_, l) :: _ => default "" (heap w !! l)
            | [] => ""
            end) w.

Definition structFilter (n : string) (p : Object) : FilterFunc :=
  λ c next, (v <- firstField p ;; print (n +:+ "=" +:+ v) ;; next c)%go.

Definition structAction (n : string) (p : Object) : ActionFunc :=
  λ c, (v <- firstField p ;; print (n +:+ "=" +:+ v))%go.

Definition registerS : Res World Command :=
  (c <- AddFilter "?" (Command_ (NewApp "app"))
                  (FilterOfStruct [textField "g"] (structFilter "g")) ;;
   AddSubaction "?" c "a" "" (ActionOfStruct [textField "x"] (structAction "x")) [])%go
    world0.

Definition appS : App :=
  match registerS with
  | Ret c _ => mkApp c None None
  | _ => NewApp "app"
  end.

Definition worldS : World :=
  match registerS with
  | Ret _ w => w
  | _ => world0
  end.

(* ===================================================================== *)
(** * More of the package *)
(* ===================================================================== *)

(** ** FlagSet *)

(** Init sets the name and error handling property for a flag set.  The
    embedded set is kept, with its flags: [f.FlagSet.Init] assigns its
    name and its policy. *)
Definition Init (f : FlagSet) (name : string) (errorHandling : Z) : FlagSet :=
  let '(eh, isContinueOnUndefined) := cleanBit errorHandling ContinueOnUndefined in
  let b := base f in
  mkFlagSet (flag.mkFlagSet name (flag.parsed b) (flag.actual b) (flag.formal b)
                            (flag.args b) eh)
            errorHandling isContinueOnUndefined (terminated f)
            (nonActual f) (nonFormal f).

(** [strings.TrimPrefix(s, prefix)] *)
Definition TrimPrefix (s prefix : string) : string :=
  if String.prefix prefix s then GoString.from (String.length prefix) s else s.

Section NonFlagIndex.

Variable tagKeyNonFlag : string.

(** [ameda.StringToInt], of a package outside the sources: the number
    read and the error, of a type of errors of its own. *)
Variable ConvError : Type.
Variable StringToInt : string → bool → Z * option ConvError.

Definition getNonFlagIndex (name : string) : Z * bool * option ConvError :=
  let s := TrimPrefix name tagKeyNonFlag in
  if String.eqb s name then (0%Z, false, None)
  else
    let '(i, err) := StringToInt s true in
    (i, true, err).

End NonFlagIndex.

(** ** Command and Context *)

(** Filters returns the formal flags.  A nil map reads as the empty
    map. *)
Definition Filters (c : Command) : gmap string Flag :=
  match action c with
  | None => ∅
  | Some a => actionObject.options a
  end.

(** The methods of Context. *)
Module ctx.

(** Args returns the command arguments. *)
Definition Args (c : Context) : list string := args c.

(** CmdPath returns the command path slice. *)
Definition CmdPath (c : Context) : list string := cmdPath c.

(** CmdPathString returns the command path string. *)
Definition CmdPathString (c : Context) : string := Join (CmdPath c).

(** ThrowStatus creates a status with stack, and panic. *)
Definition ThrowStatus {A} (c : Context) (code : Z) (cause : Cause) : M World A :=
  panic (PanicStatus (NewStatus code cause)).

(** CheckStatus if err!=nil, create a status with stack, and panic.
    The first of the [whenError] functions, when there is one and it is
    not nil, runs before the panic. *)
Definition CheckStatus (c : Context) (err : option Error) (code : Z)
    (whenError : list (option (M World unit))) : M World unit :=
  match err with
  | None => ret ()
  | Some e =>
    (match whenError with
     | Some fn :: _ => fn
     | _ => ret ()
     end ;;
     panic (PanicStatus (NewStatus code (CauseError e))))%go
  end.

End ctx.

(** ** App *)

(** Author represents someone who has contributed to a cli project. *)
Module Author.

Record t : Type := mk {
  Name : string;   (* The Authors name *)
  Email : string   (* The Authors email *)
}.

(** String makes Author comply to the Stringer interface. *)
Definition String_ (a : t) : string :=
  let e := if String.eqb (Email a) "" then "" else " <" +:+ Email a +:+ ">" in
  Name a +:+ e.

End Author.

(** The fields of App that describe the application, next to the part
    that routes: title, version, authors and copyright.  The date of
    compilation and the usage template are left out; [updateUsageLocked]
    of App has an empty body. *)
Module AppInfo.

Record t : Type := mk {
  app : App;
  appName : string;
  version : string;
  authors : list Author.t;
  copyright : string
}.

Definition set_app (a : t) (x : App) : t :=
  mk x (appName a) (version a) (authors a) (copyright a).

(** CmdName returns the command name of the application. *)
Definition CmdName (a : t) : string := cmdName (Command_ (app a)).

(** SetCmdName sets the command name of the application; [prog] is
    [filepath.Base(os.Args[0])]. *)
Definition SetCmdName (prog : string) (a : t) (cmdName : string) : t :=
  let cmdName := if String.eqb cmdName "" then prog else cmdName in
  set_app a (mkApp (set_cmdName (Command_ (app a)) (TrimLeftDash cmdName))
                   (notFound (app a)) (validator (app a))).

(** Name returns the name(title) of the application. *)
Definition Name (a : t) : string :=
  if String.eqb (appName a) "" then CmdName a else appName a.

(** SetName sets the name(title) of the application. *)
Definition SetName (a : t) (appName : string) : t :=
  mk (app a) appName (version a) (authors a) (copyright a).

(** Description returns description the of the application. *)
Definition Description (a : t) : string := description (Command_ (app a)).

(** Version returns the version of the application. *)
Definition Version (a : t) : string := version a.

(** SetVersion sets the version of the application. *)
Definition SetVersion (a : t) (version : string) : t :=
  let version := TrimPrefix version "v" in
  let version := TrimPrefix version "V" in
  let version := if String.eqb version "" then "0.0.1" else version in
  mk (app a) (appName a) version (authors a) (copyright a).

(** Authors returns the list of all authors who contributed. *)
Definition Authors (a : t) : list Author.t := authors a.

(** SetAuthors sets the list of all authors who contributed. *)
Definition SetAuthors (a : t) (authors : list Author.t) : t :=
  mk (app a) (appName a) (version a) authors (copyright a).

(** Copyright returns the copyright of the binary if any. *)
Definition Copyright (a : t) : string := copyright a.

(** SetCopyright sets copyright of the binary if any. *)
Definition SetCopyright (a : t) (copyright : string) : t :=
  mk (app a) (appName a) (version a) (authors a) copyright.

(** [init], without the date of compilation and the usage template. *)
Definition init (prog : string) : t :=
  let a := mk (mkApp (newCommand None "" "") None None) "" "" [] "" in
  let a := SetCmdName prog a "" in
  let a := SetName a "" in
  SetVersion a "".

End AppInfo.

(* ===================================================================== *)
(** * More vocabulary and instances *)
(* ===================================================================== *)

(** ** Texts *)

(** A text of dashes only. *)
Fixpoint dashes (s : string) : Prop :=
  match s with
  | EmptyString => True
  | String c s' => c = "-"%char ∧ dashes s'
  end.

(** [strconv.Atoi] on the numerals [strconv.Itoa] writes. *)
Definition Atoi (s : string) : Z * option unit :=
  match NilZero.int_of_string s with
  | Some d => (Z.of_int d, None)
  | None => (0%Z, Some ())
  end.

(** ** Flag sets *)

(** The policies of package flag. *)
Definition standard (policy : Z) : Prop :=
  policy = ContinueOnError ∨ policy = ExitOnError ∨ policy = PanicOnError.

(** ** Trees of commands *)

(** Every subcommand is stored under its own name, which is not empty,
    and points back to the command it was added to; and so below. *)
#[warnings="-register-all"]
Inductive WellNamed : Command → Prop :=
| WellNamed_intro c :
    (∀ n subCmd, subcommands c !! n = Some subCmd →
       n ≠ "" ∧ cmdName subCmd = n ∧ parent subCmd = Some (cmdName c)
       ∧ WellNamed subCmd) →
    WellNamed c.

(** What a registration call leaves of a command as it was. *)
Definition same_place (c c' : Command) : Prop :=
  cmdName c' = cmdName c ∧ parent c' = parent c ∧ description c' = description c.

(** The subcommand AddSubaction makes for an action and filters that
    are functions. *)
Definition functionCommand (parentName name description : string)
    (fn : ActionFunc) (ffs : list FilterFunc) : Command :=
  mkCommand (Some parentName) name description (funcFilter name <$> ffs)
            (Some (funcAction name fn)) ∅.

(** ** Instances *)

(** A flag set with the boolean flag [v]. *)
Definition flagSetV (errorHandling : Z) : FlagSet :=
  let f := NewFlagSet "cmd" errorHandling in
  set_base f
    (flag.set_formal (base f)
       (<["v" := mkFlag "v" "" (boolValue 1%positive) "false"]> ∅)).

(* ===================================================================== *)
(** * Properties *)
(* ===================================================================== *)

(** ** Unfolding the loops *)

Lemma filterArgs_step {St} args (filter : string → option string → St → St * bool) st :
  filterArgs args filter st =
  let r := tidyOneArg args in
  if OneArg.seen r then
    match filter (OneArg.name r) (OneArg.valuePtr r) st with
    | (st', true) => filterArgs (OneArg.lastArgs r) filter st'
    | (st', false) => (st', (OneArg.lastArgs r, OneArg.terminated r, OneArg.err r))
    end
  else (st, (OneArg.lastArgs r, OneArg.terminated r, OneArg.err r)).
Proof.
  funelim (filterArgs args filter st); simpl; rewrite Hs; try rewrite Heq; done.
Qed.

Lemma parseLoop_step f h :
  flag.parseLoop f h =
  match flag.parseOne f h with
  | (true, _, f', h') => flag.parseLoop f' h'
  | (false, None, f', h') => Ret (f', None) h'
  | (false, Some e, f', h') =>
    flag.failed (flag.errorHandling f) e f' h'
      (if (length (flag.args f') <? length (flag.args f))%nat
       then flag.parseLoop f' h' else Diverge)
  end.
Proof.
  funelim (flag.parseLoop f h); rewrite Hp; try rewrite Hs; done.
Qed.

(** ** Registration of positional entries *)

(** C7. Registering a positional entry panics, at the call, exactly when
    the index is negative or an entry is already registered at that
    index; otherwise the call returns and the entry is recorded at that
    index.  The heap of cells is left as it was in both cases. *)
Theorem NonVar_panics_exactly_when
    (tag : string) (f : FlagSet) (value : Value) (index : Z) (usage : string) (h : Heap) :
  (((index < 0)%Z ∨ is_Some (nonFormal f !! index))
   ∧ ∃ msg, NonVar tag f value index usage h = Panic (PanicMsg msg) h)
  ∨
  (((0 ≤ index)%Z ∧ nonFormal f !! index = None)
   ∧ ∃ f', NonVar tag f value index usage h = Ret f' h
       ∧ nonFormal f' !! index
         = Some (mkFlag (getNonFlagName tag index) usage value (String_ value h))
       ∧ (∀ j, j ≠ index → nonFormal f' !! j = nonFormal f !! j)
       ∧ base f' = base f ∧ nonActual f' = nonActual f
       ∧ terminated f' = terminated f).
Proof.
  unfold NonVar. destruct (Z.ltb_spec index 0) as [Hneg|Hpos].
  - left. split; [by left|]. eauto.
  - destruct (nonFormal f !! index) as [old|] eqn:Hold.
    + left. split; [right; eauto|]. eauto.
    + right. split; [done|]. eexists. split; [done|]. simpl.
      split; [by rewrite lookup_insert_eq|].
      split; [|done]. intros j Hj. by rewrite lookup_insert_ne.
Qed.

(** ** Positional binding *)

Local Arguments parseNonFlags : simpl never.

(** The base scanner stops at once on a token that is not a flag. *)
Lemma flag_Parse_bare (b : flag.FlagSet) (s : string) (rest : list string) (h : Heap) :
  (GoString.len s <? 2)%nat || negb (GoString.byte_is s 0 "-"%char) = true →
  flag.Parse b (s :: rest) h
  = Ret (flag.set_args (flag.set_parsed b true) (s :: rest), None) h.
Proof.
  intros Hs. unfold flag.Parse. rewrite parseLoop_step.
  unfold flag.parseOne. simpl. by rewrite Hs.
Qed.

(** The pre-scan leaves a list that starts with a bare token as it is. *)
Lemma tidyArgs_bare (s : string) (rest : list string) filter :
  (GoString.len s <? 2)%nat || negb (GoString.byte_is s 0 "-"%char) = true →
  tidyArgs (s :: rest) filter = ([], s :: rest, false, None).
Proof.
  intros Hs. unfold tidyArgs. rewrite filterArgs_step.
  unfold tidyOneArg. by rewrite Hs.
Qed.

(** C1 (amended). With positional entries at index 0 and none at index 1,
    in strict and in tolerant mode alike, parsing the bare tokens
    x, y, z that follow the program name binds x at index 0 and stops at
    index 1: nothing is bound at index 2, whether or not an entry is
    registered there. *)
Theorem Parse_positional_stops_at_gap
    (f : FlagSet) (fl0 : Flag) (c prog : string) (h : Heap) :
  (0 <? GoString.len prog)%nat && negb (GoString.byte_is prog 0 "-"%char) = true →
  terminated f = false →
  nonFormal f !! 0%Z = Some fl0 →
  conv (Value_ fl0) "x" = Some c →
  nonFormal f !! 1%Z = None →
  ∃ f', Parse f [prog; "x"; "y"; "z"] h = Ret (f', None) (<[cell (Value_ fl0) := c]> h)
        ∧ nonActual f' = <[0%Z := fl0]> (nonActual f)
        ∧ nonActual f' !! 2%Z = nonActual f !! 2%Z
        ∧ flag.Args (base f') = ["x"; "y"; "z"].
Proof.
  intros Hprog Hterm H0 Hc H1.
  unfold Parse, SplitArgs. rewrite Hprog.
  assert (Hwalk : ∀ g : FlagSet,
    nonFormal g = nonFormal f → nonActual g = nonActual f →
    parseNonFlags g 0 ["x"; "y"; "z"] h
    = Ret (set_nonActual g (<[0%Z := fl0]> (nonActual g)), None)
          (<[cell (Value_ fl0) := c]> h)).
  { intros g Hg Ha. unfold parseNonFlags, parseOneNonFlag. simpl.
    rewrite Hg, H0. unfold Set_. rewrite Hc. simpl.
    change (0 + 1)%Z with 1%Z. by rewrite Hg, H1. }
  unfold Parse_tidy. destruct (isContinueOnUndefined f) eqn:Hcu.
  - rewrite tidyArgs_bare by done. simpl.
    unfold bind. rewrite flag_Parse_bare by done. simpl. rewrite Hcu.
    rewrite Hwalk by done. eexists. split; [done|]. simpl.
    split; [done|]. split; [|done]. by rewrite lookup_insert_ne.
  - unfold bind. rewrite flag_Parse_bare by done. simpl. rewrite Hterm, Hcu.
    simpl. rewrite Hwalk by done. eexists. split; [done|]. simpl.
    split; [done|]. split; [|done]. by rewrite lookup_insert_ne.
Qed.

Lemma Parse_positional_stops_at_gap_witness :
  ∃ f', Parse (flagSet02 ContinueOnError) ["prog"; "x"; "y"; "z"] ∅
        = Ret (f', None) (<[1%positive := "x"]> ∅)
        ∧ nonActual f' = <[0%Z := mkFlag "?0" "" (stringValue 1%positive) ""]> ∅
        ∧ nonActual f' !! 2%Z = None
        ∧ flag.Args (base f') = ["x"; "y"; "z"].
Proof.
  apply (Parse_positional_stops_at_gap (flagSet02 ContinueOnError)
           (mkFlag "?0" "" (stringValue 1%positive) "") "x" "prog" ∅);
    reflexivity.
Defined.

(** C1, as stated, fails in tolerant mode: with entries at indices 0 and
    2 only and the tolerant policy set, the walk still stops at index 1;
    nothing is bound at index 2 and its cell is never written, with or
    without a program name in front of the tokens. *)
Lemma Parse_tolerant_reaches_index_2_counterexample :
  let f := flagSet02 (Z.lor ContinueOnError ContinueOnUndefined) in
  isContinueOnUndefined f = true
  ∧ dom (nonFormal f) = {[0%Z; 2%Z]}
  ∧ (∃ f' h', Parse f ["prog"; "x"; "y"; "z"] ∅ = Ret (f', None) h'
              ∧ nonActual f' !! 2%Z = None ∧ h' !! 2%positive = None)
  ∧ (∃ f' h', Parse f ["x"; "y"; "z"] ∅ = Ret (f', None) h'
              ∧ nonActual f' !! 2%Z = None ∧ h' !! 2%positive = None).
Proof.
  split; [reflexivity|]. split; [by vm_compute|].
  split; eexists _, _; (split; [vm_compute; reflexivity|]); split; reflexivity.
Qed.

(** ** The terminator *)

Lemma flag_Parse_a_terminator (b : flag.FlagSet) (fa : Flag) (c : string) (h : Heap) :
  flag.formal b !! "a" = Some fa →
  IsBoolFlag (Value_ fa) = false →
  conv (Value_ fa) "1" = Some c →
  flag.Parse b ["-a"; "1"; "--"; "-b"; "2"] h
  = Ret (flag.mkFlagSet (flag.name b) true (<["a" := fa]> (flag.actual b))
                        (flag.formal b) ["-b"; "2"] (flag.errorHandling b), None)
        (<[cell (Value_ fa) := c]> h).
Proof.
  intros Ha Hbool Hc. unfold flag.Parse.
  rewrite parseLoop_step. unfold flag.parseOne. simpl.
  change (GoString.from 1 "-a") with "a".
  rewrite Ha, Hbool. simpl. unfold Set_. rewrite Hc.
  rewrite parseLoop_step. unfold flag.parseOne. simpl.
  reflexivity.
Qed.

(** C3 (amended). With a named flag [a] defined that is not a boolean
    flag and takes the value 1 (and [b] defined or not), parsing
    -a 1 -- -b 2 binds [a], binds nothing else, leaves the set in
    terminated mode and returns the tokens after the terminator, -b 2,
    verbatim as the remaining arguments, in strict and in tolerant
    mode alike. *)
Theorem Parse_terminator_ends_scan (f : FlagSet) (fa : Flag) (c : string) (h : Heap) :
  flag.formal (base f) !! "a" = Some fa →
  IsBoolFlag (Value_ fa) = false →
  conv (Value_ fa) "1" = Some c →
  ∃ f', Parse f ["-a"; "1"; "--"; "-b"; "2"] h
        = Ret (f', None) (<[cell (Value_ fa) := c]> h)
        ∧ flag.actual (base f') = <["a" := fa]> (flag.actual (base f))
        ∧ flag.actual (base f') !! "b" = flag.actual (base f) !! "b"
        ∧ terminated f' = true
        ∧ flag.Args (base f') = ["-b"; "2"]
        ∧ SubArgs f' = ["-b"; "2"]
        ∧ nonActual f' = nonActual f.
Proof.
  intros Ha Hbool Hc. unfold Parse. simpl.
  unfold Parse_tidy. destruct (isContinueOnUndefined f) eqn:Hcu.
  - unfold tidyArgs. rewrite filterArgs_step. simpl.
    change (GoString.from 1 "-a") with "a".
    unfold flag.Lookup. rewrite Ha.
    rewrite bool_decide_true by eauto. simpl.
    rewrite filterArgs_step. simpl.
    unfold bind. rewrite (flag_Parse_a_terminator _ fa c) by done. simpl.
    eexists. split; [done|]. simpl.
    split; [done|]. split; [by rewrite lookup_insert_ne|]. done.
  - unfold bind. rewrite (flag_Parse_a_terminator _ fa c) by done. simpl.
    rewrite Hcu. simpl.
    destruct (terminated f) eqn:Hterm.
    + eexists. split; [done|]. unfold SubArgs. simpl. rewrite Hterm.
      split; [done|]. split; [by rewrite lookup_insert_ne|]. done.
    + eexists. split; [done|]. unfold SubArgs. simpl.
      split; [done|]. split; [by rewrite lookup_insert_ne|]. done.
Qed.

Lemma Parse_terminator_ends_scan_witness :
  ∃ f', Parse (flagSetAB ContinueOnError) ["-a"; "1"; "--"; "-b"; "2"] ∅
        = Ret (f', None) (<[1%positive := "1"]> ∅)
        ∧ flag.actual (base f') = <["a" := mkFlag "a" "" (stringValue 1%positive) ""]> ∅
        ∧ flag.actual (base f') !! "b" = None
        ∧ terminated f' = true
        ∧ flag.Args (base f') = ["-b"; "2"]
        ∧ SubArgs f' = ["-b"; "2"]
        ∧ nonActual f' = ∅.
Proof.
  apply (Parse_terminator_ends_scan (flagSetAB ContinueOnError)
           (mkFlag "a" "" (stringValue 1%positive) "") "1" ∅);
    reflexivity.
Defined.

(** C3, as stated, fails when [a] is a boolean flag: the scanner of
    package flag binds [a] without a value and stops on the token 1.
    In strict mode the set is then not in terminated mode, and the
    remaining arguments are 1 -- -b 2; in tolerant mode the remaining
    arguments, and the arguments of the next subcommand, are
    1 -- -b 2 as well. *)
Lemma Parse_terminator_after_boolean_counterexample :
  let strict := flagSetBoolA ContinueOnError in
  let tolerant := flagSetBoolA (Z.lor ContinueOnError ContinueOnUndefined) in
  is_Some (flag.Lookup (base strict) "a")
  ∧ is_Some (flag.Lookup (base strict) "b")
  ∧ (∃ f' h', Parse strict ["-a"; "1"; "--"; "-b"; "2"] ∅ = Ret (f', None) h'
              ∧ is_Some (flag.actual (base f') !! "a")
              ∧ terminated f' = false
              ∧ flag.Args (base f') = ["1"; "--"; "-b"; "2"])
  ∧ (∃ f' h', Parse tolerant ["-a"; "1"; "--"; "-b"; "2"] ∅ = Ret (f', None) h'
              ∧ is_Some (flag.actual (base f') !! "a")
              ∧ flag.Args (base f') = ["1"; "--"; "-b"; "2"]
              ∧ SubArgs f' = ["1"; "--"; "-b"; "2"]).
Proof.
  intros strict tolerant. split; [by eexists|]. split; [by eexists|].
  split; eexists _, _; (split; [vm_compute; reflexivity|]);
    (split; [by eexists|]); split; reflexivity.
Qed.

(** ** The pre-scan of tolerant mode *)

Section Prescan.

Local Arguments GoString.from : simpl never.
Local Arguments GoString.upto : simpl never.
Local Arguments equalsAt : simpl never.

(** *** Slices of texts *)

Lemma from_1 a t : GoString.from 1 (String a t) = t.
Proof.
  unfold GoString.from. cbn [String.length Nat.sub String.substring].
  rewrite Nat.sub_0_r. induction t as [|b t IH]; [done|]. simpl. by rewrite IH.
Qed.

Lemma from_2 a b t : GoString.from 2 (String a (String b t)) = t.
Proof.
  unfold GoString.from. cbn [String.length Nat.sub String.substring].
  rewrite Nat.sub_0_r. induction t as [|c t IH]; [done|]. simpl. by rewrite IH.
Qed.

Lemma length_append (s t : string) :
  String.length (s +:+ t) = String.length s + String.length t.
Proof. induction s as [|a s IH]; simpl; [done|]. by rewrite IH. Qed.

Lemma substring_all (s : string) : String.substring 0 (String.length s) s = s.
Proof. induction s as [|a s IH]; simpl; [done|]. by rewrite IH. Qed.

Lemma upto_app (pre r : string) : GoString.upto (String.length pre) (pre +:+ r) = pre.
Proof.
  unfold GoString.upto. induction pre as [|a pre IH]; simpl.
  - by destruct r.
  - by rewrite IH.
Qed.

Lemma from_app (pre r : string) : GoString.from (String.length pre) (pre +:+ r) = r.
Proof.
  unfold GoString.from. rewrite length_append.
  replace (String.length pre + String.length r - String.length pre)
    with (String.length r) by lia.
  induction pre as [|a pre IH]; simpl; [apply substring_all|done].
Qed.

Lemma from_app_S (pre : string) a (r : string) :
  GoString.from (S (String.length pre)) (pre +:+ String a r) = r.
Proof.
  unfold GoString.from. rewrite length_append. cbn [String.length].
  replace (String.length pre + S (String.length r) - S (String.length pre))
    with (String.length r) by lia.
  induction pre as [|b pre IH]; simpl; [apply substring_all|done].
Qed.

Lemma has_byte_cons c a s : has_byte c (String a s) ↔ a = c ∨ has_byte c s.
Proof.
  split.
  - intros (pre & post & H). destruct pre as [|b pre]; simpl in H.
    + injection H as -> _. by left.
    + injection H as -> ->. right. by exists pre, post.
  - intros [->|(pre & post & ->)]; [by exists "", s|by exists (String a pre), post].
Qed.

Lemma has_byte_nil c : ¬ has_byte c "".
Proof. intros (pre & post & H). by destruct pre. Qed.

Lemma index_from_None c s : ∀ k,
  GoString.index_from c k s = None ↔ ¬ has_byte c s.
Proof.
  induction s as [|a s IH]; intros k; simpl.
  - split; [intros _; apply has_byte_nil|done].
  - rewrite has_byte_cons. destruct (Ascii.eqb_spec a c) as [->|Hne].
    + split; [done|]. intros H. destruct H. by left.
    + rewrite IH. split; [intros H [?|?]; done|]. intros H ?. apply H. by right.
Qed.

Lemma index_from_Some c s : ∀ k i,
  GoString.index_from c k s = Some i
  ↔ ∃ pre post, s = pre +:+ String c post ∧ ¬ has_byte c pre
                ∧ i = k + String.length pre.
Proof.
  induction s as [|a s IH]; intros k i; simpl.
  - split; [done|]. intros (pre & post & H & _). by destruct pre.
  - destruct (Ascii.eqb_spec a c) as [->|Hne].
    + split.
      * intros [= <-]. exists "", s. split; [done|]. split; [apply has_byte_nil|simpl; lia].
      * intros (pre & post & H & Hno & ->). destruct pre as [|b pre]; simpl in *.
        { f_equal. lia. }
        injection H as <- _. destruct Hno. apply has_byte_cons. by left.
    + rewrite IH. split.
      * intros (pre & post & -> & Hno & ->). exists (String a pre), post.
        split; [done|]. split; [|simpl; lia].
        rewrite has_byte_cons. by intros [?|?].
      * intros (pre & post & H & Hno & ->). destruct pre as [|b pre]; simpl in *.
        { by injection H as ->. }
        injection H as -> ->. exists pre, post. split; [done|].
        split; [|lia]. intros ?. apply Hno. apply has_byte_cons. by right.
Qed.

Lemma equalsAt_Some c t i :
  equalsAt (String c t) = Some i
  ↔ ∃ pre post, t = pre +:+ String "=" post ∧ ¬ has_byte "=" pre
                ∧ i = S (String.length pre).
Proof. unfold equalsAt. rewrite from_1. apply index_from_Some. Qed.

Lemma equalsAt_None c t :
  equalsAt (String c t) = None ↔ ¬ has_byte "=" t.
Proof. unfold equalsAt. rewrite from_1. apply index_from_None. Qed.

(** A name is valid when the scan for an equals sign finds none. *)
Lemma validName_intro (c : ascii) (t : string) :
  c ≠ "-"%char → GoString.index_from "="%char 0 (String c t) = None →
  validName (String c t).
Proof.
  intros Hc Hno. split; [done|]. split; [by intros t' [= ? _]|].
  by apply (index_from_None _ _ 0).
Qed.

(** The test the scanner makes on the token after a flag. *)
Lemma dashless_value v :
  dashless v
  ↔ (GoString.len v =? 0)%nat || negb (GoString.byte_is v 0 "-"%char) = true.
Proof.
  unfold dashless, GoString.byte_is, GoString.len.
  destruct v as [|a v]; simpl; [done|].
  destruct (Ascii.eqb_spec a "-") as [->|Hne]; simpl.
  - split; [|done]. intros H. by destruct (H v).
  - split; [done|]. intros _ t [= ? _]. done.
Qed.

(** The test the scanner makes on the first token. *)
Lemma bare_cases s :
  (GoString.len s <? 2)%nat || negb (GoString.byte_is s 0 "-"%char) = true
  ↔ dashless s ∨ s = "-".
Proof.
  unfold dashless, GoString.byte_is, GoString.len.
  destruct s as [|a [|b s]]; simpl.
  - split; [by left|done].
  - destruct (Ascii.eqb_spec a "-") as [->|Hne]; split; try done.
    + by right.
    + intros _. left. by intros t [= ? _].
  - destruct (Ascii.eqb_spec a "-") as [->|Hne]; simpl; split; try done.
    + intros [H|H]; [by destruct (H (String b s))|done].
    + intros _. left. by intros t [= ? _].
Qed.

(** *** The scanner, token by token *)

Lemma shape s : Shape s.
Proof.
  destruct s as [|a [|b t]]; [by apply Shape_bare..|].
  destruct (Ascii.eqb_spec a "-") as [->|Ha].
  2: { apply Shape_bare. unfold GoString.byte_is. simpl.
       by destruct (Ascii.eqb_spec a "-"). }
  destruct (Ascii.eqb_spec b "-") as [->|Hb].
  - destruct t as [|c t]; [apply Shape_terminator|].
    by apply (Shape_named true c t).
  - by apply (Shape_named false b t).
Qed.

(** The scanner on dashes and a name. *)
Lemma tidyOneArg_named (two : bool) c t rest :
  (two = false → c ≠ "-"%char) →
  tidyOneArg (((if two then "--" else "-") +:+ String c t) :: rest)
  = let s := (if two then "--" else "-") +:+ String c t in
    let name := String c t in
    if Ascii.eqb c "-" || Ascii.eqb c "=" then
      OneArg.mk (s :: rest) false name None false (Some (ErrBadSyntax s))
    else
      match equalsAt name with
      | Some i =>
        OneArg.mk rest false (GoString.upto i name)
                 (Some (GoString.from (S i) name)) true None
      | None =>
        match rest with
        | [] => OneArg.mk rest false name None true None
        | maybeValue :: args'' =>
          if (GoString.len maybeValue =? 0)%nat
             || negb (GoString.byte_is maybeValue 0 "-"%char) then
            OneArg.mk args'' false name (Some maybeValue) true None
          else
            OneArg.mk rest false name None true None
        end
      end.
Proof.
  intros Hc. destruct two.
  - change ("--" +:+ String c t) with (String "-" (String "-" (String c t))).
    unfold tidyOneArg. cbn -[GoString.from GoString.upto equalsAt]. rewrite from_2.
    unfold GoString.byte_is, GoString.len. simpl. done.
  - change ("-" +:+ String c t) with (String "-" (String c t)).
    assert (Ascii.eqb c "-" = false) as E by (apply Ascii.eqb_neq; auto).
    unfold tidyOneArg. cbn -[GoString.from GoString.upto equalsAt]. rewrite E.
    cbn -[GoString.from GoString.upto equalsAt]. rewrite from_1.
    unfold GoString.byte_is, GoString.len. simpl. by rewrite E.
Qed.

(** The scanner reports an error exactly on a malformed first token,
    and then takes nothing off the list. *)
Lemma tidyOneArg_err (args : list string) :
  match OneArg.err (tidyOneArg args) with
  | Some e =>
    ∃ s rest, args = s :: rest ∧ malformed s ∧ e = ErrBadSyntax s
              ∧ tidyOneArg args
                = OneArg.mk args false (OneArg.name (tidyOneArg args)) None false (Some e)
  | None => ∀ s rest, args = s :: rest → ¬ malformed s
  end.
Proof.
  destruct args as [|s rest]; [done|].
  destruct (shape s) as [s Hs| |two c t Hc].
  - unfold tidyOneArg. rewrite Hs. simpl. intros s' rest' [= <- <-] Hm.
    destruct Hm as [t [-> | [-> | ->]]]; discriminate Hs.
  - unfold tidyOneArg. simpl. intros s' rest' [= <- <-] [t [H|[H|H]]]; by destruct t.
  - rewrite tidyOneArg_named by done. cbv zeta.
    assert (malformed ((if two then "--" else "-") +:+ String c t)
            ↔ Ascii.eqb c "-" || Ascii.eqb c "=" = true) as Hm.
    { unfold malformed. rewrite orb_true_iff, !Ascii.eqb_eq. split.
      - intros [t' H]. destruct two; simpl in H.
        + destruct H as [H|[H|H]]; try (injection H; intros; subst; by auto).
        + destruct H as [H|[H|H]]; try (injection H; intros; subst; by auto).
          all: exfalso; apply Hc; [done|]; by injection H.
      - intros [-> | ->].
        + destruct two; [|by destruct Hc]. exists t. by right; right.
        + exists t. destruct two; [right; by left|by left]. }
    destruct (_ || _); simpl.
    + eexists _, _. split; [done|]. split; [by apply Hm|]. done.
    + assert (Hno : ∀ s' rest', ((if two then "--" else "-") +:+ String c t) :: rest
                                = s' :: rest' → ¬ malformed s').
      { intros s' rest' [= <- <-] H. by apply Hm in H. }
      destruct (equalsAt (String c t)); [exact Hno|].
      destruct rest as [|v rest0]; [exact Hno|].
      destruct (_ || _); exact Hno.
Qed.

(** What is written as a flag is read as that flag. *)
Lemma tidyOneArg_written (two : bool) (name : string) (rest : list string) :
  validName name →
  let flag := (if two then "--" else "-") +:+ name in
  (∀ value, tidyOneArg ((flag +:+ "=" +:+ value) :: rest)
            = OneArg.mk rest false name (Some value) true None)
  ∧ (∀ v, dashless v →
          tidyOneArg (flag :: v :: rest) = OneArg.mk rest false name (Some v) true None)
  ∧ (tidyOneArg [flag] = OneArg.mk [] false name None true None)
  ∧ (∀ v, ¬ dashless v →
          tidyOneArg (flag :: v :: rest) = OneArg.mk (v :: rest) false name None true None).
Proof.
  intros (Hne & Hdash & Heq). destruct name as [|c t]; [done|]. clear Hne.
  assert (Hc : c ≠ "-"%char) by (intros ->; by apply (Hdash t)).
  assert (Hc' : c ≠ "="%char).
  { intros ->. apply Heq. by exists "", t. }
  assert (Ht : ¬ has_byte "=" t).
  { intros H. apply Heq. apply has_byte_cons. by right. }
  assert (Hnone : equalsAt (String c t) = None) by by apply equalsAt_None.
  assert (E1 : Ascii.eqb c "-" = false) by by apply Ascii.eqb_neq.
  assert (E2 : Ascii.eqb c "=" = false) by by apply Ascii.eqb_neq.
  cbv zeta. split; [|split; [|split]].
  - intros value.
    replace (((if two then "--" else "-") +:+ String c t) +:+ "=" +:+ value)
      with ((if two then "--" else "-") +:+ String c (t +:+ String "=" value)).
    2: { by destruct two. }
    rewrite tidyOneArg_named by done. cbv zeta. rewrite E1, E2. cbn [orb].
    assert (Heq' : equalsAt (String c (t +:+ String "=" value)) = Some (S (String.length t))).
    { apply equalsAt_Some. by exists t, value. }
    rewrite Heq'. f_equal.
    + change (String c (t +:+ String "=" value)) with (String c t +:+ String "=" value).
      apply (upto_app (String c t)).
    + f_equal. apply (from_app_S (String c t)).
  - intros v Hv. rewrite tidyOneArg_named by done. cbv zeta. rewrite E1, E2. cbn [orb].
    rewrite Hnone. apply dashless_value in Hv. by rewrite Hv.
  - rewrite tidyOneArg_named by done. cbv zeta. rewrite E1, E2. cbn [orb].
    by rewrite Hnone.
  - intros v Hv. rewrite tidyOneArg_named by done. cbv zeta. rewrite E1, E2. cbn [orb].
    rewrite Hnone. rewrite dashless_value in Hv. apply not_true_is_false in Hv.
    by rewrite Hv.
Qed.

(** Whatever the scanner reports as a flag was written as one. *)
Lemma tidyOneArg_seen (args : list string) :
  OneArg.seen (tidyOneArg args) = true →
  let r := tidyOneArg args in
  validName (OneArg.name r) ∧ OneArg.terminated r = false ∧ OneArg.err r = None
  ∧ ∃ two : bool,
      let flag := (if two then "--" else "-") +:+ OneArg.name r in
      (∃ value, OneArg.valuePtr r = Some value
                ∧ args = (flag +:+ "=" +:+ value) :: OneArg.lastArgs r)
      ∨ (∃ v, dashless v ∧ OneArg.valuePtr r = Some v
              ∧ args = flag :: v :: OneArg.lastArgs r)
      ∨ (OneArg.valuePtr r = None ∧ args = flag :: OneArg.lastArgs r
         ∧ ∀ v rest, OneArg.lastArgs r = v :: rest → ¬ dashless v).
Proof.
  destruct args as [|s rest]; [done|].
  destruct (shape s) as [s Hs| |two c t Hc].
  { unfold tidyOneArg. by rewrite Hs. }
  { done. }
  rewrite tidyOneArg_named by done. cbv zeta.
  destruct (Ascii.eqb_spec c "-") as [->|Hc1]; [done|].
  destruct (Ascii.eqb_spec c "=") as [->|Hc2]; [done|]. cbn [orb].
  assert (Hvalid : ∀ pre, ¬ has_byte "=" pre → validName (String c pre)).
  { intros pre Hpre. split; [done|]. split; [by intros t' [= ? _]|].
    rewrite has_byte_cons. by intros [?|?]. }
  destruct (equalsAt (String c t)) as [i|] eqn:Heq.
  - apply equalsAt_Some in Heq as (pre & post & -> & Hpre & ->).
    intros _. cbn [OneArg.name OneArg.terminated OneArg.err OneArg.valuePtr OneArg.lastArgs].
    change (String c (pre +:+ String "=" post)) with (String c pre +:+ String "=" post).
    rewrite (upto_app (String c pre)), (from_app_S (String c pre)).
    split; [by apply Hvalid|]. split; [done|]. split; [done|].
    exists two. left. exists post. split; [done|]. by destruct two.
  - apply equalsAt_None in Heq. destruct rest as [|v rest].
    { intros _. simpl. split; [by apply Hvalid|]. split; [done|]. split; [done|].
      exists two. right; right. done. }
    destruct (_ || _) eqn:Hv; intros _; simpl.
    + split; [by apply Hvalid|]. split; [done|]. split; [done|].
      exists two. right; left. exists v. split; [|done].
      by apply dashless_value.
    + split; [by apply Hvalid|]. split; [done|]. split; [done|].
      exists two. right; right. split; [done|]. split; [done|].
      intros v' rest' [= <- <-]. rewrite dashless_value. by rewrite Hv.
Qed.

(** A first token the scanner does not take as a flag. *)
Lemma tidyOneArg_unseen (s : string) (rest : list string) :
  OneArg.seen (tidyOneArg (s :: rest)) = false →
  s = "--" ∨ (dashless s ∨ s = "-") ∨ malformed s.
Proof.
  intros Hs. pose proof (tidyOneArg_err (s :: rest)) as Herr.
  destruct (OneArg.err (tidyOneArg (s :: rest))) as [e|] eqn:He.
  { destruct Herr as (s' & rest' & [= <- <-] & Hm & _). by right; right. }
  clear Herr. destruct (shape s) as [s Hbare| |two c t Hc].
  - right; left. by apply bare_cases.
  - by left.
  - rewrite tidyOneArg_named in Hs, He by done. cbv zeta in Hs, He.
    destruct (_ || _); [discriminate He|].
    destruct (equalsAt (String c t)); [discriminate Hs|].
    destruct rest as [|v rest0]; [discriminate Hs|].
    destruct (_ || _); discriminate Hs.
Qed.

Local Arguments tidyOneArg : simpl never.

(** *** The scan of a list *)

(** The scan of a run of flags goes on from what follows the run, with
    the flags that are wanted written to [tidiedArgs]. *)
Lemma filterArgs_run (want : string → bool) (scanned : list string)
    (flags : list (string * option string)) (follow : list string) :
  Scanned scanned flags follow →
  ∀ acc,
    filterArgs (scanned ++ follow) (tidyArgs_closure (λ name, (want name, true))) acc
    = filterArgs follow (tidyArgs_closure (λ name, (want name, true)))
        (acc ++ flat_map rendered (List.filter (λ nv, want nv.1) flags)).
Proof.
  induction 1 as [follow
                 |two name value tokens flags follow Hname Hsc IH
                 |two name v tokens flags follow Hname Hv Hsc IH
                 |two name tokens flags follow Hname Hnext Hsc IH]; intros acc.
  - cbn. by rewrite app_nil_r.
  - cbn [app]. rewrite filterArgs_step. cbv zeta.
    destruct (tidyOneArg_written two name (tokens ++ follow) Hname) as (Hw & _).
    rewrite (Hw value).
    cbn [OneArg.seen OneArg.name OneArg.valuePtr OneArg.lastArgs].
    unfold tidyArgs_closure at 1. cbv beta iota zeta.
    rewrite IH. f_equal. cbn [List.filter fst flat_map].
    destruct (want name); cbn [flat_map]; [|done].
    unfold rendered. cbn [fst snd]. by rewrite <- app_assoc.
  - cbn [app]. rewrite filterArgs_step. cbv zeta.
    destruct (tidyOneArg_written two name (tokens ++ follow) Hname) as (_ & Hw & _).
    rewrite (Hw v Hv).
    cbn [OneArg.seen OneArg.name OneArg.valuePtr OneArg.lastArgs].
    unfold tidyArgs_closure at 1. cbv beta iota zeta.
    rewrite IH. f_equal. cbn [List.filter fst flat_map].
    destruct (want name); cbn [flat_map]; [|done].
    unfold rendered. cbn [fst snd]. by rewrite <- app_assoc.
  - cbn [app]. rewrite filterArgs_step. cbv zeta.
    assert (Hw : tidyOneArg (((if two then "--" else "-") +:+ name) :: tokens ++ follow)
                 = OneArg.mk (tokens ++ follow) false name None true None).
    { destruct (tokens ++ follow) as [|v rest] eqn:Hl.
      - by destruct (tidyOneArg_written two name [] Hname) as (_ & _ & Hw & _).
      - destruct (tidyOneArg_written two name rest Hname) as (_ & _ & _ & Hw).
        apply Hw. by apply (Hnext v rest). }
    rewrite Hw.
    cbn [OneArg.seen OneArg.name OneArg.valuePtr OneArg.lastArgs].
    unfold tidyArgs_closure at 1. cbv beta iota zeta.
    rewrite IH. f_equal. cbn [List.filter fst flat_map].
    destruct (want name); cbn [flat_map]; [|done].
    unfold rendered. cbn [fst snd]. by rewrite <- app_assoc.
Qed.

(** Every list is a run of flags followed by a list that starts with
    the terminator, or that the scan does not enter, or that starts
    with a malformed token. *)
Lemma scan_splits (n : nat) :
  ∀ args, (length args ≤ n)%nat →
    ∃ scanned flags follow,
      args = scanned ++ follow
      ∧ Scanned scanned flags follow
      ∧ ((∃ rest, follow = "--" :: rest)
         ∨ unflagged follow
         ∨ (∃ bad rest, follow = bad :: rest ∧ malformed bad)).
Proof.
  induction n as [|n IH]; intros args Hlen.
  { destruct args; [|simpl in Hlen; lia].
    exists [], [], []. split; [done|]. split; [constructor|]. right; left. exact I. }
  destruct (OneArg.seen (tidyOneArg args)) eqn:Hs.
  - pose proof (tidyOneArg_shrinks args Hs) as Hshrink.
    destruct (tidyOneArg_seen args Hs) as (Hname & _ & _ & two & Hform).
    cbv zeta in Hform.
    set (name := OneArg.name (tidyOneArg args)) in *.
    set (last := OneArg.lastArgs (tidyOneArg args)) in *.
    clearbody name last.
    destruct (IH last) as (scanned & flags & follow & Hlast & Hsc & Hstop); [lia|].
    destruct Hform as [(value & _ & Hargs)|[(v & Hv & _ & Hargs)|(_ & Hargs & Hnext)]];
      rewrite Hlast in Hargs.
    + exists ((((if two then "--" else "-") +:+ name) +:+ "=" +:+ value) :: scanned),
        ((name, Some value) :: flags), follow.
      split; [exact Hargs|]. split; [by apply Scanned_flag_equals|exact Hstop].
    + exists (((if two then "--" else "-") +:+ name) :: v :: scanned),
        ((name, Some v) :: flags), follow.
      split; [exact Hargs|]. split; [by apply Scanned_flag_value|exact Hstop].
    + exists (((if two then "--" else "-") +:+ name) :: scanned),
        ((name, None) :: flags), follow.
      split; [exact Hargs|]. split; [|exact Hstop].
      apply Scanned_flag_alone; [exact Hname| |exact Hsc].
      intros v rest Hl. apply (Hnext v rest). by rewrite Hlast.
  - exists [], [], args. split; [done|]. split; [constructor|].
    destruct args as [|s rest]; [right; left; exact I|].
    destruct (tidyOneArg_unseen s rest Hs) as [->|[Hbare|Hbad]].
    + left. by exists rest.
    + right; left. exact Hbare.
    + right; right. by exists s, rest.
Qed.

(** The end of the scan. *)
Lemma filterArgs_terminator {St} (rest : list string)
    (filter : string → option string → St → St * bool) (acc : St) :
  filterArgs ("--" :: rest) filter acc = (acc, (rest, true, None)).
Proof. rewrite filterArgs_step. reflexivity. Qed.

Lemma filterArgs_unflagged {St} (follow : list string)
    (filter : string → option string → St → St * bool) (acc : St) :
  unflagged follow →
  filterArgs follow filter acc = (acc, (follow, false, None)).
Proof.
  intros Hf. rewrite filterArgs_step. destruct follow as [|s rest]; [reflexivity|].
  apply bare_cases in Hf. unfold tidyOneArg. by rewrite Hf.
Qed.

Lemma filterArgs_malformed {St} (bad : string) (rest : list string)
    (filter : string → option string → St → St * bool) (acc : St) :
  malformed bad →
  filterArgs (bad :: rest) filter acc
  = (acc, (bad :: rest, false, Some (ErrBadSyntax bad))).
Proof.
  intros Hbad. rewrite filterArgs_step. cbv zeta.
  pose proof (tidyOneArg_err (bad :: rest)) as Herr.
  destruct (OneArg.err (tidyOneArg (bad :: rest))) as [e|] eqn:He.
  - destruct Herr as (s & tl & [= <- <-] & _ & -> & Heq). by rewrite Heq.
  - by destruct (Herr bad rest eq_refl).
Qed.

(** C2 (amended). In tolerant mode the pre-scan of Parse reads the
    leading run of flags of the list, each with its value: the text
    after its equals sign, or else the next token when that token does
    not start with a dash.  Every list is such a run followed by a
    list that starts with the terminator, or that is empty or starts
    with a token that is no flag, or that starts with a malformed
    token; and whichever way a list is split like this:
    - when the terminator follows the run, the list is reassembled as
      the scanned flags whose name is defined, each written as [-name]
      followed by its value, then the terminator, then the tokens
      after it, unchanged, and the set is put in terminated mode;
    - when a token that is no flag follows, or nothing, the list is
      reassembled as the scanned flags whose name is defined, then the
      tokens from that one on, unchanged, and the set is put out of
      terminated mode;
    - when a malformed token follows, Parse ends with the error that
      names it.
    A scanned flag whose name is not defined is dropped together with
    its value. *)
Theorem Parse_tidy_reassembles (f : FlagSet) (arguments : list string) :
  isContinueOnUndefined f = true →
  (∃ scanned flags follow,
     arguments = scanned ++ follow
     ∧ Scanned scanned flags follow
     ∧ ((∃ rest, follow = "--" :: rest)
        ∨ unflagged follow
        ∨ (∃ bad rest, follow = bad :: rest ∧ malformed bad)))
  ∧ (∀ scanned flags follow,
       arguments = scanned ++ follow →
       Scanned scanned flags follow →
       (∀ rest, follow = "--" :: rest →
          Parse_tidy f arguments
          = inr (recognized f flags ++ ["--"] ++ rest, set_terminated f true))
       ∧ (unflagged follow →
          Parse_tidy f arguments
          = inr (recognized f flags ++ follow, set_terminated f false))
       ∧ (∀ bad rest, follow = bad :: rest → malformed bad →
          Parse_tidy f arguments = inl (ErrBadSyntax bad))).
Proof.
  intros Hcu. split; [by apply (scan_splits (length arguments))|].
  intros scanned flags follow -> Hsc.
  unfold Parse_tidy, tidyArgs, recognized. rewrite Hcu.
  rewrite (filterArgs_run _ scanned flags follow Hsc). cbn [app].
  split; [|split].
  - intros rest ->. by rewrite filterArgs_terminator.
  - intros Hf. by rewrite filterArgs_unflagged.
  - intros bad rest -> Hbad. by rewrite filterArgs_malformed.
Qed.

Lemma Parse_tidy_reassembles_witness :
  let f := flagSetAB (Z.lor ContinueOnError ContinueOnUndefined) in
  isContinueOnUndefined f = true
  ∧ Scanned ["--a=1"; "-u"; "2"; "-b"] [("a", Some "1"); ("u", Some "2"); ("b", None)]
            ["--"; "-a"; "x"]
  ∧ recognized f [("a", Some "1"); ("u", Some "2"); ("b", None)] = ["-a"; "1"; "-b"]
  ∧ Parse_tidy f ["--a=1"; "-u"; "2"; "-b"; "--"; "-a"; "x"]
    = inr (["-a"; "1"; "-b"] ++ ["--"] ++ ["-a"; "x"], set_terminated f true).
Proof.
  intros f.
  assert (Hname : ∀ c, c ≠ "-"%char → c ≠ "="%char → validName (String c "")).
  { intros c H1 H2. apply validName_intro; [exact H1|].
    simpl. by destruct (Ascii.eqb_spec c "="). }
  assert (Hsc : Scanned ["--a=1"; "-u"; "2"; "-b"]
                        [("a", Some "1"); ("u", Some "2"); ("b", None)]
                        ["--"; "-a"; "x"]).
  { apply (Scanned_flag_equals true "a" "1"); [by apply Hname|].
    apply (Scanned_flag_value false "u" "2");
      [by apply Hname|intros t H; discriminate H|].
    apply (Scanned_flag_alone false "b"); [by apply Hname| |constructor].
    intros v rest [= <- <-] H. exact (H "-" eq_refl). }
  split; [reflexivity|]. split; [exact Hsc|]. split; [reflexivity|].
  destruct (Parse_tidy_reassembles f ["--a=1"; "-u"; "2"; "-b"; "--"; "-a"; "x"] eq_refl)
    as (_ & H).
  destruct (H ["--a=1"; "-u"; "2"; "-b"]
              [("a", Some "1"); ("u", Some "2"); ("b", None)]
              ["--"; "-a"; "x"] eq_refl Hsc) as (Ht & _).
  exact (Ht ["-a"; "x"] eq_refl).
Defined.

(** C2, as stated, fails: a flag that is not defined is dropped from the
    list with its value, so tokens are lost (after Parse the remaining
    arguments are [rest] alone); and a defined flag that stands behind a
    bare token is not moved to the front (after Parse it is not
    bound). *)
Lemma Parse_tidy_keeps_every_token_counterexample :
  let f := flagSetAB (Z.lor ContinueOnError ContinueOnUndefined) in
  isContinueOnUndefined f = true
  ∧ flag.Lookup (base f) "u" = None
  ∧ is_Some (flag.Lookup (base f) "a")
  ∧ Parse_tidy f ["-u"; "1"; "-a"; "2"; "rest"]
    = inr (["-a"; "2"; "rest"], set_terminated f false)
  ∧ (∃ f' h', Parse f ["prog"; "-u"; "1"; "-a"; "2"; "rest"] ∅ = Ret (f', None) h'
              ∧ flag.Args (base f') = ["rest"])
  ∧ Parse_tidy f ["x"; "-a"; "2"]
    = inr ([] ++ ["x"; "-a"; "2"], set_terminated f false)
  ∧ (∃ f' h', Parse f ["prog"; "x"; "-a"; "2"] ∅ = Ret (f', None) h'
              ∧ flag.actual (base f') !! "a" = None).
Proof.
  intros f. split; [reflexivity|]. split; [reflexivity|].
  split; [by eexists|]. split; [vm_compute; reflexivity|].
  split; [eexists _, _; split; vm_compute; reflexivity|].
  split; [vm_compute; reflexivity|].
  eexists _, _; split; vm_compute; reflexivity.
Qed.

End Prescan.

Local Arguments tidyOneArg : simpl never.

(** ** Routing *)

(** Induction on a tree of commands, by its height. *)
Lemma height_subcommand (c : Command) (n : string) (subCmd : Command) :
  subcommands c !! n = Some subCmd → height subCmd < height c.
Proof.
  destruct c as [par nm descr fs act subs]. cbn [subcommands height]. intros Hn.
  rewrite (map_fold_delete_L _ _ n subCmd subs); [lia| |done].
  intros. lia.
Qed.

Lemma Command_subcommands_ind (P : Command → Prop) :
  (∀ c, (∀ n subCmd, subcommands c !! n = Some subCmd → P subCmd) → P c) →
  ∀ c, P c.
Proof.
  intros Hstep c. remember (height c) as k eqn:Hk. revert c Hk.
  induction k as [k IH] using lt_wf_ind. intros c ->.
  apply Hstep. intros n subCmd Hn.
  apply (IH (height subCmd)); [by eapply height_subcommand|done].
Qed.

(** One step of the recursion of [findFiltersAndAction] on a command
    given by its fields. *)
Ltac step_findFiltersAndAction := cbn [findFiltersAndAction].
Ltac unfold_route := unfold route.
Ltac unfold_newAction := unfold newAction.
Ltac unfold_newFilters := unfold newFilters.
Ltac step_newFilters_range := cbn [newFilters_range].
Ltac unfold_Exec := unfold Exec.
Ltac unfold_AddFilter := unfold AddFilter.
Ltac unfold_AddSubcommand := unfold AddSubcommand.
Ltac unfold_SetAction := unfold SetAction.
Ltac unfold_AddSubaction := unfold AddSubaction.

Section RoutingFacts.

Variable tagKeyNonFlag : string.
Variable UnknownError : Z.
Variable NextArgs : FlagSet → list string.

Local Abbreviation newFilters := (newFilters tagKeyNonFlag NextArgs).
Local Abbreviation newAction := (newAction tagKeyNonFlag NextArgs).
Local Abbreviation findFiltersAndAction := (findFiltersAndAction tagKeyNonFlag NextArgs).
Local Abbreviation route := (route tagKeyNonFlag NextArgs).
Local Abbreviation Exec := (Exec tagKeyNonFlag UnknownError NextArgs).
Local Abbreviation Walk := (Walk tagKeyNonFlag NextArgs).

(** The body of [findFiltersAndAction] as the source has it, with the
    subcommand looked up in [c.subcommands]. *)
Lemma findFiltersAndAction_eq (a : App) (c : Command)
    (cmdPath arguments : list string) (w : World) :
  findFiltersAndAction a c cmdPath arguments w =
  (fa <- newFilters a c arguments ;;
   let '(filters, arguments) := fa in
   r <- newAction a c arguments ;;
   let '(action, arguments, found) := r in
   if found then ret (filters, action, cmdPath, true)
   else
     let '(subCmdName, arguments) := SplitArgs arguments in
     let cmdPath :=
       if negb (String.eqb subCmdName "") then cmdPath ++ [subCmdName] else cmdPath in
     match subcommands c !! subCmdName with
     | None =>
       match notFound a with
       | Some fn => ret ([], Some fn, cmdPath, false)
       | None => ThrowStatus StatusNotFound (CauseNotFound cmdPath)
       end
     | Some subCmd =>
       r <- findFiltersAndAction a subCmd cmdPath arguments ;;
       let '(subFilters, action, cmdPath, found) := r in
       if found then ret (filters ++ subFilters, action, cmdPath, true)
       else ret ([], action, cmdPath, false)
     end)%go w.
Proof.
  destruct c as [par nm descr fs act subs]. step_findFiltersAndAction.
  unfold bind.
  destruct (newFilters a _ arguments w) as [[filters arguments'] w1| | |]; try done.
  destruct (newAction a _ arguments' w1) as [[[action arguments''] [|]] w2| | |]; try done.
  destruct (SplitArgs arguments'') as [subCmdName arguments3].
  cbn [subcommands]. rewrite lookup_fmap.
  destruct (subs !! subCmdName) as [subCmd|]; done.
Qed.

Lemma findFiltersAndAction_walk (a : App) c cmdPath arguments w o w' :
  Walk a c cmdPath arguments w o w' →
  findFiltersAndAction a c cmdPath arguments w = found_as a o w'.
Proof.
  induction 1 as [c cmdPath arguments w filters args1 w1 action args2 w2 Hf Ha
                 |c cmdPath arguments w filters args1 w1 action args2 w2 n rest Hf Ha Hs Hl
                 |c cmdPath arguments w filters args1 w1 action args2 w2 n rest
                    subCmd o w3 Hf Ha Hs Hl Hw IH];
    rewrite findFiltersAndAction_eq; unfold bind; rewrite Hf, Ha; [done| |].
  - rewrite Hs, Hl. unfold found_as, extended, ThrowStatus, panic.
    by destruct (notFound a).
  - rewrite Hs, Hl. unfold extended in IH. rewrite IH.
    destruct o as [subFilters act p|p]; simpl; [done|].
    by destruct (notFound a).
Qed.







(** The loop of [route] builds the onion. *)
Lemma wrap_onion (filters : list FilterFunc) (n : nat) :
  ∀ actionFunc w,
    (n ≤ length filters)%nat →
    wrap n filters actionFunc w = Ret (onion (take n filters) actionFunc) w.
Proof.
  induction n as [|i IH]; intros actionFunc w Hn; cbn [wrap]; [done|].
  destruct (_ !! i) as [filter|] eqn:Hi in |- *.
  2: { apply lookup_ge_None in Hi. unfold FilterFunc, ActionFunc, M in *. lia. }
  rewrite IH by lia. f_equal.
  pose proof (take_S_r filters i filter Hi) as Htake.
  unfold onion, FilterFunc, ActionFunc, M in *.
  rewrite Htake. by rewrite fold_right_app.
Qed.

(** What [Exec] does once the route is known. *)
Lemma Exec_routed (a : App) (arguments : list string) (w w' : World)
    (handle : ActionFunc) (ctxObj : Context) :
  route a arguments w = Ret (handle, ctxObj) w' →
  Exec a arguments w = Catch UnknownError (handle ctxObj ;; ret None)%go w'.
Proof. intros Hr. unfold_Exec; unfold Catch, bind. by rewrite Hr. Qed.


(** C5 (amended). When the walk from the root ends on a command
    without action that has no subcommand named by the next bare
    token: without a not-found handler [Exec] returns a status with
    code StatusNotFound; with one, the handler is invoked, alone, on
    the original arguments and the path tried, and [Exec] returns the
    nil status, whose code is zero, when the handler returns, and the
    status the handler throws when it throws one. *)
Theorem Exec_unknown_command (a : App) (arguments : list string)
    (w w' : World) (path : list string) :
  Walk a (Command_ a) [cmdName (Command_ a)] arguments w (Missed path) w' →
  (notFound a = None →
   ∃ stat, Exec a arguments w = Ret stat w' ∧ StatusCode stat = StatusNotFound
           ∧ stat = Some (NewStatus StatusNotFound (CauseNotFound path)))
  ∧ (∀ fn w'', notFound a = Some fn →
       fn (mkContext arguments path) w' = Ret () w'' →
       ∃ stat, Exec a arguments w = Ret stat w'' ∧ StatusCode stat = 0%Z)
  ∧ (∀ fn, notFound a = Some fn →
       Exec a arguments w
       = Catch UnknownError (fn (mkContext arguments path) ;; ret None)%go w')
  ∧ (∀ fn stat w'', notFound a = Some fn →
       fn (mkContext arguments path) w' = Panic (PanicStatus stat) w'' →
       Exec a arguments w = Ret (Some stat) w'')
  ∧ (∀ fn v w'', notFound a = Some fn →
       fn (mkContext arguments path) w' = Panic v w'' →
       Exec a arguments w = Ret (Some (recovered UnknownError v)) w'').
Proof.
  intros Hwalk. apply findFiltersAndAction_walk in Hwalk.
  assert (HExec : ∀ fn, notFound a = Some fn →
    Exec a arguments w
    = Catch UnknownError (fn (mkContext arguments path) ;; ret None)%go w').
  { intros fn Hnf. unfold_Exec; unfold_route; unfold Catch, bind.
    rewrite Hwalk. simpl. rewrite Hnf. simpl. done. }
  split; [|split; [|split; [|split]]].
  - intros Hnf. eexists. unfold_Exec; unfold_route; unfold Catch, bind.
    rewrite Hwalk. simpl. rewrite Hnf. simpl. done.
  - intros fn w'' Hnf Hfn. exists None. rewrite (HExec fn Hnf).
    unfold Catch, bind. by rewrite Hfn.
  - exact HExec.
  - intros fn stat w'' Hnf Hfn. rewrite (HExec fn Hnf).
    unfold Catch, bind. by rewrite Hfn.
  - intros fn v w'' Hnf Hfn. rewrite (HExec fn Hnf).
    unfold Catch, bind. by rewrite Hfn.
Qed.

(** C10. When the walk from the root ends without a command to run and
    a not-found handler is set, the handler [route] returns is the
    not-found handler itself: no filter of the root or of a command on
    the way wraps it, and [Exec] does what the handler alone does. *)
Theorem route_not_found_is_bare (a : App) (arguments : list string)
    (w w' : World) (cmdPath : list string) (fn : ActionFunc) :
  Walk a (Command_ a) [cmdName (Command_ a)] arguments w (Missed cmdPath) w' →
  notFound a = Some fn →
  route a arguments w = Ret (fn, mkContext arguments cmdPath) w'
  ∧ Exec a arguments w
    = Catch UnknownError (fn (mkContext arguments cmdPath) ;; ret None)%go w'.
Proof.
  intros Hwalk Hnf. apply findFiltersAndAction_walk in Hwalk.
  assert (Hroute : route a arguments w = Ret (fn, mkContext arguments cmdPath) w').
  { unfold_route; unfold bind. rewrite Hwalk. simpl. by rewrite Hnf. }
  split; [done|]. by apply Exec_routed.
Qed.

(** C8. No panic leaves [Exec]: a panic raised while the route is
    found (parsing, validation, a missing command) or by the handler
    is turned into the status [Exec] returns, a panicked status being
    returned as it is; when nothing panics [Exec] returns the nil
    status. *)
Theorem Exec_catches_every_panic (a : App) (arguments : list string) (w : World) :
  (∀ v w', Exec a arguments w ≠ Panic v w')
  ∧ (∀ v w', route a arguments w = Panic v w' →
             Exec a arguments w = Ret (Some (recovered UnknownError v)) w')
  ∧ (∀ handle ctxObj w1 v w',
       route a arguments w = Ret (handle, ctxObj) w1 →
       handle ctxObj w1 = Panic v w' →
       Exec a arguments w = Ret (Some (recovered UnknownError v)) w')
  ∧ (∀ handle ctxObj w1 w',
       route a arguments w = Ret (handle, ctxObj) w1 →
       handle ctxObj w1 = Ret () w' →
       Exec a arguments w = Ret None w')
  ∧ (∀ s, recovered UnknownError (PanicStatus s) = s).
Proof.
  split; [|split; [|split; [|split]]].
  - intros v w'. unfold_Exec; unfold Catch.
    by destruct (bind _ _ w).
  - intros v w' Hr. unfold_Exec; unfold Catch, bind. by rewrite Hr.
  - intros handle ctxObj w1 v w' Hr Hh. rewrite (Exec_routed _ _ _ _ _ _ Hr).
    unfold Catch, bind. by rewrite Hh.
  - intros handle ctxObj w1 w' Hr Hh. rewrite (Exec_routed _ _ _ _ _ _ Hr).
    unfold Catch, bind. by rewrite Hh.
  - done.
Qed.

End RoutingFacts.

(** [appAB] is what the registration calls build. *)
Example appAB_registered :
  (r <- AddSubcommand "?" (Command_ (NewApp "app")) "a" "" [FilterOfFunc (logFilter "F1")] ;;
   at_place ["a"]
     (λ c, AddSubaction "?" c "b" "" (ActionOfFunc (logAction "Act"))
                        [FilterOfFunc (logFilter "F2")]) r)%go world0
  = Ret (Command_ appAB) world0.
Proof. vm_compute. reflexivity. Qed.

(** [appF12] is the app with a filter on the root and two on [a]. *)
Example appF12_registered :
  Command_ appF12
  = mkCommand None "app" "" [funcFilter "app" (logFilter "F0")] None
      (<["a" := mkCommand (Some "app") "a" ""
                  [funcFilter "a" (logFilter "F1"); funcFilter "a" (logFilter "F2")]
                  (Some (funcAction "a" (logAction "Act"))) ∅]> ∅).
Proof. vm_compute. reflexivity. Qed.


(** The walk for a first token that names no command. *)
Lemma appF_walk_missing (notFound : option ActionFunc) :
  Walk "?" SubArgs (appF notFound) (Command_ (appF notFound)) ["app"] ["zzz"; "-x"]
       world0 (Missed ["app"; "zzz"]) world0.
Proof.
  apply (Walk_missing "?" SubArgs (appF notFound) (Command_ (appF notFound)) ["app"]
           ["zzz"; "-x"] world0 [logFilter "F0"] ["zzz"; "-x"] world0 None
           ["zzz"; "-x"] world0 "zzz" ["-x"]); reflexivity.
Defined.

Lemma Exec_unknown_command_witness :
  Walk "?" SubArgs (appF None) (Command_ (appF None)) ["app"] ["zzz"; "-x"]
       world0 (Missed ["app"; "zzz"]) world0
  ∧ (∃ stat, Exec "?" (-1) SubArgs (appF None) ["zzz"; "-x"] world0 = Ret stat world0
             ∧ StatusCode stat = StatusNotFound
             ∧ stat = Some (NewStatus StatusNotFound (CauseNotFound ["app"; "zzz"])))
  ∧ (∃ stat, Exec "?" (-1) SubArgs (appF (Some (logAction "404"))) ["zzz"; "-x"] world0
             = Ret stat (mkWorld ∅ ["404"])
             ∧ StatusCode stat = 0%Z).
Proof.
  split; [apply appF_walk_missing|]. split.
  - apply (Exec_unknown_command "?" (-1) SubArgs (appF None) ["zzz"; "-x"]
             world0 world0 ["app"; "zzz"] (appF_walk_missing None)).
    reflexivity.
  - destruct (Exec_unknown_command "?" (-1) SubArgs (appF (Some (logAction "404")))
                ["zzz"; "-x"] world0 world0 ["app"; "zzz"]
                (appF_walk_missing (Some (logAction "404")))) as (_ & Hret & _).
    apply (Hret (logAction "404")); reflexivity.
Defined.

(** C5, as stated, fails for a handler that reports an error the way
    handlers do, by throwing a status: [Exec] returns that status, and
    its code is not zero. *)
Lemma Exec_not_found_handler_throws_counterexample :
  let a := appF (Some (throwing 7)) in
  Walk "?" SubArgs a (Command_ a) ["app"] ["zzz"; "-x"] world0
       (Missed ["app"; "zzz"]) world0
  ∧ notFound a = Some (throwing 7)
  ∧ ∃ stat, Exec "?" (-1) SubArgs a ["zzz"; "-x"] world0
            = Ret (Some stat) (mkWorld ∅ ["thrown"])
            ∧ stat = NewStatus 7 (CauseValue "refused")
            ∧ StatusCode (Some stat) = 7%Z.
Proof.
  intros a. split; [apply appF_walk_missing|]. split; [reflexivity|].
  eexists. split; [reflexivity|]. split; reflexivity.
Qed.

Lemma route_not_found_is_bare_witness :
  Walk "?" SubArgs (appF (Some (logAction "404")))
       (Command_ (appF (Some (logAction "404")))) ["app"] ["zzz"; "-x"]
       world0 (Missed ["app"; "zzz"]) world0
  ∧ route "?" SubArgs (appF (Some (logAction "404"))) ["zzz"; "-x"] world0
    = Ret (logAction "404", mkContext ["zzz"; "-x"] ["app"; "zzz"]) world0
  ∧ Exec "?" (-1) SubArgs (appF (Some (logAction "404"))) ["zzz"; "-x"] world0
    = Ret None (mkWorld ∅ ["404"]).
Proof.
  split; [apply appF_walk_missing|].
  destruct (route_not_found_is_bare "?" (-1) SubArgs (appF (Some (logAction "404")))
              ["zzz"; "-x"] world0 world0 ["app"; "zzz"] (logAction "404")
              (appF_walk_missing _) eq_refl) as [Hroute Hexec].
  split; [exact Hroute|]. rewrite Hexec. reflexivity.
Defined.

(** A known command of the same app runs under the filter of the root;
    the handler for commands that are not found ran without it. *)
Example appF_known_command_is_wrapped :
  Exec "?" (-1) SubArgs (appF (Some (logAction "404"))) ["a"; "b"] world0
  = Ret None (mkWorld ∅ ["F0-entry"; "F1-entry"; "F2-entry"; "Act";
                          "F2-exit"; "F1-exit"; "F0-exit"]).
Proof. vm_compute. reflexivity. Qed.

(** ** Registration and the mutual exclusion of action and subcommands *)

Section Registration.

Variable tagKeyNonFlag : string.

Local Abbreviation AddFilter := (AddFilter tagKeyNonFlag).
Local Abbreviation AddFilters := (AddFilters tagKeyNonFlag).
Local Abbreviation AddSubcommand := (AddSubcommand tagKeyNonFlag).
Local Abbreviation SetAction := (SetAction tagKeyNonFlag).
Local Abbreviation AddSubaction := (AddSubaction tagKeyNonFlag).
Local Abbreviation call := (call tagKeyNonFlag).
Local Abbreviation Reachable := (Reachable tagKeyNonFlag).

Lemma AddFilter_returns c filter w c' w' :
  AddFilter c filter w = Ret c' w' →
  ∃ obj, c' = set_filters c (filters c ++ [obj]).
Proof.
  unfold_AddFilter; unfold bind. intros H.
  destruct filter as [fn|elemType method|method]; simpl in H.
  - injection H as <- _. eauto.
  - destruct (liftHeap (DeepCopy elemType) w) as [p w1| | |]; try done.
    destruct (liftHeap (StructVars tagKeyNonFlag _ p) w1) as [fs w2| | |]; try done.
    simpl in H. injection H as <- _. eauto.
  - injection H as <- _. eauto.
Qed.

Lemma AddFilters_returns filters : ∀ c w c' w',
  AddFilters c filters w = Ret c' w' →
  action c' = action c ∧ subcommands c' = subcommands c.
Proof.
  induction filters as [|filter filters IH]; intros c w c' w' H; simpl in H.
  - by injection H as <- _.
  - unfold bind in H.
    destruct (AddFilter c filter w) as [c1 w1| | |] eqn:H1; try done.
    apply AddFilter_returns in H1 as [obj ->].
    by apply IH in H as [-> ->].
Qed.

Lemma Exclusive_inv c :
  Exclusive c →
  exclusive c ∧ ∀ n subCmd, subcommands c !! n = Some subCmd → Exclusive subCmd.
Proof. by inversion 1. Qed.

Lemma AddSubcommand_returns c cmdName description filters w c' w' :
  AddSubcommand c cmdName description filters w = Ret c' w' →
  action c = None ∧ action c' = None
  ∧ ∃ subCmd, subcommands c' = <[cmdName := subCmd]> (subcommands c)
              ∧ action subCmd = None ∧ subcommands subCmd = ∅.
Proof.
  unfold_AddSubcommand. intros H.
  destruct (action c) eqn:Hact.
  { unfold bind, pathString, bind, path in H. by destruct (parent c). }
  destruct (String.eqb cmdName ""); [done|].
  destruct (subcommands c !! cmdName); [done|].
  unfold bind in H.
  destruct (AddFilters _ filters w) as [subCmd w1| | |] eqn:Hf; try done.
  injection H as <- _. apply AddFilters_returns in Hf as [Ha Hs].
  simpl in *. eauto 10.
Qed.

Lemma SetAction_returns c action w c' w' :
  SetAction c action w = Ret c' w' →
  subcommands c = ∅ ∧ subcommands c' = ∅.
Proof.
  unfold_SetAction. intros H.
  destruct (0 <? size (subcommands c))%nat eqn:Hsize.
  { unfold bind, pathString, bind, path in H. by destruct (parent c). }
  apply Nat.ltb_ge in Hsize.
  assert (Hempty : subcommands c = ∅).
  { apply map_size_empty_iff. lia. }
  unfold bind in H.
  match type of H with
  | match ?m with _ => _ end = _ => destruct m as [obj w1| | |]; try done
  end.
  by injection H as <- _.
Qed.

Lemma Exclusive_insert c n subCmd :
  Exclusive c → action c = None → Exclusive subCmd →
  Exclusive (set_subcommands c (<[n := subCmd]> (subcommands c))).
Proof.
  intros [_ Hsubs]%Exclusive_inv Hact Hsub. constructor; [by left|].
  intros m subCmd'. cbn [subcommands set_subcommands]. rewrite lookup_insert.
  case_decide; [by intros [= <-]|]. apply Hsubs.
Qed.

Lemma Exclusive_leaf c :
  subcommands c = ∅ → Exclusive c.
Proof.
  intros Hempty. constructor; [by right|].
  intros n subCmd. by rewrite Hempty, lookup_empty.
Qed.

(** A registration call that returns keeps the exclusion. *)
Lemma call_Exclusive r c w c' w' :
  Exclusive c → call r c w = Ret c' w' → Exclusive c'.
Proof.
  intros Hc H. destruct r as [n d fs|f|act|n d act fs]; cbn [call] in H.
  - apply AddSubcommand_returns in H as (Hact & Hact' & subCmd & Hs & Ha & He).
    apply Exclusive_inv in Hc as [_ Hsubs].
    constructor; [by left|]. intros m sub. rewrite Hs, lookup_insert.
    case_decide; [intros [= <-]; by apply Exclusive_leaf|apply Hsubs].
  - apply AddFilter_returns in H as [obj ->].
    apply Exclusive_inv in Hc as [Hex Hsubs]. by constructor.
  - apply SetAction_returns in H as [_ He]. by apply Exclusive_leaf.
  - revert H. unfold_AddSubaction. intros H. unfold bind at 1 in H.
    match type of H with
    | match ?m with _ => _ end = _ =>
      destruct m as [c1 w1| | |] eqn:H1; try discriminate H
    end.
    apply AddSubcommand_returns in H1 as (Hact & Hact1 & subCmd & Hs & Ha & He).
    destruct (subcommands c1 !! n) as [sub1|]; [|discriminate H].
    unfold bind in H.
    match type of H with
    | match ?m with _ => _ end = _ =>
      destruct m as [sub2 w2| | |] eqn:H2; try discriminate H
    end.
    injection H as <- _. apply SetAction_returns in H2 as [_ He2].
    apply Exclusive_inv in Hc as [_ Hsubs].
    constructor; [by left|]. intros m sub. cbn [subcommands set_subcommands].
    rewrite lookup_insert.
    case_decide; [intros [= <-]; by apply Exclusive_leaf|].
    rewrite Hs, lookup_insert. case_decide; [done|]. apply Hsubs.
Qed.

Lemma at_place_Exclusive (method : Command → M World Command) :
  (∀ c w c' w', Exclusive c → method c w = Ret c' w' → Exclusive c') →
  ∀ place c w c' w',
    Exclusive c → at_place place method c w = Ret c' w' → Exclusive c'.
Proof.
  intros Hm. induction place as [|n place IH]; intros c w c' w' Hc H;
    cbn [at_place] in H.
  - by eapply Hm.
  - destruct (subcommands c !! n) as [subCmd|] eqn:Hn; [|done].
    unfold bind in H.
    match type of H with
    | match ?m with _ => _ end = _ =>
      destruct m as [subCmd' w1| | |] eqn:H1; try discriminate H
    end.
    injection H as <- _.
    pose proof (Exclusive_inv _ Hc) as [[Hact|Hempty] Hsubs].
    + apply Exclusive_insert; eauto.
    + by rewrite Hempty, lookup_empty in Hn.
Qed.

(** Every tree of commands that registration can build keeps an action
    and subcommands apart, at every command. *)
Lemma Reachable_Exclusive root : Reachable root → Exclusive root.
Proof.
  induction 1 as [prog|root place r w root' w' _ IH H].
  - by apply Exclusive_leaf.
  - eapply at_place_Exclusive; [|exact IH|exact H].
    intros. by eapply call_Exclusive.
Qed.

End Registration.

(** C6. The check is made at registration, but the fault is not always
    raised: on a command that has a parent the message of the panic is
    built by [pathString], whose loop in [path] never leaves the command
    it starts on.  Adding a subcommand to [a b], which has an action,
    and setting an action on [a], which has a subcommand, do not panic:
    the calls never return.  The same calls on a root do panic. *)
Theorem registration_fault_spins_below_the_root :
  action cmdB ≠ None
  ∧ AddSubcommand "?" cmdB "c" "" [] world0 = Diverge
  ∧ at_place ["a"; "b"] (λ c, AddSubcommand "?" c "c" "" []) (Command_ appAB) world0
    = Diverge
  ∧ subcommands cmdA ≠ ∅
  ∧ SetAction "?" cmdA (ActionOfFunc (logAction "Act")) world0 = Diverge
  ∧ (∃ msg, SetAction "?" (Command_ appAB) (ActionOfFunc (logAction "Act")) world0
            = Panic (PanicMsg msg) world0)
  ∧ (∃ msg, AddSubcommand "?" (set_action (Command_ (NewApp "app"))
                                          (Some (funcAction "app" (logAction "Act"))))
                          "c" "" [] world0
            = Panic (PanicMsg msg) world0).
Proof.
  split; [done|]. split; [reflexivity|]. split; [reflexivity|].
  split.
  { intros H. assert (Hl : subcommands cmdA !! "b" = Some cmdB) by reflexivity.
    by rewrite H, lookup_empty in Hl. }
  split; [reflexivity|]. split; eexists; vm_compute; reflexivity.
Qed.

(** ** Which cells an invocation writes *)

Lemma preserved_refl h : preserved h h.
Proof. by intros l _. Qed.

Lemma preserved_trans h1 h2 h3 :
  preserved h1 h2 → preserved h2 h3 → preserved h1 h3.
Proof.
  intros H12 H23 l Hl. rewrite <- (H12 l Hl). apply H23.
  by rewrite (H12 l Hl).
Qed.

Lemma Set_frame v s h h' l :
  Set_ v s h = Some h' → l ≠ cell v → h' !! l = h !! l.
Proof.
  unfold Set_. destruct (conv v s); [|done].
  intros [= <-] Hl. by rewrite lookup_insert_ne.
Qed.

(** The base scanner keeps the table of flags and writes only cells
    that flags of the table are bound to. *)
Lemma parseOne_frame (b : flag.FlagSet) (h : Heap) (l : loc) :
  (∀ n fl, flag.formal b !! n = Some fl → cell (Value_ fl) ≠ l) →
  flag.formal (flag.parseOne b h).1.2 = flag.formal b
  ∧ flag.errorHandling (flag.parseOne b h).1.2 = flag.errorHandling b
  ∧ (flag.parseOne b h).2 !! l = h !! l.
Proof.
  intros Hl. unfold flag.parseOne.
  destruct (flag.args b) as [|s args']; [done|].
  destruct (_ || _); [done|]. destruct (_ && _); [done|].
  destruct (_ || _); [done|].
  destruct (match equalsAt _ with Some _ => _ | None => _ end) as [[nm hasValue] value].
  cbn [flag.formal flag.set_args].
  destruct (flag.formal b !! nm) as [fl|] eqn:Hfl.
  2: { by destruct (_ || _). }
  specialize (Hl _ _ Hfl).
  destruct (IsBoolFlag (Value_ fl)).
  - destruct hasValue.
    + destruct (Set_ _ value h) as [h'|] eqn:Hset; [|done].
      split; [done|]. split; [done|]. by eapply Set_frame.
    + destruct (Set_ _ "true" h) as [h'|] eqn:Hset; [|done].
      split; [done|]. split; [done|]. by eapply Set_frame.
  - destruct hasValue.
    + simpl. destruct (Set_ _ value h) as [h'|] eqn:Hset; [|done].
      split; [done|]. split; [done|]. by eapply Set_frame.
    + destruct args' as [|v args'']; simpl; [done|].
      destruct (Set_ _ v h) as [h'|] eqn:Hset; [|done].
      split; [done|]. split; [done|]. by eapply Set_frame.
Qed.

Lemma parseLoop_frame (l : loc) (n : nat) :
  ∀ b h,
    length (flag.args b) = n →
    (∀ k fl, flag.formal b !! k = Some fl → cell (Value_ fl) ≠ l) →
    scan_kept l (flag.formal b) h (flag.parseLoop b h).
Proof.
  induction n as [n IH] using lt_wf_ind. intros b h Hn Hl.
  rewrite parseLoop_step.
  pose proof (parseOne_frame b h l Hl) as (Hf & He & Hh).
  pose proof (flag.parseOne_shrinks b h) as Hshrink.
  destruct (flag.parseOne b h) as [[[seen e] b'] h']. simpl in Hf, He, Hh, Hshrink.
  assert (Hnext : (length (flag.args b') < n)%nat →
                  scan_kept l (flag.formal b) h (flag.parseLoop b' h')).
  { intros Hlt. specialize (IH _ Hlt b' h' eq_refl).
    rewrite Hf in IH. specialize (IH Hl).
    unfold scan_kept in *. destruct (flag.parseLoop b' h') as [[b'' e'] h''|v h''|c h''|];
      rewrite <- ?Hh; done. }
  destruct seen.
  - apply Hnext. rewrite <- Hn. by apply Hshrink.
  - destruct e as [e|]; [|done].
    unfold flag.failed. repeat (case_match; try done).
    apply Hnext. rewrite <- Hn. by apply Nat.ltb_lt.
Qed.

Lemma parseNonFlags_cons f k v args h :
  parseNonFlags f k (v :: args) h =
  match parseOneNonFlag f k v h with
  | (true, _, f', h') => parseNonFlags f' (k + 1) args h'
  | (false, None, f', h') => Ret (f', None) h'
  | (false, Some e, f', h') =>
    flag.failed (flag.ErrorHandling (base f')) e f' h'
                (parseNonFlags f' (k + 1) args h')
  end.
Proof. reflexivity. Qed.

Lemma parseNonFlags_frame (l : loc) (args : list string) :
  ∀ f k h,
    (∀ i fl, nonFormal f !! i = Some fl → cell (Value_ fl) ≠ l) →
    walk_kept l f h (parseNonFlags f k args h).
Proof.
  induction args as [|v args IH]; intros f k h Hl;
    [done|rewrite parseNonFlags_cons].
  assert (Hone : let r := parseOneNonFlag f k v h in
                 base r.1.2 = base f ∧ nonFormal r.1.2 = nonFormal f
                 ∧ r.2 !! l = h !! l).
  { unfold parseOneNonFlag. destruct (String.eqb v "--"); [done|].
    destruct (nonFormal f !! k) as [fl|] eqn:Hfl; [|done].
    destruct (Set_ _ v h) as [h'|] eqn:Hset; [|done].
    simpl. split; [done|]. split; [done|]. eapply Set_frame; [done|].
    intros ->. by eapply Hl. }
  destruct (parseOneNonFlag f k v h) as [[[seen e] f'] h'].
  simpl in Hone. destruct Hone as (Hb & Hnf & Hh).
  assert (Hnext : walk_kept l f h (parseNonFlags f' (k + 1) args h')).
  { specialize (IH f' (k + 1)%Z h'). rewrite Hnf in IH. specialize (IH Hl).
    unfold walk_kept in *.
    destruct (parseNonFlags f' (k + 1) args h') as [[f'' e'] h''|v' h''|c h''|];
      rewrite ?Hh, ?Hb, ?Hnf in IH; first [exact IH | exact I]. }
  destruct seen; [exact Hnext|]. destruct e as [e|].
  - unfold flag.failed. repeat (case_match; try exact Hnext; try done);
      simpl; by rewrite Hb, Hnf.
  - simpl. by rewrite Hb, Hnf.
Qed.

Lemma Parse_tidy_tables f arguments arguments' f' :
  Parse_tidy f arguments = inr (arguments', f') →
  base f' = base f ∧ nonFormal f' = nonFormal f.
Proof.
  unfold Parse_tidy. destruct (isContinueOnUndefined f); [|by intros [= _ <-]].
  destruct (tidyArgs _ _) as [[[flagArgs nonFlagArgs] t] [e|]]; [done|].
  by intros [= _ <-].
Qed.

(** Parse keeps the tables of the flag set and writes only cells that
    its flags and non-flags are bound to. *)
Lemma Parse_frame (l : loc) (f : FlagSet) (arguments : list string) (h : Heap) :
  ¬ bound f l →
  walk_kept l f h (Parse f arguments h).
Proof.
  intros Hl. unfold Parse. destruct (SplitArgs arguments) as [_x arguments1].
  destruct (Parse_tidy f arguments1) as [e|[arguments2 f1]] eqn:Htidy; [done|].
  apply Parse_tidy_tables in Htidy as [Hb Hnf].
  assert (Hformal : ∀ k fl, flag.formal (base f) !! k = Some fl → cell (Value_ fl) ≠ l).
  { intros k fl Hk <-. apply Hl. left. eauto. }
  assert (HnonFormal : ∀ i fl, nonFormal f !! i = Some fl → cell (Value_ fl) ≠ l).
  { intros i fl Hi <-. apply Hl. right. eauto. }
  unfold bind, flag.Parse.
  pose proof (parseLoop_frame l _ (flag.set_args (flag.set_parsed (base f1) true) arguments2)
                h eq_refl) as Hscan.
  simpl in Hscan. rewrite Hb in Hscan. specialize (Hscan Hformal).
  rewrite Hb.
  destruct (flag.parseLoop _ h) as [[b' e] h1|v h1|c h1|]; [|done..].
  destruct Hscan as [Hfm Hh1]. destruct e as [e|]; [simpl; by rewrite Hfm, Hnf|].
  assert (Hwalk : walk_kept l f h
            (parseNonFlags (set_base f1 b') 0 (flag.Args (base (set_base f1 b'))) h1)).
  { pose proof (parseNonFlags_frame l (flag.Args (base (set_base f1 b')))
                  (set_base f1 b') 0%Z h1) as Hw.
    simpl in Hw. rewrite Hnf in Hw. specialize (Hw HnonFormal).
    unfold walk_kept in *. simpl.
    destruct (parseNonFlags _ _ _ h1) as [[f'' e'] h''|v' h''|c h''|];
      simpl in Hw; rewrite ?Hh1, ?Hfm, ?Hnf in Hw; first [exact Hw | exact I]. }
  destruct (terminated (set_base f1 b')); [simpl; by rewrite Hfm, Hnf|].
  destruct (isContinueOnUndefined (set_base f1 b')); [exact Hwalk|].
  destruct (_ =? _)%nat; [simpl; by rewrite Hfm, Hnf|].
  destruct (if (_ <? 0)%Z then _ else _) as [a|]; [|done].
  destruct (String.eqb a "--"); [simpl; by rewrite Hfm, Hnf|exact Hwalk].
Qed.

(** A new object lives in cells that were not in use, and making it
    writes no other cell. *)
Lemma New_fresh (elemType : list Field) :
  ∀ h p h',
    New elemType h = (p, h') →
    (∀ l, l ∈ cells p → h !! l = None)
    ∧ (∀ l, l ∉ cells p → h' !! l = h !! l).
Proof.
  induction elemType as [|fd elemType IH]; intros h p h' HNew; cbn [New] in HNew.
  - injection HNew as <- <-. split; [by intros l Hl%elem_of_nil|done].
  - destruct (New elemType _) as [p' h''] eqn:Hrec. injection HNew as <- <-.
    apply IH in Hrec as [Hfresh Hother]. unfold cells in *. cbn [fmap list_fmap].
    split.
    + intros l [->|Hl]%elem_of_cons.
      * apply not_elem_of_dom, is_fresh.
      * specialize (Hfresh l Hl). by apply lookup_insert_None in Hfresh as [? _].
    + intros l [Hne Hl]%not_elem_of_cons. rewrite (Hother l Hl).
      by rewrite lookup_insert_ne.
Qed.

Lemma StructVars_frame (tag : string) (p : Object) :
  ∀ f h, bind_kept p f h (StructVars tag f p h).
Proof.
  induction p as [|[fd l0] p IH]; intros f h; cbn [StructVars].
  - split; auto.
  - unfold bind at 1, store. unfold bind at 1.
    set (h1 := <[l0 := fieldDef fd]> h).
    assert (Hh1 : ∀ l, l ∉ cells ((fd, l0) :: p) → h1 !! l = h !! l).
    { intros l [Hne _]%not_elem_of_cons. unfold h1. by rewrite lookup_insert_ne. }
    assert (Hstep : ∀ f1,
              (∀ l, bound f1 l → bound f l ∨ l = l0) →
              bind_kept ((fd, l0) :: p) f h (StructVars tag f1 p h1)).
    { intros f1 Hf1. specialize (IH f1 h1). unfold bind_kept in *.
      destruct (StructVars tag f1 p h1) as [f' h'|v h'|c h'|]; [|..|done].
      - destruct IH as [Hb Hh]. split.
        + intros l [Hl|Hl]%Hb; [|right; by apply elem_of_cons; right].
          apply Hf1 in Hl as [Hl| ->]; [by left|right; by apply elem_of_cons; left].
        + intros l Hl. rewrite <- (Hh1 l Hl). apply Hh.
          by apply not_elem_of_cons in Hl as [_ Hl].
      - intros l Hl. rewrite <- (Hh1 l Hl). apply IH.
        by apply not_elem_of_cons in Hl as [_ Hl].
      - intros l Hl. rewrite <- (Hh1 l Hl). apply IH.
        by apply not_elem_of_cons in Hl as [_ Hl]. }
    destruct (fieldTag fd) as [name|index].
    + unfold bind, flag.Var.
      destruct (flag.formal (base f) !! name) eqn:Hname; [exact Hh1|].
      apply Hstep. intros l [(n & fl & Hn & Hc)|(i & fl & Hi & Hc)].
      * simpl in Hn. rewrite lookup_insert in Hn. case_decide.
        { injection Hn as <-. simpl in Hc. by right. }
        left. left. eauto.
      * left. right. eauto.
    + unfold NonVar. destruct (index <? 0)%Z; [exact Hh1|].
      destruct (nonFormal f !! index) eqn:Hindex; [exact Hh1|].
      apply Hstep. intros l [(n & fl & Hn & Hc)|(i & fl & Hi & Hc)].
      * left. left. eauto.
      * simpl in Hi. rewrite lookup_insert in Hi. case_decide.
        { injection Hi as <-. simpl in Hc. by right. }
        left. right. eauto.
Qed.

Lemma NewFlagSet_unbound name eh l : ¬ bound (NewFlagSet name eh) l.
Proof.
  unfold NewFlagSet. destruct (cleanBit eh ContinueOnUndefined) as [eh' u].
  intros [(n & fl & Hn & _)|(i & fl & Hi & _)]; simpl in *;
    by rewrite lookup_empty in *.
Qed.

(** Making the option struct of a filter or action, binding it to a new
    flag set and parsing into it keeps every cell that was in use. *)
Lemma instantiate_kept (tag cmdName : string) (eh : Z) (elemType : list Field)
    (arguments : list string) (w : World) :
  ∃ newObj w1,
    liftHeap (DeepCopy elemType) w = Ret newObj w1
    ∧ kept w (Ret newObj w1)
    ∧ match liftHeap (StructVars tag (NewFlagSet cmdName eh) newObj) w1 with
      | Ret flagSet w2 =>
        kept w (Ret flagSet w2)
        ∧ kept w (liftHeap (Parse flagSet arguments) w2)
      | r => kept w r
      end.
Proof.
  unfold liftHeap at 1. unfold DeepCopy.
  destruct (New elemType (heap w)) as [p h1] eqn:HNew.
  apply New_fresh in HNew as [Hfresh Hother].
  assert (Hout : ∀ l, is_Some (heap w !! l) → l ∉ cells p).
  { intros l [x Hx] Hl. apply Hfresh in Hl. congruence. }
  exists p, (mkWorld h1 (out w)). split; [done|].
  assert (H1 : preserved (heap w) h1).
  { intros l Hl. apply Hother. by apply Hout. }
  split; [done|].
  unfold liftHeap at 1. cbn [heap out].
  pose proof (StructVars_frame tag p (NewFlagSet cmdName eh) h1) as Hbind.
  unfold bind_kept in Hbind.
  destruct (StructVars tag _ p h1) as [flagSet h2|v h2|c h2|]; [|..|done].
  - destruct Hbind as [Hbound Hh2].
    assert (H2 : preserved (heap w) h2).
    { intros l Hl. rewrite <- (H1 l Hl). apply Hh2. by apply Hout. }
    split; [done|].
    unfold kept, liftHeap. cbn [heap out].
    destruct (Parse flagSet arguments h2) as [[f' e] h3|v h3|c h3|] eqn:HParse;
      cbn [final heap out]; [| | |done].
    all: split; [|done]; intros l Hl; rewrite <- (H2 l Hl).
    all: assert (Hnb : ¬ bound flagSet l)
           by (intros [Hb|Hb]%Hbound;
               [by apply NewFlagSet_unbound in Hb|by apply Hout in Hl]).
    all: pose proof (Parse_frame l flagSet arguments h2 Hnb) as Hw;
      rewrite HParse in Hw; simpl in Hw; first [apply Hw | exact Hw].
  - split; [|done]. intros l Hl. cbn [heap]. rewrite <- (H1 l Hl).
    apply Hbind. by apply Hout.
  - split; [|done]. intros l Hl. cbn [heap]. rewrite <- (H1 l Hl).
    apply Hbind. by apply Hout.
Qed.

Lemma kept_trans (w w1 : World) {A} (r : Res World A) :
  preserved (heap w) (heap w1) → out w1 = out w → kept w1 r → kept w r.
Proof.
  unfold kept. intros Hp Ho. destruct (final r) as [w'|]; [|done].
  intros [Hp' Ho']. split; [by eapply preserved_trans|congruence].
Qed.

Lemma kept_refl (w : World) {A} (a : A) : kept w (Ret a w).
Proof. split; [apply preserved_refl|done]. Qed.


Section Isolation.

Variable tagKeyNonFlag : string.
Variable UnknownError : Z.
Variable NextArgs : FlagSet → list string.

Local Abbreviation newFilters_range := (newFilters_range tagKeyNonFlag NextArgs).
Local Abbreviation newFilters := (newFilters tagKeyNonFlag NextArgs).
Local Abbreviation newAction := (newAction tagKeyNonFlag NextArgs).
Local Abbreviation findFiltersAndAction := (findFiltersAndAction tagKeyNonFlag NextArgs).
Local Abbreviation route := (route tagKeyNonFlag NextArgs).

Lemma newFilters_range_kept (a : App) (cmdName : string) (arguments : list string)
    (filters : list filterObject.t) :
  ∀ args w, kept w (newFilters_range a cmdName arguments filters args w).
Proof.
  induction filters as [|filter filters IH]; intros args w; step_newFilters_range.
  - apply kept_refl.
  - destruct (filterObject.filterFunc filter) as [fn|].
    { unfold bind. specialize (IH args w).
      destruct (newFilters_range a cmdName arguments filters args w); exact IH. }
    destruct (filterObject.factory filter) as [factory|];
      [|split; [apply preserved_refl|done]].
    destruct (instantiate_kept tagKeyNonFlag cmdName
                (ErrorHandling (filterObject.flagSet filter))
                (filterElemType factory) arguments w)
      as (newObj & w1 & HNew & _ & Hrest).
    unfold bind at 1. rewrite HNew. unfold bind at 1.
    destruct (liftHeap (StructVars _ _ newObj) w1) as [flagSet w2|v w2|c w2|];
      [|exact Hrest..].
    destruct Hrest as [_ HParse]. unfold bind at 1.
    destruct (liftHeap (Parse flagSet arguments) w2) as [parsed w3|v w3|c w3|];
      [|exact HParse..].
    destruct HParse as [Hp3 Ho3]. unfold bind at 1.
    destruct parsed as [flagSet' [e|]]; [by split|]. cbn [CheckStatus snd ret].
    unfold bind at 1. unfold bind at 1.
    destruct (match validator a with Some _ => _ | None => _ end) as [e|];
      [by split|]. cbn [CheckStatus ret].
    unfold bind.
    match goal with
    | |- kept _ (match ?m with _ => _ end) =>
      assert (Hrec : kept w3 m) by apply IH;
        apply (kept_trans w w3) in Hrec; [|done..];
        destruct m; exact Hrec
    end.
Qed.

Lemma newAction_kept (a : App) (c : Command) (cmdline : list string) (w : World) :
  kept w (newAction a c cmdline w).
Proof.
  unfold_newAction. destruct (action c) as [act|]; [|apply kept_refl].
  destruct (actionObject.actionFunc act) as [fn|]; [apply kept_refl|].
  destruct (actionObject.actionFactory act) as [factory|];
    [|split; [apply preserved_refl|done]].
  destruct (instantiate_kept tagKeyNonFlag
              (flag.Name (base (actionObject.flagSet act)))
              (ErrorHandling (actionObject.flagSet act))
              (actionElemType factory) cmdline w)
    as (newObj & w1 & HNew & _ & Hrest).
  unfold bind at 1. rewrite HNew. unfold bind at 1.
  destruct (liftHeap (StructVars _ _ newObj) w1) as [flagSet w2|v w2|c' w2|];
    [|exact Hrest..].
  destruct Hrest as [_ HParse]. unfold bind at 1.
  destruct (liftHeap (Parse flagSet cmdline) w2) as [parsed w3|v w3|c' w3|];
    [|exact HParse..].
  destruct HParse as [Hp3 Ho3]. unfold bind at 1.
  destruct parsed as [flagSet' [e|]]; [by split|]. cbn [CheckStatus snd ret].
  unfold bind at 1. unfold bind at 1.
  destruct (match validator a with Some _ => _ | None => _ end) as [e|];
    by split.
Qed.

Lemma findFiltersAndAction_kept (a : App) (c : Command) :
  ∀ cmdPath arguments w, kept w (findFiltersAndAction a c cmdPath arguments w).
Proof.
  induction c as [c IH] using Command_subcommands_ind.
  intros cmdPath arguments w. rewrite findFiltersAndAction_eq.
  unfold bind at 1.
  pose proof (newFilters_range_kept a (cmdName c) arguments (filters c) arguments w)
    as Hf.
  unfold_newFilters.
  destruct (newFilters_range a _ arguments (filters c) arguments w)
    as [[fs args1] w1|v w1|e w1|]; [|exact Hf..].
  destruct Hf as [Hp1 Ho1]. unfold bind at 1.
  pose proof (newAction_kept a c args1 w1) as Ha.
  apply (kept_trans w w1) in Ha; [|done..].
  destruct (newAction a c args1 w1) as [[[act args2] found] w2|v w2|e w2|];
    [|exact Ha..].
  destruct found; [exact Ha|]. destruct Ha as [Hp2 Ho2].
  destruct (SplitArgs args2) as [subCmdName args3].
  destruct (subcommands c !! subCmdName) as [subCmd|] eqn:Hsub.
  - pose proof (IH _ _ Hsub
                  (if negb (String.eqb subCmdName "") then cmdPath ++ [subCmdName]
                   else cmdPath) args3 w2) as Hrec.
    apply (kept_trans w w2) in Hrec; [|done..].
    unfold bind.
    destruct (findFiltersAndAction a subCmd _ args3 w2)
      as [[[[subFilters act'] cmdPath'] found'] w3|v w3|e w3|]; [|exact Hrec..].
    by destruct found'.
  - destruct (notFound a); by split.
Qed.

(** C9. Finding the route, which is where [Exec] binds the values of
    flags, writes only cells of the option structs it has just made:
    every cell that was in use before the call, the cells of the
    structs made at registration and by earlier invocations among
    them, holds afterwards what it held before, however the call ends,
    and nothing is printed.  The tree of commands itself is an
    argument that is only read. *)
Theorem route_keeps_cells_in_use (a : App) (arguments : list string)
    (w w' : World) (l : loc) :
  final (route a arguments w) = Some w' →
  is_Some (heap w !! l) →
  heap w' !! l = heap w !! l ∧ out w' = out w.
Proof.
  intros Hfinal Hl.
  assert (Hkept : kept w (route a arguments w)).
  { unfold_route; unfold bind at 1.
    pose proof (findFiltersAndAction_kept a (Command_ a) [cmdName (Command_ a)]
                  arguments w) as Hfind.
    destruct (findFiltersAndAction a (Command_ a) _ arguments w)
      as [[[[fs act] cmdPath] found] w1|v w1|e w1|]; [|exact Hfind..].
    destruct act as [actionFunc|]; [|exact Hfind].
    unfold bind. destruct found; [|exact Hfind].
    rewrite wrap_onion by done. exact Hfind. }
  unfold kept in Hkept. rewrite Hfinal in Hkept. destruct Hkept as [Hp Ho].
  split; [by apply Hp|done].
Qed.

End Isolation.

Lemma route_keeps_cells_in_use_witness :
  let worldAfter :=
    mkWorld (<[1%positive := ""]> (<[2%positive := ""]>
              (<[3%positive := "G"]> (<[4%positive := "1"]> ∅)))) [] in
  final (route "?" SubArgs appS ["-g"; "G"; "--"; "a"; "-x"; "1"] worldS)
  = Some worldAfter
  ∧ is_Some (heap worldS !! 1%positive)
  ∧ (heap worldAfter !! 1%positive = heap worldS !! 1%positive
     ∧ out worldAfter = out worldS).
Proof.
  intros worldAfter.
  assert (Hfinal : final (route "?" SubArgs appS ["-g"; "G"; "--"; "a"; "-x"; "1"] worldS)
                   = Some worldAfter) by (vm_compute; reflexivity).
  assert (Hused : is_Some (heap worldS !! 1%positive)) by (by eexists).
  split; [exact Hfinal|]. split; [exact Hused|].
  exact (route_keeps_cells_in_use "?" SubArgs appS _ worldS worldAfter 1%positive
           Hfinal Hused).
Defined.

(** Two invocations in a row: each binds its own cells, and the structs
    made at registration (cells 1 and 2) stay as they were. *)
Example Exec_twice_shares_no_cell :
  ∃ w1 w2,
    Exec "?" (-1) SubArgs appS ["-g"; "G"; "--"; "a"; "-x"; "1"] worldS = Ret None w1
    ∧ Exec "?" (-1) SubArgs appS ["--"; "a"; "-x"; "2"] w1 = Ret None w2
    ∧ out w2 = ["g=G"; "x=1"; "g="; "x=2"]
    ∧ heap w2
      = list_to_map [(1, ""); (2, ""); (3, "G"); (4, "1"); (5, ""); (6, "2")]%positive.
Proof.
  eexists _, _. split; [vm_compute; reflexivity|].
  split; [vm_compute; reflexivity|]. split; vm_compute; reflexivity.
Qed.

(** Faults on the way, as [Exec] returns them: a flag without its value
    and a malformed flag (parse failed), a validator that refuses
    (validate failed), and a handler that panics with a text. *)
Example Exec_returns_faults_as_statuses :
  (∃ w, Exec "?" (-1) SubArgs appS ["--"; "a"; "-x"] worldS
        = Ret (Some (NewStatus StatusParseFailed (CauseError (ErrNeedsArg "x")))) w)
  ∧ (∃ w, Exec "?" (-1) SubArgs appS ["-g=1"; "---"; "a"] worldS
          = Ret (Some (NewStatus StatusParseFailed (CauseError (ErrBadSyntax "---")))) w)
  ∧ (∃ w, Exec "?" (-1) SubArgs
               (SetValidator appS (Some (λ _ _, Some (ErrValidate "refused"))))
               ["--"; "a"; "-x"; "1"] worldS
          = Ret (Some (NewStatus StatusValidateFailed
                                 (CauseError (ErrValidate "refused")))) w)
  ∧ Exec "?" (-1) SubArgs (appF (Some (λ c, panic (PanicMsg "boom")))) ["zzz"] world0
    = Ret (Some (NewStatus (-1) (CauseValue "boom"))) world0.
Proof.
  split; [eexists; vm_compute; reflexivity|].
  split; [eexists; vm_compute; reflexivity|].
  split; [eexists; vm_compute; reflexivity|].
  vm_compute. reflexivity.
Qed.

(* ===================================================================== *)
(** * Further properties *)
(* ===================================================================== *)

Local Arguments GoString.from : simpl never.
Local Arguments GoString.upto : simpl never.
Local Arguments equalsAt : simpl never.

(** ** The scanner, token by token *)

(** X1. The scanner reports an error exactly on a first token that
    starts with a dash or two and then an equals sign or one more dash
    ([-=...], [--=...], [---...]); the error names the token, and
    nothing is taken off the list. *)
Theorem tidyOneArg_err_iff (args : list string) (e : Error) :
  (OneArg.err (tidyOneArg args) = Some e
   ↔ ∃ s rest, args = s :: rest ∧ malformed s ∧ e = ErrBadSyntax s)
  ∧ (OneArg.err (tidyOneArg args) = Some e →
     OneArg.seen (tidyOneArg args) = false
     ∧ OneArg.terminated (tidyOneArg args) = false
     ∧ OneArg.lastArgs (tidyOneArg args) = args).
Proof.
  pose proof (tidyOneArg_err args) as H. split; [split|].
  - intros He. rewrite He in H. destruct H as (s & rest & ? & ? & ? & _). eauto.
  - intros (s & rest & -> & Hm & ->).
    destruct (OneArg.err (tidyOneArg (s :: rest))) as [e'|].
    + destruct H as (s' & rest' & [= <- <-] & _ & -> & _). done.
    + by destruct (H s rest).
  - intros He. rewrite He in H. destruct H as (s & rest & _ & _ & _ & ->). done.
Qed.

(** X2. Writing a flag and reading it back: for a name that is not
    empty, has no dash in front and no equals sign, after one dash or
    two, the scanner reads [name=value] as the name with that value,
    the name followed by a token without leading dash as the name with
    that token as its value, and the name alone or followed by a token
    with a leading dash as the name without value; it takes exactly
    these tokens off the list. *)
Theorem tidyOneArg_reads_what_is_written (two : bool) (name : string)
    (rest : list string) :
  validName name →
  let flag := (if two then "--" else "-") +:+ name in
  (∀ value, tidyOneArg ((flag +:+ "=" +:+ value) :: rest)
            = OneArg.mk rest false name (Some value) true None)
  ∧ (∀ v, dashless v →
          tidyOneArg (flag :: v :: rest) = OneArg.mk rest false name (Some v) true None)
  ∧ (tidyOneArg [flag] = OneArg.mk [] false name None true None)
  ∧ (∀ v, ¬ dashless v →
          tidyOneArg (flag :: v :: rest) = OneArg.mk (v :: rest) false name None true None).
Proof. apply tidyOneArg_written. Qed.

Lemma tidyOneArg_reads_what_is_written_witness :
  validName "name"
  ∧ tidyOneArg ["--name=v"; "rest"] = OneArg.mk ["rest"] false "name" (Some "v") true None
  ∧ tidyOneArg ["-name"; "v"; "rest"] = OneArg.mk ["rest"] false "name" (Some "v") true None
  ∧ tidyOneArg ["-name"; "-v"; "rest"]
    = OneArg.mk ["-v"; "rest"] false "name" None true None.
Proof.
  assert (Hname : validName "name") by (apply validName_intro; [discriminate|reflexivity]).
  split; [exact Hname|].
  destruct (tidyOneArg_reads_what_is_written true "name" ["rest"] Hname) as (H1 & _).
  destruct (tidyOneArg_reads_what_is_written false "name" ["rest"] Hname)
    as (_ & H2 & _ & H4).
  split; [exact (H1 "v")|]. split.
  - apply (H2 "v"). intros t H. discriminate H.
  - apply (H4 "-v"). intros H. exact (H "v" eq_refl).
Defined.

(** X3. Whatever the scanner reports as a flag was written as one: the
    name it hands out is not empty, has no dash in front and no equals
    sign, and the tokens it took off the list are one dash or two and
    that name, with the value after an equals sign, or followed by the
    value as a token without leading dash, or alone. *)
Theorem tidyOneArg_seen_is_a_flag (args : list string) :
  OneArg.seen (tidyOneArg args) = true →
  let r := tidyOneArg args in
  validName (OneArg.name r) ∧ OneArg.terminated r = false ∧ OneArg.err r = None
  ∧ ∃ two : bool,
      let flag := (if two then "--" else "-") +:+ OneArg.name r in
      (∃ value, OneArg.valuePtr r = Some value
                ∧ args = (flag +:+ "=" +:+ value) :: OneArg.lastArgs r)
      ∨ (∃ v, dashless v ∧ OneArg.valuePtr r = Some v
              ∧ args = flag :: v :: OneArg.lastArgs r)
      ∨ (OneArg.valuePtr r = None ∧ args = flag :: OneArg.lastArgs r
         ∧ ∀ v rest, OneArg.lastArgs r = v :: rest → ¬ dashless v).
Proof. apply tidyOneArg_seen. Qed.

Lemma tidyOneArg_seen_is_a_flag_witness :
  OneArg.seen (tidyOneArg ["--name=v"; "rest"]) = true
  ∧ validName (OneArg.name (tidyOneArg ["--name=v"; "rest"]))
  ∧ OneArg.name (tidyOneArg ["--name=v"; "rest"]) = "name".
Proof.
  split; [reflexivity|]. split; [|reflexivity].
  exact (proj1 (tidyOneArg_seen_is_a_flag ["--name=v"; "rest"] eq_refl)).
Defined.

(** ** The scan of tolerant mode under any filter *)

(** What one step of the scan takes off the list. *)
Lemma tidyOneArg_steps (args : list string) :
  let r := tidyOneArg args in
  (OneArg.seen r = false ∧ OneArg.terminated r = false ∧ OneArg.lastArgs r = args)
  ∨ (OneArg.seen r = false ∧ OneArg.terminated r = true
     ∧ args = "--" :: OneArg.lastArgs r)
  ∨ (OneArg.seen r = true ∧ OneArg.terminated r = false
     ∧ ∃ step, args = step ++ OneArg.lastArgs r ∧ (1 ≤ length step)%nat).
Proof.
  cbv zeta. destruct (OneArg.seen (tidyOneArg args)) eqn:Hs.
  - right; right. destruct (tidyOneArg_seen args Hs) as (_ & Ht & _ & two & Hform).
    split; [done|]. split; [done|]. cbv zeta in Hform.
    destruct Hform as [(value & _ & Hargs)|[(v & _ & _ & Hargs)|(_ & Hargs & _)]].
    + eexists [_]. split; [exact Hargs|simpl; lia].
    + eexists [_; _]. split; [exact Hargs|simpl; lia].
    + eexists [_]. split; [exact Hargs|simpl; lia].
  - destruct args as [|s rest]; [by left|].
    destruct (shape s) as [s Hbare| |two c t Hc].
    + left. unfold tidyOneArg. by rewrite Hbare.
    + right; left. done.
    + left. rewrite tidyOneArg_named in Hs |- * by done. cbv zeta in Hs |- *.
      destruct (_ || _); [done|].
      destruct (equalsAt (String c t)); [discriminate Hs|].
      destruct rest as [|v rest0]; [discriminate Hs|].
      destruct (_ || _); discriminate Hs.
Qed.

(** The scan under any filter, from any state of [tidiedArgs] on. *)
Lemma filterArgs_consumes (filter : string → bool * bool) (n : nat) :
  ∀ args acc acc' last term err,
    (length args ≤ n)%nat →
    filterArgs args (tidyArgs_closure filter) acc = (acc', (last, term, err)) →
    ∃ consumed added,
      args = consumed ++ last
      ∧ acc' = acc ++ added
      ∧ (length added ≤ 2 * length consumed)%nat
      ∧ (term = true → ∃ before, consumed = before ++ ["--"])
      ∧ (∀ e, err = Some e → ∃ s rest, last = s :: rest ∧ malformed s ∧ e = ErrBadSyntax s)
      ∧ (term = true → err = None).
Proof.
  induction n as [|n IH]; intros args acc acc' last term err Hlen Hrun;
    rewrite filterArgs_step in Hrun; cbv zeta in Hrun;
    pose proof (tidyOneArg_shrinks args) as Hshrink;
    pose proof (tidyOneArg_err args) as Herr;
    destruct (tidyOneArg_steps args)
      as [(Hs & Ht & Hl)|[(Hs & Ht & Hl)|(Hs & Ht & step & Hstep & Hstep1)]];
    rewrite Hs in Hrun.
  1,2,4,5: injection Hrun as <- <- <- <-.
  1,3: exists [], []; rewrite Hl, Ht, app_nil_r; simpl;
    (split; [done|]); (split; [done|]); (split; [lia|]); (split; [done|]);
    (split; [|done]); intros e He; rewrite He in Herr;
    destruct Herr as (s & rest & -> & Hm & -> & _); eauto.
  1,2: exists ["--"], []; rewrite Ht, app_nil_r; simpl;
    (split; [done|]); (split; [done|]); (split; [lia|]);
    (split; [intros _; by exists []|]);
    (split; [|intros _]);
    [intros e He; rewrite He in Herr;
     destruct Herr as (s & rest & _ & _ & _ & Hr); rewrite Hr in Ht; done
    |destruct (OneArg.err _) as [e|]; [|done];
     destruct Herr as (s & rest & _ & _ & _ & Hr); rewrite Hr in Ht; done].
  - specialize (Hshrink Hs). exfalso; clear -Hshrink Hlen; lia.
  - specialize (Hshrink Hs).
    unfold tidyArgs_closure in Hrun at 1. cbv beta iota zeta in Hrun.
    destruct (filter (OneArg.name (tidyOneArg args))) as [want next].
    set (kv := match OneArg.valuePtr (tidyOneArg args) with
               | Some value => ["-" +:+ OneArg.name (tidyOneArg args); value]
               | None => ["-" +:+ OneArg.name (tidyOneArg args)]
               end) in *.
    assert (Hkv : (length kv ≤ 2)%nat) by (unfold kv; destruct (OneArg.valuePtr _); simpl; lia).
    set (acc1 := if want then acc ++ kv else acc) in *.
    assert (Hacc1 : ∃ added1, acc1 = acc ++ added1 ∧ (length added1 ≤ 2)%nat).
    { unfold acc1. destruct want; [by exists kv|exists []; rewrite app_nil_r; simpl; split; [done|lia]]. }
    destruct Hacc1 as (added1 & Hacc1 & Hadded1).
    destruct next.
    + apply IH in Hrun
        as (consumed & added & Hargs & Hacc & Hbound & Hterm & He & Hte);
        [|clear -Hshrink Hlen; lia].
      exists (step ++ consumed), (added1 ++ added).
      split; [rewrite <- app_assoc, <- Hargs; exact Hstep|].
      split; [rewrite Hacc, Hacc1; by rewrite app_assoc|].
      split; [rewrite !length_app; lia|].
      split; [|done]. intros Htrue. destruct (Hterm Htrue) as [before ->].
      exists (step ++ before). by rewrite app_assoc.
    + injection Hrun as <- <- <- <-.
      exists step, added1. split; [exact Hstep|]. split; [exact Hacc1|].
      split; [lia|]. rewrite Ht. split; [done|]. split; [|done].
      intros e He. rewrite He in Herr.
      destruct Herr as (s' & rest & _ & _ & _ & Hr). rewrite Hr in Hs. done.
Qed.

(** X4. Whatever the filter answers, tidyArgs takes a front part off the
    list and returns the rest untouched; it writes at most two tokens
    for each token it takes, so the room it reserves on entry, twice
    the length of the list, is never exceeded; when it reports the
    terminator, the terminator is the last token it took and there is
    no error; when it reports an error, the rest starts with the
    malformed token the error names. *)
Theorem tidyArgs_consumes_a_prefix (args : list string) (filter : string → bool * bool)
    (tidiedArgs lastArgs : list string) (terminated : bool) (err : option Error) :
  tidyArgs args filter = (tidiedArgs, lastArgs, terminated, err) →
  ∃ consumed,
    args = consumed ++ lastArgs
    ∧ (length tidiedArgs ≤ 2 * length consumed)%nat
    ∧ (terminated = true → err = None ∧ ∃ before, consumed = before ++ ["--"])
    ∧ (∀ e, err = Some e →
            ∃ s rest, lastArgs = s :: rest ∧ malformed s ∧ e = ErrBadSyntax s).
Proof.
  unfold tidyArgs. intros H.
  destruct (filterArgs args _ []) as [acc' [[last term] e]] eqn:Hrun.
  injection H as -> -> -> ->.
  apply (filterArgs_consumes _ (length args)) in Hrun
    as (consumed & added & Hargs & Hacc & Hbound & Hterm & He & Hte); [|lia].
  exists consumed. simpl in Hacc. subst tidiedArgs.
  split; [done|]. split; [done|]. split; [|done]. auto.
Qed.

Lemma tidyArgs_consumes_a_prefix_witness :
  tidyArgs ["-a=1"; "-u"; "-b"; "x"; "--"; "y"] (λ name, (negb (String.eqb name "u"), true))
  = (["-a"; "1"; "-b"; "x"], ["y"], true, None)
  ∧ ∃ consumed,
      ["-a=1"; "-u"; "-b"; "x"; "--"; "y"] = consumed ++ ["y"]
      ∧ (length ["-a"; "1"; "-b"; "x"] ≤ 2 * length consumed)%nat
      ∧ (true = true → @None Error = None ∧ ∃ before, consumed = before ++ ["--"])
      ∧ (∀ e, None = Some e →
              ∃ s rest, ["y"] = s :: rest ∧ malformed s ∧ e = ErrBadSyntax s).
Proof.
  assert (Hrun : tidyArgs ["-a=1"; "-u"; "-b"; "x"; "--"; "y"]
                   (λ name, (negb (String.eqb name "u"), true))
                 = (["-a"; "1"; "-b"; "x"], ["y"], true, None))
    by (vm_compute; reflexivity).
  split; [exact Hrun|].
  exact (tidyArgs_consumes_a_prefix _ _ _ _ _ _ Hrun).
Defined.

(** ** A malformed flag in tolerant mode *)

Lemma malformed_dash (s : string) :
  malformed s → GoString.byte_is s 0 "-"%char = true.
Proof. by intros [t [-> | [-> | ->]]]. Qed.

(** A run of flags starts with a dash. *)
Lemma Scanned_dash scanned flags follow :
  Scanned scanned flags follow →
  ∀ s tl, scanned = s :: tl → GoString.byte_is s 0 "-"%char = true.
Proof.
  destruct 1 as [|two|two|two]; intros s tl Heq; [discriminate Heq|..];
    injection Heq as <- _; by destruct two.
Qed.

(** X5. In tolerant mode a malformed token at the end of the leading
    run of flags makes Parse return the syntax error for that token
    before anything is bound, whatever the error handling policy: the
    flags in front of it, defined or not, are not set, and the flag
    set and the heap of cells are as they were. *)
Theorem Parse_tolerant_stops_at_a_malformed_flag
    (f : FlagSet) (scanned : list string) (flags : list (string * option string))
    (bad : string) (rest : list string) (h : Heap) :
  isContinueOnUndefined f = true →
  Scanned scanned flags (bad :: rest) →
  malformed bad →
  Parse f (scanned ++ bad :: rest) h = Ret (f, Some (ErrBadSyntax bad)) h.
Proof.
  intros Hcu Hsc Hbad. unfold Parse.
  assert (Hsplit : SplitArgs (scanned ++ bad :: rest) = ("", scanned ++ bad :: rest)).
  { unfold SplitArgs.
    assert (Hd : ∃ s tl, scanned ++ bad :: rest = s :: tl
                         ∧ GoString.byte_is s 0 "-"%char = true).
    { destruct scanned as [|s tl] eqn:Hscanned; cbn [app].
      - exists bad, rest. split; [done|]. by apply malformed_dash.
      - exists s, (tl ++ bad :: rest). split; [done|].
        by apply (Scanned_dash _ _ _ Hsc s tl). }
    destruct Hd as (s & tl & -> & Hd). by rewrite Hd, andb_false_r. }
  rewrite Hsplit. unfold Parse_tidy. rewrite Hcu. unfold tidyArgs.
  rewrite (filterArgs_run _ scanned flags _ Hsc).
  by rewrite filterArgs_malformed.
Qed.

Lemma Parse_tolerant_stops_at_a_malformed_flag_witness :
  let f := flagSetAB (Z.lor PanicOnError ContinueOnUndefined) in
  isContinueOnUndefined f = true
  ∧ malformed "---"
  ∧ Parse f (["-a"; "1"; "--b=2"] ++ "---" :: ["rest"]) ∅
    = Ret (f, Some (ErrBadSyntax "---")) ∅.
Proof.
  intros f.
  assert (Hname : ∀ c, c ≠ "-"%char → c ≠ "="%char → validName (String c "")).
  { intros c H1 H2. apply validName_intro; [exact H1|].
    simpl. by destruct (Ascii.eqb_spec c "="). }
  assert (Hsc : Scanned ["-a"; "1"; "--b=2"] [("a", Some "1"); ("b", Some "2")]
                        ("---" :: ["rest"])).
  { apply (Scanned_flag_value false "a" "1");
      [by apply Hname|intros t H; discriminate H|].
    apply (Scanned_flag_equals true "b" "2"); [by apply Hname|constructor]. }
  assert (Hbad : malformed "---") by (exists ""; right; right; reflexivity).
  split; [reflexivity|]. split; [exact Hbad|].
  exact (Parse_tolerant_stops_at_a_malformed_flag f _ _ "---" ["rest"] ∅
           eq_refl Hsc Hbad).
Defined.

(** ** Tokens without a dash *)

Lemma dashless_bare v :
  dashless v →
  (GoString.len v <? 2)%nat || negb (GoString.byte_is v 0 "-"%char) = true.
Proof. intros Hv. apply bare_cases. by left. Qed.

Lemma dashless_not_terminator v : dashless v → String.eqb v "--" = false.
Proof. intros Hv. apply String.eqb_neq. intros ->. by apply (Hv "-"). Qed.

(** ** The policy of a flag set *)

(** X6. cleanBit clears the bit and nothing else: the bit is not set in
    the result, the result together with what the value had of the bit
    is the value, and the second result tells whether the value had
    some of the bit, the result being the value when it had none. *)
Theorem cleanBit_clears_the_bit (eh bit : Z) :
  Z.land (cleanBit eh bit).1 bit = 0%Z
  ∧ Z.lor (cleanBit eh bit).1 (Z.land eh bit) = eh
  ∧ ((cleanBit eh bit).2 = true ↔ Z.land eh bit ≠ 0%Z)
  ∧ ((cleanBit eh bit).2 = false → (cleanBit eh bit).1 = eh).
Proof.
  unfold cleanBit. cbn [fst snd].
  assert (H1 : Z.land (Z.ldiff eh bit) bit = 0%Z).
  { apply Z.bits_inj'. intros n Hn.
    rewrite Z.land_spec, Z.ldiff_spec, Z.bits_0. by destruct (Z.testbit eh n), (Z.testbit bit n). }
  assert (H2 : Z.lor (Z.ldiff eh bit) (Z.land eh bit) = eh).
  { apply Z.bits_inj'. intros n Hn.
    rewrite Z.lor_spec, Z.land_spec, Z.ldiff_spec.
    by destruct (Z.testbit eh n), (Z.testbit bit n). }
  split; [done|]. split; [done|].
  rewrite negb_true_iff, negb_false_iff, Z.eqb_neq, Z.eqb_eq.
  split; [|done]. split.
  - intros Hne Hz. apply Hne. rewrite Hz, Z.lor_0_r in H2. done.
  - intros Hnz Heq. apply Hnz. rewrite Heq in H1.
    apply Z.bits_inj'. intros n Hn. rewrite Z.bits_0.
    apply (f_equal (λ z, Z.testbit z n)) in H1.
    rewrite !Z.land_spec, Z.bits_0 in H1. rewrite Z.land_spec.
    by destruct (Z.testbit eh n), (Z.testbit bit n).
Qed.

Lemma small_has_no_bit_30 (eh : Z) :
  (0 ≤ eh < 2 ^ 30)%Z → Z.land eh ContinueOnUndefined = 0%Z.
Proof.
  intros H. unfold ContinueOnUndefined. rewrite Z.shiftl_1_l.
  apply Z.bits_inj'. intros n Hn. rewrite Z.land_spec, Z.bits_0, Z.pow2_bits_eqb by lia.
  destruct (Z.eqb_spec 30 n) as [<-|]; [|by rewrite andb_false_r].
  rewrite andb_true_r. destruct (Z.eq_dec eh 0%Z) as [->|]; [apply Z.bits_0|].
  apply Z.bits_above_log2; [lia|]. apply Z.log2_lt_pow2; lia.
Qed.

(** X7. Init splits the policy it is given: for a policy below the
    tolerant bit, with the bit set the flag set is tolerant, without it
    strict; the embedded set gets the policy without the bit, and
    ErrorHandling returns the policy as given.  Init sets the name and
    keeps the flags, the positional entries and the terminated mode;
    on an empty set it gives what NewFlagSet gives. *)
Theorem Init_splits_the_policy (f : FlagSet) (name : string) (eh : Z) :
  (0 ≤ eh < 2 ^ 30)%Z →
  (let g := Init f name (Z.lor eh ContinueOnUndefined) in
   isContinueOnUndefined g = true
   ∧ flag.ErrorHandling (base g) = eh
   ∧ ErrorHandling g = Z.lor eh ContinueOnUndefined)
  ∧ (let g := Init f name eh in
     isContinueOnUndefined g = false
     ∧ flag.ErrorHandling (base g) = eh
     ∧ ErrorHandling g = eh)
  ∧ (∀ policy, let g := Init f name policy in
       flag.Name (base g) = name
       ∧ flag.formal (base g) = flag.formal (base f)
       ∧ nonFormal g = nonFormal f
       ∧ terminated g = terminated f)
  ∧ (∀ policy, Init (NewFlagSet "" ContinueOnError) name policy = NewFlagSet name policy).
Proof.
  intros Heh. pose proof (small_has_no_bit_30 eh Heh) as Hbit.
  assert (Hl : Z.ldiff (Z.lor eh ContinueOnUndefined) ContinueOnUndefined = eh).
  { apply Z.bits_inj'. intros n Hn.
    apply (f_equal (λ z, Z.testbit z n)) in Hbit.
    rewrite Z.land_spec, Z.bits_0 in Hbit.
    rewrite Z.ldiff_spec, Z.lor_spec.
    by destruct (Z.testbit eh n), (Z.testbit ContinueOnUndefined n). }
  assert (Hr : Z.ldiff eh ContinueOnUndefined = eh).
  { apply Z.bits_inj'. intros n Hn.
    apply (f_equal (λ z, Z.testbit z n)) in Hbit.
    rewrite Z.land_spec, Z.bits_0 in Hbit.
    rewrite Z.ldiff_spec.
    by destruct (Z.testbit eh n), (Z.testbit ContinueOnUndefined n). }
  split; [|split; [|split]].
  - unfold Init, cleanBit. cbn. rewrite Hl. split; [|done].
    apply negb_true_iff, Z.eqb_neq. intros Heq.
    assert (Hc : Z.land (Z.lor eh ContinueOnUndefined) ContinueOnUndefined = 0%Z).
    { rewrite <- Heq. exact Hbit. }
    rewrite Z.land_lor_distr_l, Hbit, Z.land_diag in Hc. done.
  - unfold Init, cleanBit. cbn. rewrite Hr. split; [|done].
    apply negb_false_iff, Z.eqb_eq. done.
  - intros policy. unfold Init. by destruct (cleanBit policy ContinueOnUndefined).
  - intros policy. unfold Init, NewFlagSet.
    by destruct (cleanBit policy ContinueOnUndefined).
Qed.

Lemma Init_splits_the_policy_witness :
  (0 ≤ PanicOnError < 2 ^ 30)%Z
  ∧ isContinueOnUndefined
      (Init (flagSetAB ContinueOnError) "x" (Z.lor PanicOnError ContinueOnUndefined))
    = true
  ∧ flag.ErrorHandling
      (base (Init (flagSetAB ContinueOnError) "x" (Z.lor PanicOnError ContinueOnUndefined)))
    = PanicOnError
  ∧ isContinueOnUndefined (Init (flagSetAB ContinueOnError) "x" PanicOnError) = false.
Proof.
  assert (Heh : (0 ≤ PanicOnError < 2 ^ 30)%Z) by (unfold PanicOnError; lia).
  split; [exact Heh|].
  destruct (Init_splits_the_policy (flagSetAB ContinueOnError) "x" PanicOnError Heh)
    as ((H1 & H2 & _) & (H3 & _) & _).
  split; [exact H1|]. split; [exact H2|exact H3].
Defined.

(** ** The arguments of the next subcommand *)

Lemma IndexOf_first (pre post : list string) (s : string) :
  s ∉ pre → IndexOf (pre ++ s :: post) s = Some (length pre).
Proof.
  induction pre as [|a pre IH]; intros Hno; simpl.
  - by rewrite String.eqb_refl.
  - apply not_elem_of_cons in Hno as [Hne Hno].
    destruct (String.eqb_spec a s) as [->|_]; [done|].
    by rewrite IH.
Qed.

Lemma IndexOf_missing (args : list string) (s : string) :
  s ∉ args → IndexOf args s = None.
Proof.
  induction args as [|a args IH]; intros Hno; simpl; [done|].
  apply not_elem_of_cons in Hno as [Hne Hno].
  destruct (String.eqb_spec a s) as [->|_]; [done|].
  by rewrite IH.
Qed.

(** X8. SubArgs returns, in terminated mode, all the remaining
    arguments; otherwise the remaining arguments that follow their
    first terminator token, and none when there is no terminator among
    them. *)
Theorem SubArgs_are_what_follows_the_terminator (f : FlagSet) :
  (terminated f = true → SubArgs f = flag.Args (base f))
  ∧ (terminated f = false →
     (∀ pre post, flag.Args (base f) = pre ++ "--" :: post → "--" ∉ pre →
                  SubArgs f = post)
     ∧ ("--" ∉ flag.Args (base f) → SubArgs f = [])).
Proof.
  unfold SubArgs. split; [by intros ->|]. intros ->. split.
  - intros pre post -> Hpre. rewrite IndexOf_first by done.
    rewrite <- Nat.add_1_r, <- drop_drop, drop_app_length. done.
  - intros Hno. by rewrite IndexOf_missing.
Qed.

(** ** What a parse keeps and what it binds *)

Lemma parseOne_tables (b : flag.FlagSet) (h : Heap) :
  flag.formal (flag.parseOne b h).1.2 = flag.formal b
  ∧ flag.name (flag.parseOne b h).1.2 = flag.name b
  ∧ flag.errorHandling (flag.parseOne b h).1.2 = flag.errorHandling b
  ∧ flag.parsed (flag.parseOne b h).1.2 = flag.parsed b.
Proof.
  unfold flag.parseOne.
  destruct (flag.args b) as [|s args']; [done|].
  destruct (_ || _); [done|]. destruct (_ && _); [done|].
  destruct (_ || _); [done|].
  destruct (match equalsAt _ with Some _ => _ | None => _ end) as [[nm hasValue] value].
  cbn [flag.formal flag.set_args].
  destruct (flag.formal b !! nm) as [fl|] eqn:Hfl.
  2: { by destruct (_ || _). }
  destruct (IsBoolFlag (Value_ fl)).
  - destruct hasValue.
    + by destruct (Set_ _ value h).
    + by destruct (Set_ _ "true" h).
  - destruct hasValue.
    + simpl. by destruct (Set_ _ value h).
    + destruct args' as [|v args'']; simpl; [done|].
      by destruct (Set_ _ v h).
Qed.

Lemma parseLoop_tables (n : nat) :
  ∀ b h b' e h',
    length (flag.args b) = n →
    flag.parseLoop b h = Ret (b', e) h' →
    flag.formal b' = flag.formal b ∧ flag.name b' = flag.name b
    ∧ flag.errorHandling b' = flag.errorHandling b
    ∧ flag.parsed b' = flag.parsed b.
Proof.
  induction n as [n IH] using lt_wf_ind. intros b h b' e h' Hn Hrun.
  rewrite parseLoop_step in Hrun.
  pose proof (parseOne_tables b h) as (Hf & Hnm & He & Hp).
  pose proof (flag.parseOne_shrinks b h) as Hshrink.
  destruct (flag.parseOne b h) as [[[seen e1] b1] h1]. simpl in Hf, Hnm, He, Hp, Hshrink.
  assert (Hnext : (length (flag.args b1) < n)%nat →
                  flag.parseLoop b1 h1 = Ret (b', e) h' →
                  flag.formal b' = flag.formal b ∧ flag.name b' = flag.name b
                  ∧ flag.errorHandling b' = flag.errorHandling b
                  ∧ flag.parsed b' = flag.parsed b).
  { intros Hlt Hrun1. destruct (IH _ Hlt b1 h1 b' e h' eq_refl Hrun1) as (? & ? & ? & ?).
    repeat split; congruence. }
  destruct seen.
  - apply Hnext; [|done]. rewrite <- Hn. by apply Hshrink.
  - destruct e1 as [e1|]; [|by injection Hrun as <- <- <-].
    unfold flag.failed in Hrun.
    repeat (case_match; try done); try (by injection Hrun as <- <- <-).
    apply Hnext; [|done]. rewrite <- Hn. by apply Nat.ltb_lt.
Qed.

(** The four ways of the [switch] on the policy. *)
Lemma failed_cases {A} policy e (f : A) h again :
  flag.failed policy e f h again = Ret (f, Some e) h
  ∨ flag.failed policy e f h again = Exit 2 h
  ∨ flag.failed policy e f h again = Panic (PanicError e) h
  ∨ (flag.failed policy e f h again = again ∧ ¬ standard policy).
Proof.
  unfold flag.failed, standard.
  destruct (Z.eqb_spec policy ContinueOnError); [by left|].
  destruct (Z.eqb_spec policy ExitOnError); [right; by left|].
  destruct (Z.eqb_spec policy PanicOnError); [right; right; by left|].
  right; right; right. split; [done|]. by intros [?|[?|?]].
Qed.

Lemma parseNonFlags_bindings (args : list string) :
  ∀ f k h f' e h',
    parseNonFlags f k args h = Ret (f', e) h' →
    (base f' = base f ∧ nonFormal f' = nonFormal f ∧ terminated f' = terminated f
     ∧ errorHandling f' = errorHandling f
     ∧ isContinueOnUndefined f' = isContinueOnUndefined f)
    ∧ (∀ j fl, nonActual f' !! j = Some fl →
         nonActual f !! j = Some fl
         ∨ (nonFormal f !! j = Some fl ∧ (k ≤ j < k + Z.of_nat (length args))%Z))
    ∧ (standard (flag.errorHandling (base f)) →
       ∀ g j, (k ≤ g ≤ j)%Z → nonFormal f !! g = None →
              nonActual f' !! j = nonActual f !! j).
Proof.
  induction args as [|v args IH]; intros f k h f' e h' Hrun.
  { injection Hrun as <- <- <-. split; [done|]. split; [by left|done]. }
  rewrite parseNonFlags_cons in Hrun.
  assert (Hagain : parseNonFlags f (k + 1) args h = Ret (f', e) h' →
    (base f' = base f ∧ nonFormal f' = nonFormal f ∧ terminated f' = terminated f
     ∧ errorHandling f' = errorHandling f
     ∧ isContinueOnUndefined f' = isContinueOnUndefined f)
    ∧ (∀ j fl, nonActual f' !! j = Some fl →
         nonActual f !! j = Some fl
         ∨ (nonFormal f !! j = Some fl
            ∧ (k ≤ j < k + Z.of_nat (length (v :: args)))%Z))).
  { intros Hrec. apply IH in Hrec as (Hsame & Hsub & _). split; [done|].
    intros j fl Hj. destruct (Hsub j fl Hj) as [?|[? ?]]; [by left|right].
    split; [done|]. cbn [length]. lia. }
  assert (Hfail : ∀ e0,
    flag.failed (flag.ErrorHandling (base f)) e0 f h (parseNonFlags f (k + 1) args h)
    = Ret (f', e) h' →
    (base f' = base f ∧ nonFormal f' = nonFormal f ∧ terminated f' = terminated f
     ∧ errorHandling f' = errorHandling f
     ∧ isContinueOnUndefined f' = isContinueOnUndefined f)
    ∧ (∀ j fl, nonActual f' !! j = Some fl →
         nonActual f !! j = Some fl
         ∨ (nonFormal f !! j = Some fl
            ∧ (k ≤ j < k + Z.of_nat (length (v :: args)))%Z))
    ∧ (standard (flag.errorHandling (base f)) →
       ∀ g j, (k ≤ g ≤ j)%Z → nonFormal f !! g = None →
              nonActual f' !! j = nonActual f !! j)).
  { intros e0 Hf.
    destruct (failed_cases (flag.ErrorHandling (base f)) e0 f h
                (parseNonFlags f (k + 1) args h)) as [Hc|[Hc|[Hc|[Hc Hns]]]];
      rewrite Hc in Hf; try discriminate Hf.
    - injection Hf as <- <- <-. split; [done|]. split; [by left|done].
    - apply Hagain in Hf as [? ?]. split; [done|]. split; [done|].
      intros Hstd. by destruct Hns. }
  unfold parseOneNonFlag in Hrun.
  destruct (String.eqb v "--"); [by apply Hfail in Hrun|].
  destruct (nonFormal f !! k) as [fl0|] eqn:Hk.
  2: { injection Hrun as <- <- <-. split; [done|]. split; [by left|done]. }
  destruct (Set_ (Value_ fl0) v h) as [h1|]; [|by apply Hfail in Hrun].
  apply IH in Hrun as (Hsame & Hsub & Hgap). cbn in Hsame, Hsub, Hgap.
  split; [done|]. split.
  - intros j fl Hj. destruct (Hsub j fl Hj) as [Hold|[Hnew Hrange]].
    + rewrite lookup_insert in Hold. case_decide as Hjk; [|by left].
      injection Hold as <-. subst j. right. split; [done|]. cbn [length]. lia.
    + right. split; [done|]. cbn [length]. lia.
  - intros Hstd g j Hgj Hg.
    assert (g ≠ k) by (intros ->; congruence).
    rewrite (Hgap Hstd g j) by (done || lia).
    rewrite lookup_insert_ne by lia. done.
Qed.

Lemma Parse_tidy_fields f arguments arguments' f' :
  Parse_tidy f arguments = inr (arguments', f') →
  base f' = base f ∧ nonFormal f' = nonFormal f ∧ nonActual f' = nonActual f
  ∧ errorHandling f' = errorHandling f
  ∧ isContinueOnUndefined f' = isContinueOnUndefined f
  ∧ (isContinueOnUndefined f = false → f' = f ∧ arguments' = arguments).
Proof.
  unfold Parse_tidy. destruct (isContinueOnUndefined f) eqn:Hcu;
    [|by intros [= <- <-]].
  destruct (tidyArgs _ _) as [[[flagArgs nonFlagArgs] t] [e|]]; [done|].
  intros [= _ <-]. cbn. repeat split; done.
Qed.

(** What a parse that returns has kept and bound. *)
Lemma Parse_bindings (f : FlagSet) (arguments : list string) (h : Heap)
    (f' : FlagSet) (e : option Error) (h' : Heap) :
  Parse f arguments h = Ret (f', e) h' →
  (flag.formal (base f') = flag.formal (base f)
   ∧ flag.name (base f') = flag.name (base f)
   ∧ flag.errorHandling (base f') = flag.errorHandling (base f)
   ∧ nonFormal f' = nonFormal f
   ∧ errorHandling f' = errorHandling f
   ∧ isContinueOnUndefined f' = isContinueOnUndefined f)
  ∧ (∀ j fl, nonActual f' !! j = Some fl →
       nonActual f !! j = Some fl
       ∨ (nonFormal f !! j = Some fl
          ∧ (0 ≤ j < Z.of_nat (length (flag.Args (base f'))))%Z))
  ∧ (standard (flag.errorHandling (base f)) →
     ∀ g j, (0 ≤ g ≤ j)%Z → nonFormal f !! g = None →
            nonActual f' !! j = nonActual f !! j)
  ∧ (isContinueOnUndefined f = false → terminated f = true →
     terminated f' = true ∧ nonActual f' = nonActual f).
Proof.
  unfold Parse. destruct (SplitArgs arguments) as [_x arguments1].
  destruct (Parse_tidy f arguments1) as [e0|[arguments2 f1]] eqn:Htidy.
  { intros [= <- <- <-]. split; [done|]. split; [by left|done]. }
  apply Parse_tidy_fields in Htidy as (Hb & Hnf & Hna & Heh & Hcu & Hstrict).
  unfold bind, flag.Parse.
  destruct (flag.parseLoop _ h) as [[b' e1] h1|v h1|c h1|] eqn:Hloop; [|done..].
  apply (parseLoop_tables _ _ _ _ _ _ eq_refl) in Hloop as (Hfm & Hnm & Hpol & _).
  cbn in Hfm, Hnm, Hpol. rewrite Hb in Hfm, Hnm, Hpol.
  assert (Hsame :
    flag.formal (base (set_base f1 b')) = flag.formal (base f)
    ∧ flag.name (base (set_base f1 b')) = flag.name (base f)
    ∧ flag.errorHandling (base (set_base f1 b')) = flag.errorHandling (base f)
    ∧ nonFormal (set_base f1 b') = nonFormal f
    ∧ errorHandling (set_base f1 b') = errorHandling f
    ∧ isContinueOnUndefined (set_base f1 b') = isContinueOnUndefined f).
  { cbn. by rewrite Hnf, Heh, Hcu. }
  assert (Hsticky : isContinueOnUndefined f = false → terminated f = true →
                    terminated f1 = true).
  { intros H1 H2. by destruct (Hstrict H1) as [-> _]. }
  destruct e1 as [e1|].
  { intros [= <- <- <-]. split; [exact Hsame|]. cbn. rewrite Hna.
    split; [by left|]. split; [done|]. auto. }
  cbn [terminated set_base].
  destruct (terminated f1) eqn:Hterm.
  { intros [= <- <- <-]. split; [exact Hsame|]. cbn. rewrite Hna.
    split; [by left|]. split; [done|]. auto. }
  assert (Hpos : parseNonFlags (set_base f1 b') 0 (flag.Args (base (set_base f1 b'))) h1
                 = Ret (f', e) h' →
    (flag.formal (base f') = flag.formal (base f)
     ∧ flag.name (base f') = flag.name (base f)
     ∧ flag.errorHandling (base f') = flag.errorHandling (base f)
     ∧ nonFormal f' = nonFormal f
     ∧ errorHandling f' = errorHandling f
     ∧ isContinueOnUndefined f' = isContinueOnUndefined f)
    ∧ (∀ j fl, nonActual f' !! j = Some fl →
         nonActual f !! j = Some fl
         ∨ (nonFormal f !! j = Some fl
            ∧ (0 ≤ j < Z.of_nat (length (flag.Args (base f'))))%Z))
    ∧ (standard (flag.errorHandling (base f)) →
       ∀ g j, (0 ≤ g ≤ j)%Z → nonFormal f !! g = None →
              nonActual f' !! j = nonActual f !! j)
    ∧ (isContinueOnUndefined f = false → terminated f = true →
       terminated f' = true ∧ nonActual f' = nonActual f)).
  { intros Hrun. apply parseNonFlags_bindings in Hrun
      as ((Hb' & Hnf' & Ht' & Heh' & Hcu') & Hsub & Hgap).
    cbn in Hb', Hnf', Ht', Heh', Hcu', Hsub, Hgap.
    rewrite Hna, Hnf in Hsub. rewrite Hpol, Hna, Hnf in Hgap.
    split; [|split; [|split]].
    - rewrite Hb'. cbn. by rewrite Hnf', Heh', Hcu', Hnf, Heh, Hcu.
    - intros j fl Hj. rewrite Hb'. cbn. destruct (Hsub j fl Hj) as [?|[? ?]]; [by left|right].
      split; [done|lia].
    - exact Hgap.
    - intros H1 H2. specialize (Hsticky H1 H2). congruence. }
  cbn [isContinueOnUndefined set_base].
  destruct (isContinueOnUndefined f1); [exact Hpos|].
  destruct (_ =? _)%nat.
  { intros [= <- <- <-]. split; [exact Hsame|]. cbn. rewrite Hna.
    split; [by left|]. split; [done|]. intros H1 H2.
    specialize (Hsticky H1 H2). congruence. }
  destruct (if (_ <? 0)%Z then _ else _) as [a|]; [|done].
  destruct (String.eqb a "--"); [|exact Hpos].
  intros [= <- <- <-]. split; [exact Hsame|]. cbn. rewrite Hna.
  split; [by left|]. split; [done|]. done.
Qed.

(** X9. A parse that returns, with or without an error, has not touched
    the definitions: the named flags and the positional entries
    registered, the name and the policies of the flag set are what
    they were. *)
Theorem Parse_keeps_the_definitions (f : FlagSet) (arguments : list string) (h : Heap)
    (f' : FlagSet) (e : option Error) (h' : Heap) :
  Parse f arguments h = Ret (f', e) h' →
  flag.formal (base f') = flag.formal (base f)
  ∧ nonFormal f' = nonFormal f
  ∧ flag.Name (base f') = flag.Name (base f)
  ∧ flag.ErrorHandling (base f') = flag.ErrorHandling (base f)
  ∧ ErrorHandling f' = ErrorHandling f
  ∧ isContinueOnUndefined f' = isContinueOnUndefined f.
Proof.
  intros H. apply Parse_bindings in H as ((? & ? & ? & ? & ? & ?) & _). done.
Qed.

Lemma Parse_keeps_the_definitions_witness :
  ∃ f' e h',
    Parse (flagSetAB ContinueOnError) ["prog"; "-a"; "1"; "-u"; "2"] ∅ = Ret (f', e) h'
    ∧ e = Some (ErrNotDefined "u")
    ∧ flag.formal (base f') = flag.formal (base (flagSetAB ContinueOnError))
    ∧ nonFormal f' = nonFormal (flagSetAB ContinueOnError).
Proof.
  assert (H : ∃ f' h',
    Parse (flagSetAB ContinueOnError) ["prog"; "-a"; "1"; "-u"; "2"] ∅
    = Ret (f', Some (ErrNotDefined "u")) h')
    by (eexists _, _; vm_compute; reflexivity).
  destruct H as (f' & h' & H). exists f', (Some (ErrNotDefined "u")), h'.
  split; [exact H|]. split; [reflexivity|].
  destruct (Parse_keeps_the_definitions _ _ _ _ _ _ H) as (H1 & H2 & _).
  split; [exact H1|exact H2].
Defined.

(** X10. Every positional entry a parse has bound is the entry
    registered at that index, and the index is below the number of
    arguments that remained after the named flags. *)
Theorem Parse_binds_registered_positions (f : FlagSet) (arguments : list string)
    (h : Heap) (f' : FlagSet) (e : option Error) (h' : Heap) (j : Z) (fl : Flag) :
  Parse f arguments h = Ret (f', e) h' →
  nonActual f' !! j = Some fl →
  nonActual f !! j = Some fl
  ∨ (nonFormal f !! j = Some fl
     ∧ (0 ≤ j < Z.of_nat (length (flag.Args (base f'))))%Z).
Proof.
  intros H. apply Parse_bindings in H as (_ & H & _). apply H.
Qed.

Lemma Parse_binds_registered_positions_witness :
  ∃ f' h',
    Parse (flagSet02 ContinueOnError) ["prog"; "x"; "y"; "z"] ∅ = Ret (f', None) h'
    ∧ nonActual f' !! 0%Z = Some (mkFlag "?0" "" (stringValue 1%positive) "")
    ∧ (nonActual (flagSet02 ContinueOnError) !! 0%Z
       = Some (mkFlag "?0" "" (stringValue 1%positive) "")
       ∨ (nonFormal (flagSet02 ContinueOnError) !! 0%Z
          = Some (mkFlag "?0" "" (stringValue 1%positive) "")
          ∧ (0 ≤ 0 < Z.of_nat (length (flag.Args (base f'))))%Z)).
Proof.
  assert (H : ∃ f' h',
    Parse (flagSet02 ContinueOnError) ["prog"; "x"; "y"; "z"] ∅ = Ret (f', None) h'
    ∧ nonActual f' !! 0%Z = Some (mkFlag "?0" "" (stringValue 1%positive) ""))
    by (eexists _, _; split; vm_compute; reflexivity).
  destruct H as (f' & h' & H & Hb). exists f', h'.
  split; [exact H|]. split; [exact Hb|].
  exact (Parse_binds_registered_positions _ _ _ _ _ _ _ _ H Hb).
Defined.

(** X11. Under one of the three policies of package flag, a parse binds
    no positional entry at or beyond an index at which none is
    registered, whatever the arguments: the entries bound form a run
    from index 0 without a gap. *)
Theorem Parse_binds_nothing_past_a_gap (f : FlagSet) (arguments : list string)
    (h : Heap) (f' : FlagSet) (e : option Error) (h' : Heap) (g j : Z) :
  standard (flag.ErrorHandling (base f)) →
  Parse f arguments h = Ret (f', e) h' →
  (0 ≤ g ≤ j)%Z → nonFormal f !! g = None →
  nonActual f' !! j = nonActual f !! j.
Proof.
  intros Hstd H. apply Parse_bindings in H as (_ & _ & H & _). by apply H.
Qed.

Lemma Parse_binds_nothing_past_a_gap_witness :
  standard (flag.ErrorHandling (base (flagSet02 ContinueOnError)))
  ∧ nonFormal (flagSet02 ContinueOnError) !! 1%Z = None
  ∧ is_Some (nonFormal (flagSet02 ContinueOnError) !! 2%Z)
  ∧ ∃ f' h',
      Parse (flagSet02 ContinueOnError) ["prog"; "x"; "y"; "z"] ∅ = Ret (f', None) h'
      ∧ nonActual f' !! 2%Z = nonActual (flagSet02 ContinueOnError) !! 2%Z.
Proof.
  assert (Hstd : standard (flag.ErrorHandling (base (flagSet02 ContinueOnError))))
    by (left; reflexivity).
  assert (H : ∃ f' h',
    Parse (flagSet02 ContinueOnError) ["prog"; "x"; "y"; "z"] ∅ = Ret (f', None) h')
    by (eexists _, _; vm_compute; reflexivity).
  split; [exact Hstd|]. split; [reflexivity|]. split; [by eexists|].
  destruct H as (f' & h' & H). exists f', h'. split; [exact H|].
  apply (Parse_binds_nothing_past_a_gap _ _ _ _ _ _ 1%Z 2%Z Hstd H); [lia|reflexivity].
Defined.

(** X12. In strict mode the terminated mode is never left: a flag set
    that is in terminated mode when Parse is called is in terminated
    mode when Parse returns, and the call binds no positional entry,
    whatever the arguments. *)
Theorem Parse_strict_stays_terminated (f : FlagSet) (arguments : list string)
    (h : Heap) (f' : FlagSet) (e : option Error) (h' : Heap) :
  isContinueOnUndefined f = false → terminated f = true →
  Parse f arguments h = Ret (f', e) h' →
  terminated f' = true ∧ nonActual f' = nonActual f.
Proof.
  intros H1 H2 H. apply Parse_bindings in H as (_ & _ & _ & H). by apply H.
Qed.

Lemma Parse_strict_stays_terminated_witness :
  let f := set_terminated (flagSet02 ContinueOnError) true in
  isContinueOnUndefined f = false ∧ terminated f = true
  ∧ ∃ f' h',
      Parse f ["prog"; "x"; "y"; "z"] ∅ = Ret (f', None) h'
      ∧ terminated f' = true ∧ nonActual f' = nonActual f.
Proof.
  intros f.
  assert (H : ∃ f' h', Parse f ["prog"; "x"; "y"; "z"] ∅ = Ret (f', None) h')
    by (eexists _, _; vm_compute; reflexivity).
  split; [reflexivity|]. split; [reflexivity|].
  destruct H as (f' & h' & H). exists f', h'. split; [exact H|].
  exact (Parse_strict_stays_terminated f _ _ _ _ _ eq_refl eq_refl H).
Defined.

(** X13. However a parse ends, by returning, by a panic or by leaving
    the process, it has written no cell other than the cells its
    flags and positional entries are bound to. *)
Theorem Parse_writes_bound_cells_only (f : FlagSet) (arguments : list string)
    (h h' : Heap) (l : loc) :
  final (Parse f arguments h) = Some h' →
  ¬ bound f l →
  h' !! l = h !! l.
Proof.
  intros Hfinal Hl. pose proof (Parse_frame l f arguments h Hl) as H.
  unfold walk_kept in H.
  destruct (Parse f arguments h) as [[f1 e] h1|v h1|c h1|]; simpl in Hfinal;
    [| | |done]; injection Hfinal as ->; [apply H|exact H..].
Qed.

Lemma flagSetAB_bound (eh : Z) (l : loc) :
  bound (flagSetAB eh) l → l = 1%positive ∨ l = 2%positive.
Proof.
  unfold flagSetAB, NewFlagSet. destruct (cleanBit eh ContinueOnUndefined) as [eh' u].
  intros [(n & fl & Hn & Hc)|(i & fl & Hi & Hc)]; cbn in Hn || cbn in Hi.
  - apply lookup_insert_Some in Hn as [[_ <-]|[_ Hn]]; [by left|].
    apply lookup_insert_Some in Hn as [[_ <-]|[_ Hn]]; [by right|].
    by rewrite lookup_empty in Hn.
  - by rewrite lookup_empty in Hi.
Qed.

Lemma Parse_writes_bound_cells_only_witness :
  let h := <[7%positive := "kept"]> ∅ in
  ∃ h', final (Parse (flagSetAB PanicOnError) ["-a"; "1"; "-u"] h) = Some h'
        ∧ h' !! 1%positive = Some "1"
        ∧ ¬ bound (flagSetAB PanicOnError) 7%positive
        ∧ h' !! 7%positive = h !! 7%positive.
Proof.
  intros h.
  assert (H : ∃ h', final (Parse (flagSetAB PanicOnError) ["-a"; "1"; "-u"] h) = Some h'
                    ∧ h' !! 1%positive = Some "1")
    by (eexists; split; vm_compute; reflexivity).
  assert (Hl : ¬ bound (flagSetAB PanicOnError) 7%positive).
  { intros [Hb|Hb]%flagSetAB_bound; discriminate Hb. }
  destruct H as (h' & H & H1). exists h'. split; [exact H|]. split; [exact H1|].
  split; [exact Hl|].
  exact (Parse_writes_bound_cells_only _ _ _ _ _ H Hl).
Defined.

(** ** Tokens in front of the terminator *)

(** The start of Parse on a list that begins, after the program name,
    with a token that is not a flag. *)
Lemma Parse_bare_start (f : FlagSet) (prog v : string) (rest : list string) (h : Heap) :
  (0 <? GoString.len prog)%nat && negb (GoString.byte_is prog 0 "-"%char) = true →
  dashless v →
  terminated f = false →
  Parse f (prog :: v :: rest) h
  = parseNonFlags
      (set_base (if isContinueOnUndefined f then set_terminated f false else f)
                (flag.set_args (flag.set_parsed (base f) true) (v :: rest)))
      0 (v :: rest) h.
Proof.
  intros Hprog Hv Hterm. pose proof (dashless_bare v Hv) as Hbare.
  pose proof (dashless_not_terminator v Hv) as Hnt.
  unfold Parse, SplitArgs. rewrite Hprog.
  unfold Parse_tidy. destruct (isContinueOnUndefined f) eqn:Hcu.
  - rewrite tidyArgs_bare by done. simpl.
    unfold bind. rewrite flag_Parse_bare by done. simpl. by rewrite Hcu.
  - unfold bind. rewrite flag_Parse_bare by done. simpl. rewrite Hterm, Hcu.
    rewrite Z.sub_diag. simpl. by rewrite Hnt.
Qed.

(** X14. Tokens without leading dash in front of the terminator, on a
    flag set without a positional entry at index 0: Parse returns
    without error and binds nothing; it does not enter terminated
    mode, the tokens and the terminator stay among the remaining
    arguments, and SubArgs returns what follows the terminator. *)
Theorem Parse_bare_tokens_before_terminator
    (f : FlagSet) (prog v : string) (vs rest : list string) (h : Heap) :
  (0 <? GoString.len prog)%nat && negb (GoString.byte_is prog 0 "-"%char) = true →
  dashless v → "--" ∉ vs →
  terminated f = false →
  nonFormal f !! 0%Z = None →
  ∃ f', Parse f (prog :: v :: vs ++ "--" :: rest) h = Ret (f', None) h
        ∧ terminated f' = false
        ∧ flag.Args (base f') = v :: vs ++ "--" :: rest
        ∧ SubArgs f' = rest
        ∧ nonActual f' = nonActual f.
Proof.
  intros Hprog Hv Hvs Hterm H0.
  rewrite Parse_bare_start by done.
  rewrite parseNonFlags_cons. unfold parseOneNonFlag.
  rewrite (dashless_not_terminator v Hv). cbn [nonFormal set_base].
  assert (Hnf : nonFormal (if isContinueOnUndefined f then set_terminated f false else f)
                !! 0%Z = None) by (by destruct (isContinueOnUndefined f)).
  rewrite Hnf. eexists. split; [done|].
  assert (Ht : terminated (if isContinueOnUndefined f then set_terminated f false else f)
               = false) by (by destruct (isContinueOnUndefined f)).
  split; [exact Ht|]. split; [done|]. split.
  - unfold SubArgs. cbn [terminated base set_base flag.Args flag.args flag.set_args].
    rewrite Ht.
    change (v :: vs ++ "--" :: rest) with ((v :: vs) ++ "--" :: rest).
    rewrite (IndexOf_first (v :: vs)).
    2: { apply not_elem_of_cons. split; [|done]. intros <-. by apply (Hv "-"). }
    rewrite <- Nat.add_1_r, <- drop_drop, drop_app_length. done.
  - by destruct (isContinueOnUndefined f).
Qed.

Lemma Parse_bare_tokens_before_terminator_witness :
  let f := flagSetAB ContinueOnError in
  ∃ f', Parse f ("prog" :: "x" :: ["y"] ++ "--" :: ["sub"; "-v"]) ∅ = Ret (f', None) ∅
        ∧ terminated f' = false
        ∧ flag.Args (base f') = "x" :: ["y"] ++ "--" :: ["sub"; "-v"]
        ∧ SubArgs f' = ["sub"; "-v"]
        ∧ nonActual f' = nonActual f.
Proof.
  intros f.
  apply (Parse_bare_tokens_before_terminator f "prog" "x" ["y"] ["sub"; "-v"] ∅).
  - reflexivity.
  - intros t H. discriminate H.
  - intros H. apply list_elem_of_singleton in H. discriminate H.
  - reflexivity.
  - reflexivity.
Defined.

(** X15. The terminator in the place of a positional argument is an
    error: when a positional entry is registered at index 0 and the
    token bound to it is followed by the terminator, Parse, under the
    policy ContinueOnError, binds the entry and then returns the error
    that the positional argument of index 1 is not provided, whether
    or not an entry is registered at index 1. *)
Theorem Parse_terminator_in_a_positional_place
    (f : FlagSet) (fl : Flag) (prog v c : string) (rest : list string) (h : Heap) :
  (0 <? GoString.len prog)%nat && negb (GoString.byte_is prog 0 "-"%char) = true →
  dashless v →
  terminated f = false →
  flag.ErrorHandling (base f) = ContinueOnError →
  nonFormal f !! 0%Z = Some fl →
  conv (Value_ fl) v = Some c →
  ∃ f', Parse f (prog :: v :: "--" :: rest) h
        = Ret (f', Some (ErrNonFlagNotProvided 1)) (<[cell (Value_ fl) := c]> h)
        ∧ nonActual f' = <[0%Z := fl]> (nonActual f).
Proof.
  intros Hprog Hv Hterm Hpol H0 Hc.
  rewrite Parse_bare_start by done.
  rewrite parseNonFlags_cons. unfold parseOneNonFlag.
  rewrite (dashless_not_terminator v Hv). cbn [nonFormal set_base].
  assert (Hnf : nonFormal (if isContinueOnUndefined f then set_terminated f false else f)
                !! 0%Z = Some fl) by (by destruct (isContinueOnUndefined f)).
  rewrite Hnf. unfold Set_. rewrite Hc.
  rewrite parseNonFlags_cons. unfold parseOneNonFlag. cbn [String.eqb Ascii.eqb Bool.eqb].
  unfold flag.failed. cbn. unfold flag.ErrorHandling in Hpol. rewrite Hpol. cbn.
  eexists. split; [done|]. cbn. by destruct (isContinueOnUndefined f).
Qed.

Lemma Parse_terminator_in_a_positional_place_witness :
  let f := flagSet02 ContinueOnError in
  ∃ f', Parse f ("prog" :: "x" :: "--" :: ["sub"]) ∅
        = Ret (f', Some (ErrNonFlagNotProvided 1)) (<[1%positive := "x"]> ∅)
        ∧ nonActual f' = <[0%Z := mkFlag "?0" "" (stringValue 1%positive) ""]> (nonActual f).
Proof.
  intros f.
  apply (Parse_terminator_in_a_positional_place f
           (mkFlag "?0" "" (stringValue 1%positive) "") "prog" "x" "x" ["sub"] ∅).
  - reflexivity.
  - intros t H. discriminate H.
  - reflexivity.
  - reflexivity.
  - reflexivity.
  - reflexivity.
Defined.

(** ** The value of a boolean flag *)

(** The base scanner on a flag written with its value, and on a boolean
    flag written alone. *)
Lemma parseOne_inline (b : flag.FlagSet) (fl : Flag) (name value : string)
    (rest : list string) (h : Heap) :
  validName name →
  flag.formal b !! name = Some fl →
  flag.args b = ("-" +:+ name +:+ "=" +:+ value) :: rest →
  flag.parseOne b h
  = match Set_ (Value_ fl) value h with
    | None =>
      (false,
       Some (if IsBoolFlag (Value_ fl) then ErrInvalidBool value name
             else ErrInvalidValue value name),
       flag.set_args b rest, h)
    | Some h' =>
      (true, None,
       flag.set_actual (flag.set_args b rest) (<[name := fl]> (flag.actual b)), h')
    end.
Proof.
  intros (Hne & Hdash & Heq) Hfl Hargs. destruct name as [|c t]; [done|]. clear Hne.
  assert (Hc : c ≠ "-"%char) by (intros ->; by apply (Hdash t)).
  assert (Hc' : c ≠ "="%char).
  { intros ->. apply Heq. by exists "", t. }
  assert (Ht : ¬ has_byte "=" t).
  { intros H. apply Heq. apply has_byte_cons. by right. }
  assert (E1 : Ascii.eqb c "-" = false) by by apply Ascii.eqb_neq.
  assert (E2 : Ascii.eqb c "=" = false) by by apply Ascii.eqb_neq.
  unfold flag.parseOne. rewrite Hargs.
  change ("-" +:+ String c t +:+ "=" +:+ value)
    with (String "-" (String c (t +:+ String "=" value))).
  cbn -[GoString.from GoString.upto equalsAt]. rewrite E1.
  cbn -[GoString.from GoString.upto equalsAt].
  rewrite from_1. unfold GoString.byte_is, GoString.len.
  cbn -[GoString.from GoString.upto equalsAt]. rewrite E1, E2.
  cbn -[GoString.from GoString.upto equalsAt].
  assert (Heq' : equalsAt (String c (t +:+ String "=" value)) = Some (S (String.length t))).
  { apply equalsAt_Some. by exists t, value. }
  rewrite Heq'.
  change (String c (t +:+ String "=" value)) with (String c t +:+ String "=" value).
  change (S (String.length t)) with (String.length (String c t)).
  rewrite (upto_app (String c t)), (from_app_S (String c t)).
  cbn -[GoString.from GoString.upto equalsAt]. rewrite Hfl.
  destruct (IsBoolFlag (Value_ fl)); cbn; by destruct (Set_ (Value_ fl) value h).
Qed.

Lemma parseOne_bool_alone (b : flag.FlagSet) (fl : Flag) (name : string)
    (rest : list string) (h : Heap) :
  validName name →
  flag.formal b !! name = Some fl →
  IsBoolFlag (Value_ fl) = true →
  flag.args b = ("-" +:+ name) :: rest →
  flag.parseOne b h
  = match Set_ (Value_ fl) "true" h with
    | None => (false, Some (ErrInvalidBoolFlag name), flag.set_args b rest, h)
    | Some h' =>
      (true, None,
       flag.set_actual (flag.set_args b rest) (<[name := fl]> (flag.actual b)), h')
    end.
Proof.
  intros (Hne & Hdash & Heq) Hfl Hbool Hargs. destruct name as [|c t]; [done|]. clear Hne.
  assert (Hc : c ≠ "-"%char) by (intros ->; by apply (Hdash t)).
  assert (Hc' : c ≠ "="%char).
  { intros ->. apply Heq. by exists "", t. }
  assert (Ht : ¬ has_byte "=" t).
  { intros H. apply Heq. apply has_byte_cons. by right. }
  assert (E1 : Ascii.eqb c "-" = false) by by apply Ascii.eqb_neq.
  assert (E2 : Ascii.eqb c "=" = false) by by apply Ascii.eqb_neq.
  assert (Hnone : equalsAt (String c t) = None) by by apply equalsAt_None.
  unfold flag.parseOne. rewrite Hargs.
  change ("-" +:+ String c t) with (String "-" (String c t)).
  cbn -[GoString.from GoString.upto equalsAt]. rewrite E1.
  cbn -[GoString.from GoString.upto equalsAt].
  rewrite from_1. unfold GoString.byte_is, GoString.len.
  cbn -[GoString.from GoString.upto equalsAt]. rewrite E1, E2.
  cbn -[GoString.from GoString.upto equalsAt].
  rewrite Hnone. cbn -[GoString.from GoString.upto equalsAt]. rewrite Hfl, Hbool.
  by destruct (Set_ (Value_ fl) "true" h).
Qed.

(** X16. A boolean flag written with its value, as one token
    name=value: in strict mode the flag is set to the value; in
    tolerant mode the flag is set to true whatever the value, and the
    value is left as the first remaining argument.  (No positional
    entry is registered at index 0.) *)
Theorem Parse_inline_value_of_a_boolean_flag
    (f : FlagSet) (fl : Flag) (name value c cv : string) (h : Heap) :
  validName name → dashless value →
  flag.formal (base f) !! name = Some fl →
  IsBoolFlag (Value_ fl) = true →
  conv (Value_ fl) "true" = Some c →
  conv (Value_ fl) value = Some cv →
  terminated f = false →
  nonFormal f !! 0%Z = None →
  ∃ f', Parse f ["-" +:+ name +:+ "=" +:+ value] h
        = Ret (f', None)
              (<[cell (Value_ fl) := if isContinueOnUndefined f then c else cv]> h)
        ∧ flag.Args (base f') = (if isContinueOnUndefined f then [value] else [])
        ∧ flag.actual (base f') = <[name := fl]> (flag.actual (base f)).
Proof.
  intros Hname Hvalue Hfl Hbool Hc Hcv Hterm H0.
  unfold Parse.
  assert (Hsplit : SplitArgs ["-" +:+ name +:+ "=" +:+ value]
                   = ("", ["-" +:+ name +:+ "=" +:+ value])) by done.
  rewrite Hsplit. unfold Parse_tidy.
  destruct (isContinueOnUndefined f) eqn:Hcu.
  - unfold tidyArgs. rewrite filterArgs_step. cbv zeta.
    destruct (tidyOneArg_written false name [] Hname) as (Hw & _).
    assert (Hw' : tidyOneArg ["-" +:+ name +:+ "=" +:+ value]
                  = OneArg.mk [] false name (Some value) true None) by exact (Hw value).
    rewrite Hw'. cbn [OneArg.seen OneArg.name OneArg.valuePtr OneArg.lastArgs].
    unfold tidyArgs_closure at 1. unfold flag.Lookup. rewrite Hfl.
    rewrite bool_decide_true by eauto. cbn [app].
    rewrite filterArgs_step.
    change (tidyOneArg []) with (OneArg.mk [] false "" None false None). cbn.
    unfold bind, flag.Parse. rewrite parseLoop_step.
    erewrite (parseOne_bool_alone _ fl name [value] h);
      [|exact Hname|exact Hfl|exact Hbool|reflexivity].
    unfold Set_ at 1. rewrite Hc.
    rewrite parseLoop_step. unfold flag.parseOne. cbn [flag.args flag.set_actual flag.set_args].
    rewrite (dashless_bare value Hvalue).
    cbn [terminated set_base set_terminated isContinueOnUndefined base flag.Args flag.args].
    rewrite Hcu. cbn [flag.Args flag.args flag.set_actual flag.set_args].
    rewrite parseNonFlags_cons. unfold parseOneNonFlag.
    rewrite (dashless_not_terminator value Hvalue). cbn [nonFormal set_base set_terminated].
    rewrite H0. eexists. split; [done|]. done.
  - unfold bind, flag.Parse. rewrite parseLoop_step.
    erewrite (parseOne_inline _ fl name value [] h);
      [|exact Hname|exact Hfl|reflexivity].
    unfold Set_ at 1. rewrite Hcv.
    rewrite parseLoop_step. unfold flag.parseOne. cbn [flag.args flag.set_actual flag.set_args].
    cbn [terminated set_base set_terminated isContinueOnUndefined base flag.Args flag.args].
    rewrite Hterm, Hcu. cbn. eexists. split; [done|]. done.
Qed.

Lemma Parse_inline_value_of_a_boolean_flag_witness :
  validName "v"
  ∧ (∃ f', Parse (flagSetV (Z.lor ContinueOnError ContinueOnUndefined)) ["-v=false"] ∅
           = Ret (f', None) (<[1%positive := "true"]> ∅)
           ∧ flag.Args (base f') = ["false"]
           ∧ flag.actual (base f')
             = <["v" := mkFlag "v" "" (boolValue 1%positive) "false"]> ∅)
  ∧ (∃ f', Parse (flagSetV ContinueOnError) ["-v=false"] ∅
           = Ret (f', None) (<[1%positive := "false"]> ∅)
           ∧ flag.Args (base f') = []
           ∧ flag.actual (base f')
             = <["v" := mkFlag "v" "" (boolValue 1%positive) "false"]> ∅).
Proof.
  assert (Hname : validName "v") by (apply validName_intro; [discriminate|reflexivity]).
  assert (Hvalue : dashless "false") by (intros t H; discriminate H).
  split; [exact Hname|]. split.
  - exact (Parse_inline_value_of_a_boolean_flag
             (flagSetV (Z.lor ContinueOnError ContinueOnUndefined))
             (mkFlag "v" "" (boolValue 1%positive) "false") "v" "false" "true" "false" ∅
             Hname Hvalue eq_refl eq_refl eq_refl eq_refl eq_refl eq_refl).
  - exact (Parse_inline_value_of_a_boolean_flag
             (flagSetV ContinueOnError)
             (mkFlag "v" "" (boolValue 1%positive) "false") "v" "false" "true" "false" ∅
             Hname Hvalue eq_refl eq_refl eq_refl eq_refl eq_refl eq_refl).
Defined.

(** ** The names of positional entries *)

Lemma norm_not_nil (d : Decimal.signed_int) :
  Decimal.norm d ≠ Decimal.Pos Decimal.Nil ∧ Decimal.norm d ≠ Decimal.Neg Decimal.Nil.
Proof.
  destruct d as [d|d]; cbn.
  - split; [|done]. unfold Decimal.unorm. by destruct (Decimal.nzhead d).
  - by destruct (Decimal.nzhead d).
Qed.

(** [strconv.Atoi] reads back what [strconv.Itoa] writes. *)
Lemma Itoa_Atoi (i : Z) : Atoi (Itoa i) = (i, None).
Proof.
  unfold Atoi, Itoa.
  assert (Hn : Z.to_int i = Decimal.norm (Z.to_int i)).
  { rewrite <- DecimalZ.to_of. by rewrite DecimalZ.of_to. }
  destruct (norm_not_nil (Z.to_int i)) as [H1 H2]. rewrite <- Hn in H1, H2.
  rewrite NilZero.isi by done. by rewrite DecimalZ.of_to.
Qed.

Lemma Itoa_inj (i j : Z) : Itoa i = Itoa j → i = j.
Proof.
  intros H. pose proof (Itoa_Atoi i) as Hi. rewrite H, Itoa_Atoi in Hi. congruence.
Qed.

Lemma append_inj_r (p s t : string) : p +:+ s = p +:+ t → s = t.
Proof. induction p as [|a p IH]; simpl; [done|]. intros [= H]. by apply IH. Qed.

Lemma prefix_app (p r : string) : String.prefix p (p +:+ r) = true.
Proof. apply prefix_correct. apply upto_app. Qed.

(** X17. Positional entries of different indices get different names,
    whatever the prefix of the names: the name tells the index. *)
Theorem getNonFlagName_is_injective (tagKeyNonFlag : string) (i j : Z) :
  getNonFlagName tagKeyNonFlag i = getNonFlagName tagKeyNonFlag j ↔ i = j.
Proof.
  split; [|by intros ->]. unfold getNonFlagName.
  intros H%append_inj_r. by apply Itoa_inj.
Qed.

(** X18. getNonFlagIndex reads back the index getNonFlagName wrote into
    a name, when the prefix of the names is not empty and the number
    parser reads the numerals of [strconv.Itoa]; a name without the
    prefix is reported as not being the name of a positional entry,
    and so is every name when the prefix is empty. *)
Theorem getNonFlagIndex_reads_getNonFlagName (tagKeyNonFlag : string)
    (ConvError : Type) (StringToInt : string → bool → Z * option ConvError) :
  (∀ i, StringToInt (Itoa i) true = (i, None)) →
  (tagKeyNonFlag ≠ "" →
   ∀ index, getNonFlagIndex tagKeyNonFlag ConvError StringToInt
              (getNonFlagName tagKeyNonFlag index)
            = (index, true, None))
  ∧ (∀ name, String.prefix tagKeyNonFlag name = false →
             getNonFlagIndex tagKeyNonFlag ConvError StringToInt name
             = (0%Z, false, None))
  ∧ (tagKeyNonFlag = "" →
     ∀ name, getNonFlagIndex tagKeyNonFlag ConvError StringToInt name
             = (0%Z, false, None)).
Proof.
  intros Hconv. split; [|split].
  - intros Htag index. unfold getNonFlagIndex, getNonFlagName, TrimPrefix.
    rewrite prefix_app, from_app.
    destruct (String.eqb_spec (Itoa index) (tagKeyNonFlag +:+ Itoa index)) as [Heq|_].
    + exfalso. apply (f_equal String.length) in Heq. rewrite length_append in Heq.
      destruct tagKeyNonFlag; [done|]. simpl in Heq. lia.
    + by rewrite Hconv.
  - intros name Hp. unfold getNonFlagIndex, TrimPrefix. rewrite Hp.
    by rewrite String.eqb_refl.
  - intros -> name. unfold getNonFlagIndex, TrimPrefix.
    assert (Hp : String.prefix "" name = true) by (by destruct name).
    rewrite Hp. unfold GoString.from. cbn [String.length]. rewrite Nat.sub_0_r.
    rewrite substring_all. by rewrite String.eqb_refl.
Qed.

Lemma getNonFlagIndex_reads_getNonFlagName_witness :
  (∀ i, (λ s (_ : bool), Atoi s) (Itoa i) true = (i, None))
  ∧ getNonFlagIndex "?" unit (λ s _, Atoi s) (getNonFlagName "?" 12) = (12%Z, true, None)
  ∧ getNonFlagIndex "?" unit (λ s _, Atoi s) "name" = (0%Z, false, None).
Proof.
  assert (Hconv : ∀ i, (λ s (_ : bool), Atoi s) (Itoa i) true = (i, None))
    by exact Itoa_Atoi.
  split; [exact Hconv|].
  destruct (getNonFlagIndex_reads_getNonFlagName "?" unit (λ s _, Atoi s) Hconv)
    as (H1 & H2 & _).
  split; [apply H1; discriminate|apply H2; reflexivity].
Defined.

(** ** The names in a tree of commands *)

Lemma WellNamed_inv c :
  WellNamed c →
  ∀ n subCmd, subcommands c !! n = Some subCmd →
    n ≠ "" ∧ cmdName subCmd = n ∧ parent subCmd = Some (cmdName c) ∧ WellNamed subCmd.
Proof. by inversion 1. Qed.

Lemma WellNamed_leaf c : subcommands c = ∅ → WellNamed c.
Proof. intros He. constructor. intros n subCmd. by rewrite He, lookup_empty. Qed.

Lemma AddFilters_fields tag fs : ∀ c w c' w',
  AddFilters tag c fs w = Ret c' w' →
  same_place c c' ∧ action c' = action c ∧ subcommands c' = subcommands c.
Proof.
  induction fs as [|filter fs IH]; intros c w c' w' H; simpl in H.
  - by injection H as <- _.
  - unfold bind in H.
    destruct (AddFilter tag c filter w) as [c1 w1| | |] eqn:H1; try done.
    apply (AddFilter_returns tag) in H1 as [obj ->].
    by apply IH in H as [? [-> ->]].
Qed.

(** What a call of AddSubcommand that returns found and made. *)
Lemma AddSubcommand_fields tag c name descr fs w c' w' :
  AddSubcommand tag c name descr fs w = Ret c' w' →
  name ≠ "" ∧ action c = None ∧ subcommands c !! name = None
  ∧ ∃ subCmd, c' = set_subcommands c (<[name := subCmd]> (subcommands c))
              ∧ cmdName subCmd = name
              ∧ parent subCmd = Some (cmdName c)
              ∧ action subCmd = None ∧ subcommands subCmd = ∅.
Proof.
  unfold AddSubcommand. intros H.
  destruct (action c) eqn:Hact.
  { unfold bind, pathString, bind, path in H. by destruct (parent c). }
  destruct (String.eqb_spec name ""); [done|].
  destruct (subcommands c !! name) eqn:Hsub; [done|].
  unfold bind in H.
  destruct (AddFilters tag _ fs w) as [subCmd w1| | |] eqn:Hf; try done.
  injection H as <- _. apply AddFilters_fields in Hf as ((Hn & Hp & _) & Ha & Hs).
  simpl in *. split; [done|]. split; [done|]. split; [done|]. eauto 10.
Qed.

Lemma SetAction_fields tag c act w c' w' :
  SetAction tag c act w = Ret c' w' →
  subcommands c = ∅ ∧ ∃ obj, c' = set_action c (Some obj).
Proof.
  unfold SetAction. intros H.
  destruct (0 <? size (subcommands c))%nat eqn:Hsize.
  { unfold bind, pathString, bind, path in H. by destruct (parent c). }
  apply Nat.ltb_ge in Hsize.
  assert (Hempty : subcommands c = ∅).
  { apply map_size_empty_iff. lia. }
  unfold bind in H.
  match type of H with
  | match ?m with _ => _ end = _ => destruct m as [obj w1| | |]; try done
  end.
  injection H as <- _. eauto.
Qed.

Lemma WellNamed_insert c n subCmd :
  WellNamed c → n ≠ "" → cmdName subCmd = n → parent subCmd = Some (cmdName c) →
  WellNamed subCmd →
  WellNamed (set_subcommands c (<[n := subCmd]> (subcommands c))).
Proof.
  intros Hc Hn Hname Hparent Hsub. constructor.
  intros m sub. cbn [subcommands set_subcommands cmdName].
  rewrite lookup_insert. case_decide as Hnm.
  - intros [= <-]. subst m. done.
  - by apply WellNamed_inv.
Qed.

(** A registration call that returns leaves the command in its place
    and keeps the names below it. *)
Lemma call_WellNamed tag r c w c' w' :
  call tag r c w = Ret c' w' → same_place c c' ∧ (WellNamed c → WellNamed c').
Proof.
  intros H. destruct r as [n d fs|f|act|n d act fs]; cbn [call] in H.
  - apply AddSubcommand_fields in H as (Hn & _ & _ & subCmd & -> & Hname & Hpar & _ & He).
    split; [by repeat split|]. intros Hc.
    apply WellNamed_insert; [exact Hc|exact Hn|exact Hname|exact Hpar|].
    by apply WellNamed_leaf.
  - apply (AddFilter_returns tag) in H as [obj ->]. split; [done|].
    intros Hc. constructor. apply (WellNamed_inv _ Hc).
  - apply SetAction_fields in H as [He [obj ->]]. split; [done|].
    intros _. by apply WellNamed_leaf.
  - revert H. unfold AddSubaction. intros H. unfold bind at 1 in H.
    match type of H with
    | match ?m with _ => _ end = _ =>
      destruct m as [c1 w1| | |] eqn:H1; try discriminate H
    end.
    apply AddSubcommand_fields in H1
      as (Hn & _ & _ & subCmd & -> & Hname & Hpar & _ & He).
    cbn [subcommands set_subcommands] in H. rewrite lookup_insert_eq in H.
    unfold bind in H.
    match type of H with
    | match ?m with _ => _ end = _ =>
      destruct m as [sub2 w2| | |] eqn:H2; try discriminate H
    end.
    injection H as <- _. apply SetAction_fields in H2 as [_ [obj ->]].
    assert (Heq :
      set_subcommands (set_subcommands c (<[n := subCmd]> (subcommands c)))
        (<[n := set_action subCmd (Some obj)]> (<[n := subCmd]> (subcommands c)))
      = set_subcommands c (<[n := set_action subCmd (Some obj)]> (subcommands c))).
    { unfold set_subcommands. cbn. by rewrite insert_insert_eq. }
    rewrite Heq. split; [by repeat split|]. intros Hc.
    apply WellNamed_insert; [exact Hc|exact Hn|exact Hname|exact Hpar|].
    by apply WellNamed_leaf.
Qed.

Lemma at_place_WellNamed (method : Command → M World Command) :
  (∀ c w c' w', method c w = Ret c' w' →
                same_place c c' ∧ (WellNamed c → WellNamed c')) →
  ∀ place c w c' w',
    at_place place method c w = Ret c' w' →
    same_place c c' ∧ (WellNamed c → WellNamed c').
Proof.
  intros Hm. induction place as [|n place IH]; intros c w c' w' H;
    cbn [at_place] in H.
  - by eapply Hm.
  - destruct (subcommands c !! n) as [subCmd|] eqn:Hn; [|done].
    unfold bind in H.
    match type of H with
    | match ?m with _ => _ end = _ =>
      destruct m as [subCmd' w1| | |] eqn:H1; try discriminate H
    end.
    injection H as <- _. apply IH in H1 as ((Hname & Hpar & _) & Hsub).
    split; [done|]. intros Hc.
    destruct (WellNamed_inv _ Hc _ _ Hn) as (Hne & Hnm & Hp & Hw).
    apply WellNamed_insert; [exact Hc|exact Hne|congruence|congruence|by apply Hsub].
Qed.

Lemma Reachable_names tag root :
  Reachable tag root → parent root = None ∧ WellNamed root.
Proof.
  induction 1 as [prog|root place r w root' w' _ [IHp IHw] H].
  - split; [done|]. by apply WellNamed_leaf.
  - apply (at_place_WellNamed (call tag r)) in H as ((_ & Hp & _) & Hw).
    + split; [congruence|by apply Hw].
    + intros. by eapply call_WellNamed.
Qed.

Lemma descend_snoc c names n c' :
  descend c (names ++ [n]) = Some c' ↔
  ∃ above, descend c names = Some above ∧ subcommands above !! n = Some c'.
Proof.
  revert c. induction names as [|m names IH]; intros c; cbn [descend app].
  - split.
    + destruct (subcommands c !! n) as [subCmd|] eqn:Hn; [|done].
      intros [= <-]. eauto.
    + intros (above & [= <-] & ->). done.
  - destruct (subcommands c !! m) as [subCmd|]; [apply IH|].
    split; [done|]. by intros (? & ? & _).
Qed.

Lemma descend_WellNamed c names c' :
  WellNamed c → descend c names = Some c' → WellNamed c'.
Proof.
  revert c. induction names as [|m names IH]; intros c Hc; cbn [descend].
  - by intros [= <-].
  - destruct (subcommands c !! m) as [subCmd|] eqn:Hm; [|done].
    apply IH. by destruct (WellNamed_inv _ Hc _ _ Hm) as (_ & _ & _ & ?).
Qed.

(** X19. In every tree of commands built by registration calls that
    return, the root has no parent, and every command below it is
    stored under its own name, which is not empty, and names as its
    parent the command it is stored in. *)
Theorem registration_names_every_subcommand (tag : string) (root : Command) :
  Reachable tag root →
  parent root = None
  ∧ ∀ names n c',
      descend root (names ++ [n]) = Some c' →
      n ≠ "" ∧ cmdName c' = n
      ∧ ∃ above, descend root names = Some above
                 ∧ parent c' = Some (cmdName above).
Proof.
  intros [Hp Hw]%Reachable_names. split; [exact Hp|].
  intros names n c' (above & Habove & Hn)%descend_snoc.
  pose proof (descend_WellNamed _ _ _ Hw Habove) as Ha.
  destruct (WellNamed_inv _ Ha _ _ Hn) as (Hne & Hnm & Hpar & _).
  split; [exact Hne|]. split; [exact Hnm|]. by exists above.
Qed.

Lemma registration_names_every_subcommand_witness :
  Reachable "?" (Command_ appAB)
  ∧ descend (Command_ appAB) (["a"] ++ ["b"]) = Some cmdB
  ∧ cmdName cmdB = "b"
  ∧ ∃ above, descend (Command_ appAB) ["a"] = Some above
             ∧ parent cmdB = Some (cmdName above).
Proof.
  assert (Hreach : Reachable "?" (Command_ appAB)).
  { eapply (Reachable_call "?" _ ["a"]
              (CallAddSubaction "b" "" (ActionOfFunc (logAction "Act"))
                                [FilterOfFunc (logFilter "F2")]) world0 _ world0).
    - eapply (Reachable_call "?" _ []
                (CallAddSubcommand "a" "" [FilterOfFunc (logFilter "F1")])
                world0 _ world0).
      + apply (Reachable_NewApp "?" "app").
      + reflexivity.
    - reflexivity. }
  split; [exact Hreach|]. split; [reflexivity|].
  destruct (registration_names_every_subcommand "?" _ Hreach) as (_ & H).
  destruct (H ["a"] "b" cmdB eq_refl) as (_ & Hname & Habove).
  split; [exact Hname|exact Habove].
Defined.

(** X20. A name is given to one subcommand only: after a call of
    AddSubcommand that returned, every further call of AddSubcommand
    on that command with the same name panics, whatever the
    description and the filters, and changes nothing. *)
Theorem AddSubcommand_refuses_a_name_twice (tag : string) (c : Command)
    (name descr : string) (fs : list Filter) (w : World) (c' : Command) (w' : World) :
  AddSubcommand tag c name descr fs w = Ret c' w' →
  ∀ descr' fs' w'',
    AddSubcommand tag c' name descr' fs' w''
    = Panic (PanicMsg ("action named " +:+ name +:+ " already exists")) w''.
Proof.
  intros (Hne & Hact & _ & subCmd & -> & _)%AddSubcommand_fields.
  intros descr' fs' w''. unfold AddSubcommand.
  cbn [action set_subcommands subcommands]. rewrite Hact.
  destruct (String.eqb_spec name ""); [done|].
  by rewrite lookup_insert_eq.
Qed.

Lemma AddSubcommand_refuses_a_name_twice_witness :
  ∃ c', AddSubcommand "?" (Command_ (NewApp "app")) "a" "" [] world0 = Ret c' world0
        ∧ AddSubcommand "?" c' "a" "again" [FilterOfFunc (logFilter "F")] world0
          = Panic (PanicMsg "action named a already exists") world0.
Proof.
  eexists. split; [reflexivity|].
  exact (AddSubcommand_refuses_a_name_twice "?" (Command_ (NewApp "app")) "a" "" []
           world0 _ world0 eq_refl "again" [FilterOfFunc (logFilter "F")] world0).
Defined.

(** ** Filters and actions that are functions *)

(** The filters that are functions are handed out as they are; the
    arguments and the world stay as they were. *)
Lemma newFilters_range_functions tag NextArgs (a : App) (name : string)
    (arguments : list string) (pre : list filterObject.t) :
  Forall (λ obj, is_Some (filterObject.filterFunc obj)) pre →
  ∀ rest args0 w,
    newFilters_range tag NextArgs a name arguments (pre ++ rest) args0 w
    = (r <- newFilters_range tag NextArgs a name arguments rest args0 ;;
       ret (omap filterObject.filterFunc pre ++ r.1, r.2))%go w.
Proof.
  induction 1 as [|obj pre [fn Hfn] _ IH]; intros rest args0 w.
  - cbn [app omap list_omap]. unfold bind, ret.
    by destruct (newFilters_range _ _ _ _ _ rest args0 w) as [[fs args'] w'| | |].
  - cbn [app newFilters_range omap list_omap]. rewrite Hfn.
    unfold bind at 1. rewrite IH. unfold bind, ret.
    by destruct (newFilters_range _ _ _ _ _ rest args0 w) as [[fs args'] w'| | |].
Qed.

Lemma newFilters_functions tag NextArgs (a : App) (c : Command)
    (arguments : list string) (w : World) :
  Forall (λ obj, is_Some (filterObject.filterFunc obj)) (filters c) →
  newFilters tag NextArgs a c arguments w
  = Ret (omap filterObject.filterFunc (filters c), arguments) w.
Proof.
  intros Hfuncs. unfold newFilters.
  rewrite <- (app_nil_r (filters c)) at 1.
  rewrite (newFilters_range_functions _ _ _ _ _ _ Hfuncs). cbn.
  by rewrite app_nil_r.
Qed.

(** Registering filters that are functions. *)
Lemma AddFilters_functions tag (ffs : list FilterFunc) :
  ∀ c w,
    AddFilters tag c (FilterOfFunc <$> ffs) w
    = Ret (set_filters c (filters c ++ (funcFilter (cmdName c) <$> ffs))) w.
Proof.
  induction ffs as [|fn ffs IH]; intros c w; cbn [fmap list_fmap AddFilters].
  - rewrite app_nil_r. by destruct c.
  - unfold bind, AddFilter at 1. unfold bind, ret. rewrite IH.
    cbn [filters set_filters cmdName]. rewrite <- app_assoc. by destruct c.
Qed.

Lemma omap_functions (name : string) (ffs : list FilterFunc) :
  omap filterObject.filterFunc (funcFilter name <$> ffs) = ffs.
Proof. induction ffs as [|fn ffs IH]; cbn; [done|]. f_equal. exact IH. Qed.

Lemma Forall_functions (name : string) (ffs : list FilterFunc) :
  Forall (λ obj, is_Some (filterObject.filterFunc obj)) (funcFilter name <$> ffs).
Proof. induction ffs as [|fn ffs IH]; cbn; constructor; eauto. Qed.

Lemma AddSubaction_functions tag (c : Command) (name descr : string)
    (fn : ActionFunc) (ffs : list FilterFunc) (w : World) :
  action c = None → name ≠ "" → subcommands c !! name = None →
  AddSubaction tag c name descr (ActionOfFunc fn) (FilterOfFunc <$> ffs) w
  = Ret (set_subcommands c
           (<[name := functionCommand (CmdName c) name descr fn ffs]>
              (subcommands c))) w.
Proof.
  intros Hact Hne Hfree. unfold AddSubaction, bind at 1, AddSubcommand.
  rewrite Hact, Hfree. destruct (String.eqb_spec name "") as [|_]; [done|].
  unfold bind at 1. rewrite AddFilters_functions. cbn [ret].
  cbn [subcommands set_subcommands]. rewrite lookup_insert_eq.
  unfold bind, SetAction. cbn [subcommands set_filters newCommand].
  rewrite map_size_empty. cbn. by rewrite insert_insert_eq.
Qed.

Lemma findFiltersAndAction_functionCommand tag NextArgs (a : App)
    (parentName name descr : string) (fn : ActionFunc) (ffs : list FilterFunc)
    (path arguments : list string) (w : World) :
  findFiltersAndAction tag NextArgs a
    (functionCommand parentName name descr fn ffs) path arguments w
  = Ret (ffs, Some fn, path, true) w.
Proof.
  rewrite findFiltersAndAction_eq. unfold bind at 1.
  rewrite newFilters_functions by apply Forall_functions.
  change (filters (functionCommand parentName name descr fn ffs))
    with (funcFilter name <$> ffs).
  rewrite omap_functions. reflexivity.
Qed.

(** X21. A filter whose type is neither a struct nor a function is
    accepted by AddFilter without complaint, and from then on no Exec
    of the app reaches a handler: whatever the arguments, Exec returns
    the status made from a nil dereference, and the world is as it
    was.  (The filters registered before are functions.) *)
Theorem Exec_after_a_filter_of_another_kind tag UnknownError NextArgs
    (a : App) (method : FilterFunc) (w0 : World) :
  Forall (λ obj, is_Some (filterObject.filterFunc obj)) (filters (Command_ a)) →
  ∃ c', AddFilter tag (Command_ a) (FilterOfOther method) w0 = Ret c' w0
        ∧ ∀ arguments w,
            Exec tag UnknownError NextArgs
                 (mkApp c' (notFound a) (validator a)) arguments w
            = Ret (Some (NewStatus UnknownError (CauseValue "nil pointer dereference"))) w.
Proof.
  intros Hfuncs. eexists. split; [reflexivity|]. intros arguments w.
  unfold Exec, Catch, bind at 1, route, bind at 1.
  destruct (Command_ a) as [par nm descr fs act subs]. cbn [filters] in Hfuncs.
  cbn [findFiltersAndAction Command_ set_filters parent cmdName description
       filters action subcommands].
  unfold bind at 1, newFilters. cbn [filters cmdName].
  rewrite (newFilters_range_functions _ _ _ _ _ fs Hfuncs). done.
Qed.

Lemma Exec_after_a_filter_of_another_kind_witness :
  ∃ c', AddFilter "?" (Command_ appAB) (FilterOfOther (logFilter "F")) world0
        = Ret c' world0
        ∧ Exec "?" (-1) SubArgs (mkApp c' None None) ["a"; "b"] world0
          = Ret (Some (NewStatus (-1) (CauseValue "nil pointer dereference"))) world0.
Proof.
  destruct (Exec_after_a_filter_of_another_kind "?" (-1) SubArgs appAB
              (logFilter "F") world0 (List.Forall_nil _)) as (c' & Hadd & HExec).
  exists c'. split; [exact Hadd|]. exact (HExec ["a"; "b"] world0).
Defined.

(** X22. Register, then route: after AddSubaction has registered a
    subcommand with an action and filters that are functions, on a
    command whose own filters are functions, the arguments that start
    with the name of the subcommand are routed to that action, wrapped
    by the filters of the command and then the filters given, in that
    order; the path is the command, then the subcommand; registering
    and routing leave the world as it was. *)
Theorem registered_action_is_routed tag NextArgs (c : Command) (name descr : string)
    (fn : ActionFunc) (ffs : list FilterFunc) (w0 : World) (c' : Command) (w0' : World)
    (nf : option ActionFunc) (v : option ValidateFunc)
    (arguments rest : list string) (w : World) :
  Forall (λ obj, is_Some (filterObject.filterFunc obj)) (filters c) →
  AddSubaction tag c name descr (ActionOfFunc fn) (FilterOfFunc <$> ffs) w0
  = Ret c' w0' →
  SplitArgs arguments = (name, rest) →
  w0' = w0
  ∧ route tag NextArgs (mkApp c' nf v) arguments w
    = Ret (onion (omap filterObject.filterFunc (filters c) ++ ffs) fn,
           mkContext arguments [CmdName c; name]) w.
Proof.
  intros Hfuncs Hadd Hsplit.
  assert (Hpre : action c = None ∧ name ≠ "" ∧ subcommands c !! name = None).
  { revert Hadd. unfold AddSubaction, bind at 1.
    destruct (AddSubcommand tag c name descr (FilterOfFunc <$> ffs) w0)
      as [c1 w1| | |] eqn:H1; try discriminate.
    by apply AddSubcommand_fields in H1 as (Hne & Hact & Hfree & _). }
  destruct Hpre as (Hact & Hne & Hfree).
  rewrite AddSubaction_functions in Hadd by done. injection Hadd as <- <-.
  split; [done|].
  unfold route, bind at 1. rewrite findFiltersAndAction_eq.
  unfold bind at 1. rewrite newFilters_functions by exact Hfuncs.
  unfold bind at 1, newAction at 1. cbn [action set_subcommands Command_]. rewrite Hact.
  cbn [ret]. rewrite Hsplit. cbn [subcommands set_subcommands Command_].
  rewrite lookup_insert_eq.
  destruct (String.eqb_spec name "") as [|_]; [done|]. cbn [negb].
  unfold bind at 1. rewrite findFiltersAndAction_functionCommand.
  cbn [ret bind]. unfold bind.
  rewrite wrap_onion by done. rewrite take_ge by done. by destruct c.
Qed.

Lemma registered_action_is_routed_witness :
  ∃ c', AddSubaction "?" (Command_ (appF None)) "run" "" (ActionOfFunc (logAction "Run"))
                     (FilterOfFunc <$> [logFilter "F1"; logFilter "F2"]) world0
        = Ret c' world0
        ∧ route "?" SubArgs (mkApp c' None None) ["run"; "-x"] world0
          = Ret (onion ([logFilter "F0"] ++ [logFilter "F1"; logFilter "F2"])
                       (logAction "Run"),
                 mkContext ["run"; "-x"] ["app"; "run"]) world0.
Proof.
  eexists. split; [reflexivity|].
  refine (proj2 (registered_action_is_routed "?" SubArgs (Command_ (appF None)) "run" ""
                   (logAction "Run") [logFilter "F1"; logFilter "F2"] world0 _ world0
                   None None ["run"; "-x"] ["-x"] world0 _ eq_refl eq_refl)).
  repeat constructor. by eexists.
Defined.

(** ** Statuses thrown through the context *)

(** X23. What a handler reports through its context is what Exec
    returns: after ThrowStatus, the status with the code and the cause
    given; after CheckStatus on an error, the status with the code
    given and the error as its cause, the first callback, when there
    is one, having run before; after CheckStatus on no error, the nil
    status, no callback having run. *)
Theorem Exec_returns_the_status_a_handler_throws tag UnknownError NextArgs
    (a : App) (arguments : list string)
    (w w1 w2 : World) (handle : ActionFunc) (ctxObj : Context) (pre : M World unit) :
  route tag NextArgs a arguments w = Ret (handle, ctxObj) w1 →
  pre w1 = Ret () w2 →
  (∀ code cause,
     handle ctxObj = (pre ;; ctx.ThrowStatus ctxObj code cause)%go →
     Exec tag UnknownError NextArgs a arguments w
     = Ret (Some (NewStatus code cause)) w2)
  ∧ (∀ e code cb rest w3,
       handle ctxObj = (pre ;; ctx.CheckStatus ctxObj (Some e) code (Some cb :: rest))%go →
       cb w2 = Ret () w3 →
       Exec tag UnknownError NextArgs a arguments w
       = Ret (Some (NewStatus code (CauseError e))) w3)
  ∧ (∀ e code,
       handle ctxObj = (pre ;; ctx.CheckStatus ctxObj (Some e) code [])%go →
       Exec tag UnknownError NextArgs a arguments w
       = Ret (Some (NewStatus code (CauseError e))) w2)
  ∧ (∀ code whenError,
       handle ctxObj = (pre ;; ctx.CheckStatus ctxObj None code whenError)%go →
       Exec tag UnknownError NextArgs a arguments w = Ret None w2).
Proof.
  intros Hroute Hpre.
  pose proof (Exec_routed tag UnknownError NextArgs a arguments w w1
                handle ctxObj Hroute) as HExec.
  split; [|split; [|split]].
  - intros code cause Hh. rewrite HExec, Hh. unfold Catch, bind. by rewrite Hpre.
  - intros e code cb rest w3 Hh Hcb. rewrite HExec, Hh.
    unfold Catch, bind, ctx.CheckStatus, bind. by rewrite Hpre, Hcb.
  - intros e code Hh. rewrite HExec, Hh. unfold Catch, bind. by rewrite Hpre.
  - intros code whenError Hh. rewrite HExec, Hh. unfold Catch, bind. by rewrite Hpre.
Qed.

(** A handler that prints and then checks an error, with a callback
    that prints. *)
Lemma Exec_returns_the_status_a_handler_throws_witness :
  let handle : ActionFunc :=
    λ c, (print "run" ;;
          ctx.CheckStatus c (Some (ErrValidate "bad")) 9 [Some (print "cleanup")])%go in
  let a := mkApp (mkCommand None "app" "" [] (Some (funcAction "app" handle)) ∅)
                 None None in
  Exec "?" (-1) SubArgs a ["x"] world0
  = Ret (Some (NewStatus 9 (CauseError (ErrValidate "bad"))))
        (mkWorld ∅ ["run"; "cleanup"]).
Proof.
  intros handle a.
  destruct (Exec_returns_the_status_a_handler_throws "?" (-1) SubArgs a ["x"]
              world0 world0 (mkWorld ∅ ["run"]) handle (mkContext ["x"] ["app"])
              (print "run") eq_refl eq_refl) as (_ & H & _).
  exact (H (ErrValidate "bad") 9%Z (print "cleanup") [] (mkWorld ∅ ["run"; "cleanup"])
           eq_refl eq_refl).
Defined.

(** ** The name and the version of an app *)

(** [strings.TrimLeft(s, "-")] takes the dashes off the front. *)
Lemma TrimLeftDash_spec (s : string) :
  ∃ d, dashes d ∧ s = d +:+ TrimLeftDash s ∧ dashless (TrimLeftDash s).
Proof.
  induction s as [|c s IH]; cbn [TrimLeftDash].
  - exists "". split; [done|]. split; [done|]. by intros t.
  - destruct (Ascii.eqb_spec c "-") as [->|Hne].
    + destruct IH as (d & Hd & Hs & Hless). exists (String "-" d).
      split; [done|]. split; [|done].
      change (String "-" d +:+ TrimLeftDash s) with (String "-" (d +:+ TrimLeftDash s)).
      by rewrite <- Hs.
    + exists "". split; [done|]. split; [done|]. by intros t [= ? _].
Qed.

(** X24. The command name of an app never starts with a dash: SetCmdName
    stores the name given, or the name of the program when the name
    given is empty, without the dashes in front of it.  The title of
    the app is its command name until a title that is not empty is
    set.  A new app has the name of the program, without leading
    dashes, as command name and title. *)
Theorem App_command_name_has_no_leading_dash (prog : string) (a : AppInfo.t)
    (name : string) :
  let a' := AppInfo.SetCmdName prog a name in
  dashless (AppInfo.CmdName a')
  ∧ (∃ d, dashes d
          ∧ (if String.eqb name "" then prog else name) = d +:+ AppInfo.CmdName a')
  ∧ AppInfo.Name (AppInfo.SetName a' "") = AppInfo.CmdName a'
  ∧ (∀ title, title ≠ "" → AppInfo.Name (AppInfo.SetName a' title) = title)
  ∧ AppInfo.CmdName (AppInfo.init prog) = TrimLeftDash prog
  ∧ AppInfo.Name (AppInfo.init prog) = AppInfo.CmdName (AppInfo.init prog)
  ∧ AppInfo.app (AppInfo.init prog) = NewApp prog.
Proof.
  cbv zeta. unfold AppInfo.SetCmdName, AppInfo.CmdName, AppInfo.Name, AppInfo.SetName.
  cbn [AppInfo.app AppInfo.set_app AppInfo.appName Command_ cmdName set_cmdName].
  destruct (TrimLeftDash_spec (if String.eqb name "" then prog else name))
    as (d & Hd & Hs & Hless).
  split; [exact Hless|]. split; [by exists d|]. split; [done|].
  split; [|split; [done|split; done]].
  intros title Hne. by destruct (String.eqb_spec title "").
Qed.

Lemma TrimPrefix_other (s p : string) a b (t : string) :
  p = String a "" → s = String b t → a ≠ b → TrimPrefix s p = s.
Proof.
  intros -> -> Hne. unfold TrimPrefix. cbn.
  by destruct (Ascii.ascii_dec a b).
Qed.

(** X25. The version of an app is never empty: SetVersion takes one
    leading [v] and then one leading [V] off the text given and stores
    0.0.1 when nothing is left.  A version that starts with neither
    letter is stored as it is, also when it is given after [v], [V]
    or [vV].  A new app has the version 0.0.1. *)
Theorem App_version_is_never_empty (a : AppInfo.t) (version : string) :
  AppInfo.Version (AppInfo.SetVersion a version) ≠ ""
  ∧ (∀ c t, version = String c t → c ≠ "v"%char → c ≠ "V"%char →
       AppInfo.Version (AppInfo.SetVersion a version) = version
       ∧ AppInfo.Version (AppInfo.SetVersion a ("v" +:+ version)) = version
       ∧ AppInfo.Version (AppInfo.SetVersion a ("V" +:+ version)) = version
       ∧ AppInfo.Version (AppInfo.SetVersion a ("vV" +:+ version)) = version)
  ∧ (∀ prog, AppInfo.Version (AppInfo.init prog) = "0.0.1").
Proof.
  unfold AppInfo.Version, AppInfo.SetVersion. cbn [AppInfo.version].
  split; [|split; [|done]].
  - by destruct (String.eqb_spec (TrimPrefix (TrimPrefix version "v") "V") "").
  - intros c t -> Hv HV.
    assert (H1 : ∀ p x, p = String x "" → x ≠ c → TrimPrefix (String c t) p = String c t).
    { intros p x -> Hx. by apply (TrimPrefix_other _ _ x c t). }
    assert (H2 : ∀ x s, TrimPrefix (String x s) (String x "") = s).
    { intros x s. unfold TrimPrefix. cbn. destruct (Ascii.ascii_dec x x); [|done].
      assert (Hp : String.prefix "" s = true) by (by destruct s). rewrite Hp.
      apply (from_app (String x "")). }
    split; [|split; [|split]].
    + rewrite (H1 "v" "v"%char), (H1 "V" "V"%char) by (done || congruence). done.
    + change ("v" +:+ String c t) with (String "v" (String c t)).
      rewrite H2, (H1 "V" "V"%char) by (done || congruence). done.
    + change ("V" +:+ String c t) with (String "V" (String c t)).
      rewrite (TrimPrefix_other _ "v" "v"%char "V"%char (String c t)) by done.
      rewrite H2. done.
    + change ("vV" +:+ String c t) with (String "v" (String "V" (String c t))).
      rewrite H2, H2. done.
Qed.
